(** * Verification of the QUBO / Ising course-scheduling formulation
    and of the classical ILP variable generation.

    Shallow embedding of [qubo_qaoa_braket_demo.py] (time parsing,
    [overlaps], [build_qubo], [qubo_to_ising], [evaluate_qubo],
    [interpret_selection]) and of [scheduling-classical.py] /
    [scheduling-classical-mini.py] ([calculate_duration_slots] and the
    variable generation loop of [build_and_run_model]).

    Modelling conventions:
    - Python [float] coefficients are modelled exactly, as rationals [Q].
    - A Python [dict] is an association list with Python's insertion
      order: assigning an existing key updates it in place, a new key is
      appended at the end.
    - A Python exception (KeyError, ValueError, IndexError) is [None] in
      the [option] monad. *)

From Stdlib Require Import List String Ascii ZArith QArith Qabs Lia Bool.
From Stdlib Require Import Decimal DecimalNat Lqa.
Import ListNotations.

Open Scope string_scope.

(** ** The option monad used for Python exceptions *)

Definition obind {A B} (m : option A) (f : A -> option B) : option B :=
  match m with Some a => f a | None => None end.

Notation "x <- m ;; k" := (obind m (fun x => k))
  (at level 61, m at next level, right associativity).

Fixpoint foldM {A B} (f : A -> B -> option A) (l : list B) (a : A) : option A :=
  match l with
  | [] => Some a
  | b :: r => obind (f a b) (foldM f r)
  end.

(** ** Python dictionaries as insertion-ordered association lists *)

Section Dict.
Context {K V : Type} (keqb : K -> K -> bool).

Fixpoint dict_get (d : list (K * V)) (k : K) : option V :=
  match d with
  | [] => None
  | (k', v) :: r => if keqb k k' then Some v else dict_get r k
  end.

(** [d.get(k, dflt)] *)
Definition dict_get_default (d : list (K * V)) (k : K) (dflt : V) : V :=
  match dict_get d k with Some v => v | None => dflt end.

(** [d[k] = v]: in place when [k] is present, appended otherwise. *)
Fixpoint dict_set (d : list (K * V)) (k : K) (v : V) : list (K * V) :=
  match d with
  | [] => [(k, v)]
  | (k', v') :: r =>
      if keqb k k' then (k', v) :: r else (k', v') :: dict_set r k v
  end.

(** [d.setdefault(k, v)] *)
Definition dict_setdefault (d : list (K * V)) (k : K) (v : V) : list (K * V) :=
  match dict_get d k with Some _ => d | None => d ++ [(k, v)] end.
End Dict.

(** [d[k] += x]: raises KeyError when [k] is absent. *)
Definition dict_iadd {K} (keqb : K -> K -> bool) (d : list (K * Q)) (k : K) (x : Q)
  : option (list (K * Q)) :=
  match dict_get keqb d k with
  | Some v => Some (dict_set keqb d k (v + x))
  | None => None
  end.

Definition pair_eqb (p q : string * string) : bool :=
  String.eqb (fst p) (fst q) && String.eqb (snd p) (snd q).

(** ** Strings: [str.split], [int()], [str(n)] *)

(** [s.split(sep)] for a one-character separator. *)
Fixpoint py_split (sep : ascii) (s : string) : list string :=
  match s with
  | EmptyString => [EmptyString]
  | String c r =>
      if Ascii.eqb c sep then EmptyString :: py_split sep r
      else match py_split sep r with
           | [] => [String c EmptyString]
           | w :: ws => String c w :: ws
           end
  end.

(** ASCII characters that [int()] strips as white space. *)
Definition is_py_space (c : ascii) : bool :=
  let n := nat_of_ascii c in
  (n =? 32)%nat || ((9 <=? n)%nat && (n <=? 13)%nat)
  || ((28 <=? n)%nat && (n <=? 31)%nat).

Fixpoint lstrip (s : string) : string :=
  match s with
  | String c r => if is_py_space c then lstrip r else s
  | EmptyString => EmptyString
  end.

Fixpoint rev_string (s : string) (acc : string) : string :=
  match s with
  | EmptyString => acc
  | String c r => rev_string r (String c acc)
  end.

Definition py_strip (s : string) : string :=
  rev_string (lstrip (rev_string (lstrip s) EmptyString)) EmptyString.

Definition is_digit (c : ascii) : bool :=
  ((48 <=? nat_of_ascii c)%nat && (nat_of_ascii c <=? 57)%nat).

Definition digit_value (c : ascii) : Z := Z.of_nat (nat_of_ascii c - 48).

(** Decimal digits, single underscores allowed between digits. *)
Fixpoint digits_go (s : string) (acc : Z) (after_us : bool) : option Z :=
  match s with
  | EmptyString => if after_us then None else Some acc
  | String c r =>
      if is_digit c then digits_go r (acc * 10 + digit_value c) false
      else if Ascii.eqb c "_"%char then
        if after_us then None else digits_go r acc true
      else None
  end.

Definition parse_digits (s : string) : option Z :=
  match s with
  | String c _ => if is_digit c then digits_go s 0 false else None
  | EmptyString => None
  end.

(** [int(s)] on ASCII strings (ValueError is [None]). *)
Definition py_int (s : string) : option Z :=
  match py_strip s with
  | String c r =>
      if Ascii.eqb c "+"%char then parse_digits r
      else if Ascii.eqb c "-"%char then option_map Z.opp (parse_digits r)
      else parse_digits (String c r)
  | EmptyString => None
  end.

(** [str(n)] for a natural number, via its decimal digits. *)
Fixpoint string_of_uint (u : uint) : string :=
  match u with
  | Nil => EmptyString
  | D0 u => String "0" (string_of_uint u)
  | D1 u => String "1" (string_of_uint u)
  | D2 u => String "2" (string_of_uint u)
  | D3 u => String "3" (string_of_uint u)
  | D4 u => String "4" (string_of_uint u)
  | D5 u => String "5" (string_of_uint u)
  | D6 u => String "6" (string_of_uint u)
  | D7 u => String "7" (string_of_uint u)
  | D8 u => String "8" (string_of_uint u)
  | D9 u => String "9" (string_of_uint u)
  end.

Definition py_str_nat (n : nat) : string := string_of_uint (Nat.to_uint n).

(** ** Catalogue records *)

Record Section := mkSection {
  section_id : string;
  days : list string;            (** [section.get("days", [])] *)
  sec_begin : string;            (** ["begin"], "HH:MM" *)
  sec_end : string;              (** ["end"], "HH:MM" *)
  requires_time_slot : bool
}.

Record Course := mkCourse {
  course : string;               (** ["course"], the course code *)
  sections : list Section        (** [course.get("sections", [])] *)
}.

(** ** Helpers for meeting times and overlaps *)

(** [time_to_minutes]: [hours, minutes = map(int, time_str.split(":"))]. *)
Definition time_to_minutes (time_str : string) : option Z :=
  match py_split ":"%char time_str with
  | [hs; ms] =>
      hours <- py_int hs ;;
      minutes <- py_int ms ;;
      Some (hours * 60 + minutes)%Z
  | _ => None
  end.

(** [days_a.intersection(days_b)] is non-empty. *)
Definition common_days (da db : list string) : bool :=
  existsb (fun d => existsb (String.eqb d) db) da.

Definition overlaps (section_a section_b : Section) : option bool :=
  if negb (common_days (days section_a) (days section_b)) then Some false
  else
    start_a <- time_to_minutes (sec_begin section_a) ;;
    end_a <- time_to_minutes (sec_end section_a) ;;
    start_b <- time_to_minutes (sec_begin section_b) ;;
    end_b <- time_to_minutes (sec_end section_b) ;;
    Some (negb ((end_a <=? start_b) || (end_b <=? start_a)))%Z.

(** ** QUBO builder *)

(** [itertools.combinations(l, 2)], in itertools' order. *)
Fixpoint combinations2 {A} (l : list A) : list (A * A) :=
  match l with
  | [] => []
  | x :: r => map (fun y => (x, y)) r ++ combinations2 r
  end.

(** [tuple(sorted((a, b)))] *)
Definition sort_pair (a b : string) : string * string :=
  if String.ltb b a then (b, a) else (a, b).

(** [f"{course['course']}|{section['section_id']}|{idx}"] *)
Definition var_name (course_code sid : string) (idx : nat) : string :=
  course_code ++ "|" ++ sid ++ "|" ++ py_str_nat idx.

(** No ['|'] in a string, so that [name.split("|")] gives back the parts
    joined into a variable name. *)
Fixpoint no_pipe (s : string) : bool :=
  match s with
  | EmptyString => true
  | String c r => negb (Ascii.eqb c "|"%char) && no_pipe r
  end.

Fixpoint section_vars (course_code : string) (ss : list Section) (idx : nat)
  : list string :=
  match ss with
  | [] => []
  | s :: r => var_name course_code (section_id s) idx
              :: section_vars course_code r (S idx)
  end.

(** [vars_for_course], and the variables in creation order. *)
Definition course_vars (c : Course) : list string :=
  section_vars (course c) (sections c) 0.

Definition index_to_var_of (courses : list Course) : list string :=
  List.concat (map course_vars courses).

Definition Linear := list (string * Q).
Definition Quadratic := list ((string * string) * Q).

(** [quadratic[key] = quadratic.get(key, 0.0) + x] *)
Definition quad_accum (q : Quadratic) (key : string * string) (x : Q) : Quadratic :=
  dict_set pair_eqb q key (dict_get_default pair_eqb q key 0 + x).

(** Variable creation: [index_to_var] and [linear.setdefault(var_name, 0.0)]. *)
Definition initial_linear (itv : list string) : Linear :=
  fold_left (fun lin v => dict_setdefault String.eqb lin v 0) itv [].

(** One iteration of the course-selection loop. *)
Definition course_step (course_penalty : Q) (st : Linear * Quadratic * Q) (c : Course)
  : option (Linear * Quadratic * Q) :=
  let '(lin, quad, offset) := st in
  let vs := course_vars c in
  lin' <- foldM (fun l v => dict_iadd String.eqb l v (-1 * course_penalty)) vs lin ;;
  let offset' := offset + course_penalty in
  let quad' := fold_left (fun q '(a, b) => quad_accum q (sort_pair a b) (2 * course_penalty))
                 (combinations2 vs) quad in
  Some (lin', quad', offset').

(** [all_sections] of the conflict loop. *)
Definition all_sections_of (courses : list Course) : list (string * Section) :=
  List.concat (map (fun c => combine (course_vars c) (sections c)) courses).

(** One iteration of the conflict loop. *)
Definition conflict_step (conflict_penalty : Q) (q : Quadratic)
  (p : (string * Section) * (string * Section)) : option Quadratic :=
  let '((var_a, sec_a), (var_b, sec_b)) := p in
  o <- overlaps sec_a sec_b ;;
  if o then Some (quad_accum q (sort_pair var_a var_b) conflict_penalty) else Some q.

(** The course-selection part of [build_qubo]: variable creation and
    the exactly-one constraints. *)
Definition course_terms (courses : list Course) (course_penalty : Q)
  : option (Linear * Quadratic * Q * list string) :=
  let itv := index_to_var_of courses in
  st <- foldM (course_step course_penalty) courses (initial_linear itv, [], 0) ;;
  let '(lin, quad, offset) := st in
  Some (lin, quad, offset, itv).

Definition build_qubo (courses : list Course) (course_penalty conflict_penalty : Q)
  : option (Linear * Quadratic * Q * list string) :=
  r <- course_terms courses course_penalty ;;
  let '(lin, quad, offset, itv) := r in
  quad' <- foldM (conflict_step conflict_penalty)
                 (combinations2 (all_sections_of courses)) quad ;;
  Some (lin, quad', offset, itv).

(** ** QUBO -> Ising *)

Definition ising_linear_step (st : Linear * Q) (vc : string * Q) : option (Linear * Q) :=
  let '(h, constant) := st in
  let '(var, coeff) := vc in
  let constant' := constant + coeff / 2 in
  h' <- dict_iadd String.eqb h var (- coeff / 2) ;;
  Some (h', constant').

Definition ising_quad_step (st : Linear * Quadratic * Q) (kc : (string * string) * Q)
  : option (Linear * Quadratic * Q) :=
  let '(h, J, constant) := st in
  let '((var_a, var_b), coeff) := kc in
  let constant' := constant + coeff / 4 in
  h1 <- dict_iadd String.eqb h var_a (- coeff / 4) ;;
  h2 <- dict_iadd String.eqb h1 var_b (- coeff / 4) ;;
  Some (h2, quad_accum J (sort_pair var_a var_b) (coeff / 4), constant').

Definition qubo_to_ising (linear : Linear) (quadratic : Quadratic) (offset : Q)
  : option (Linear * Quadratic * Q) :=
  let h0 := fold_left (fun h '(var, _) => dict_set String.eqb h var 0) linear [] in
  st <- foldM ising_linear_step linear (h0, offset) ;;
  let '(h, constant) := st in
  foldM ising_quad_step quadratic (h, [], constant).

(** [var_to_index = {var: idx for idx, var in index_to_var.items()}] *)
Fixpoint var_to_index_go (itv : list string) (idx : nat) (acc : list (string * nat))
  : list (string * nat) :=
  match itv with
  | [] => acc
  | v :: r => var_to_index_go r (S idx) (dict_set String.eqb acc v idx)
  end.

Definition var_to_index (itv : list string) : list (string * nat) :=
  var_to_index_go itv 0 [].

(** ** Energy evaluation *)

Fixpoint eval_linear (linear : Linear) (itv : list string) (bits : list Z) (idx : nat)
  (energy : Q) : option Q :=
  match bits with
  | [] => Some energy
  | bit :: r =>
      var <- nth_error itv idx ;;
      eval_linear linear itv r (S idx)
        (energy + dict_get_default String.eqb linear var 0 * inject_Z bit)
  end.

Definition eval_quad_step (vti : list (string * nat)) (bits : list Z) (energy : Q)
  (kc : (string * string) * Q) : option Q :=
  let '((var_a, var_b), coeff) := kc in
  idx_a <- dict_get String.eqb vti var_a ;;
  idx_b <- dict_get String.eqb vti var_b ;;
  ba <- nth_error bits idx_a ;;
  bb <- nth_error bits idx_b ;;
  Some (energy + coeff * inject_Z ba * inject_Z bb).

Definition evaluate_qubo (bits : list Z) (linear : Linear) (quadratic : Quadratic)
  (offset : Q) (itv : list string) : option Q :=
  let vti := var_to_index itv in
  e <- eval_linear linear itv bits 0 offset ;;
  foldM (eval_quad_step vti bits) quadratic e.

(** The bit of a variable: [bits[var_to_index[var]]]. *)
Definition bit_at (itv : list string) (bits : list Z) (var : string) : Q :=
  match dict_get String.eqb (var_to_index itv) var with
  | Some i => inject_Z (nth i bits 0%Z)
  | None => 0
  end.

(** The spin of a variable: the PauliZ eigenvalue of the wire
    [var_to_index[var]] on the basis state of the bitstring, i.e.
    bit 1 ↦ -1 and bit 0 ↦ +1. *)
Definition spin_of_bits (itv : list string) (bits : list Z) (var : string) : Q :=
  1 - 2 * bit_at itv bits var.

(** [sum(x * w(k) for k, x in d.items())] *)
Definition wsum {K} (w : K -> Q) (d : list (K * Q)) : Q :=
  fold_right Qplus 0 (map (fun kx => snd kx * w (fst kx)) d).

Definition pair_weight (w : string -> Q) (k : string * string) : Q :=
  w (fst k) * w (snd k).

(** Energy of the Ising model [(h, J, constant)] at a spin configuration:
    the sum of the terms that [ising_to_pennylane_hamiltonian] emits,
    [constant + sum h[v] z_v + sum J[(a, b)] z_a z_b]. *)
Definition ising_energy (spin : string -> Q) (m : Linear * Quadratic * Q) : Q :=
  let '(h, J, constant) := m in
  constant + wsum spin h + wsum (pair_weight spin) J.

(** ** Decoding *)

Definition interpret_step (itv : list string) (chosen : list (string * string))
  (ib : nat * Z) : option (list (string * string)) :=
  let '(idx, bit) := ib in
  if (bit =? 0)%Z then Some chosen
  else
    name <- nth_error itv idx ;;
    match py_split "|"%char name with
    | [course_code; sid; _] => Some (dict_set String.eqb chosen course_code sid)
    | _ => None
    end.

Definition interpret_selection (bits : list Z) (itv : list string)
  : option (list (string * string)) :=
  foldM (interpret_step itv) (combine (seq 0 (List.length bits)) bits) [].

(** * Classical ILP baseline ([scheduling-classical.py]) *)

(** ** [calculate_duration_slots] *)

(** A CSV cell: missing ([pd.isna]) or a string. *)
Inductive Cell := NA | Str (s : string).

Definition is_upper_or_lower (c : ascii) (u : ascii) : bool :=
  Ascii.eqb c u || (nat_of_ascii c =? nat_of_ascii u + 32)%nat.

(** [%p] in the C locale, matched case-insensitively: [AM] is [Some false],
    [PM] is [Some true]. *)
Definition parse_ampm (s : string) : option bool :=
  match s with
  | String a (String m EmptyString) =>
      if is_upper_or_lower m "M"%char then
        if is_upper_or_lower a "A"%char then Some false
        else if is_upper_or_lower a "P"%char then Some true
        else None
      else None
  | _ => None
  end.

Definition dval (c : ascii) : nat := nat_of_ascii c - 48.

(** [%I]: [1[0-2]|0[1-9]|[1-9]| [1-9]], followed by the [:] of the format. *)
Definition parse_I_colon (s : string) : option (nat * string) :=
  match s with
  | String c1 (String c2 (String c3 r)) =>
      if Ascii.eqb c2 ":"%char then
        if is_digit c1 && negb (dval c1 =? 0)%nat then Some (dval c1, String c3 r) else None
      else if Ascii.eqb c3 ":"%char then
        if Ascii.eqb c1 "1"%char && is_digit c2 && (dval c2 <=? 2)%nat then Some ((10 + dval c2)%nat, r)
        else if Ascii.eqb c1 "0"%char && is_digit c2 && negb (dval c2 =? 0)%nat then Some (dval c2, r)
        else if Ascii.eqb c1 " "%char && is_digit c2 && negb (dval c2 =? 0)%nat then Some (dval c2, r)
        else None
      else None
  | _ => None
  end.

(** [%M]: [[0-5]\d|\d], followed by [%p] and the end of the string. *)
Definition parse_M_p (s : string) : option (nat * bool) :=
  match s with
  | String c1 (String c2 r) =>
      if is_digit c1 && is_digit c2 then
        if (dval c1 <=? 5)%nat then
          option_map (fun pm => ((10 * dval c1 + dval c2)%nat, pm)) (parse_ampm r)
        else None
      else if is_digit c1 then
        option_map (fun pm => (dval c1, pm)) (parse_ampm (String c2 r))
      else None
  | _ => None
  end.

(** [datetime.strptime(s, "%I:%M%p")], as minutes after midnight. *)
Definition strptime_IMp (s : string) : option Z :=
  match parse_I_colon s with
  | Some (i, rest) =>
      match parse_M_p rest with
      | Some (m, pm) =>
          let hour := if pm then (if (i =? 12)%nat then 12 else i + 12)%nat
                      else (if (i =? 12)%nat then 0%nat else i) in
          Some (Z.of_nat (hour * 60 + m)%nat)
      | None => None
      end
  | None => None
  end.

(** [math.ceil(m / 60)] for an integral number of minutes [m]. *)
Definition ceil_div60 (m : Z) : Z := - ((- m) / 60).

Definition calculate_duration_slots (begin_str end_str : Cell) : Z :=
  match begin_str, end_str with
  | NA, _ | _, NA => 1
  | Str b, Str e =>
      if String.eqb b "TBA" then 1
      else match strptime_IMp b, strptime_IMp e with
           | Some t_start, Some t_end =>
               let diff_minutes := (t_end - t_start)%Z in
               let slots := ceil_div60 diff_minutes in
               Z.max 1 slots
           | _, _ => 1   (* [except Exception: return 1] *)
           end
  end.

(** ** Variable generation of [build_and_run_model] *)

Section Ilp.
(** The dictionaries built by [load_and_map_features], defined on every
    meeting and room passed in. *)
Variable meeting_duration : string -> Z.
Variable meeting_enrollment : string -> Z.
Variable room_capacity : string -> Z.
Variable timeslots : list string.

(** [[t for t in timeslots if t.startswith(day)]] *)
Definition slots_of_day (day : string) : list string :=
  filter (fun t => String.prefix day t) timeslots.

(** [for i in range(n): t_start = day_slots[i]] (IndexError is [None]). *)
Definition start_slots (day_slots : list string) (n : Z) : option (list string) :=
  foldM (fun acc i => t <- nth_error day_slots i ;; Some (acc ++ [t])%list)
        (seq 0 (Z.to_nat n)) [].

Definition day_vars {W} (meeting room : string) (w : W) (day : string)
  : option (list (string * string * string * W)) :=
  let day_slots := slots_of_day day in
  let valid_start_indices := (Z.of_nat (List.length day_slots) - meeting_duration meeting + 1)%Z in
  ts <- start_slots day_slots valid_start_indices ;;
  Some (map (fun t => (meeting, t, room, w)) ts).

Fixpoint concatM {A B} (f : A -> option (list B)) (l : list A) : option (list B) :=
  match l with
  | [] => Some []
  | a :: r => xs <- f a ;; ys <- concatM f r ;; Some (xs ++ ys)%list
  end.

Definition classical_days : list string := ["Mon"; "Tue"; "Wed"; "Thu"; "Fri"].

(** [scheduling-classical.py]: the variables [x[meeting, t_start, room]]
    in creation order (the weight component is [tt]). *)
Definition classical_vars (meetings rooms : list string)
  : option (list (string * string * string * unit)) :=
  concatM (fun meeting =>
    concatM (fun room =>
      if (room_capacity room <? meeting_enrollment meeting)%Z then Some []
      else concatM (day_vars meeting room tt) classical_days) rooms) meetings.

(** [sorted(rooms, key=lambda r: room_capacity[r])], a stable sort. *)
Fixpoint insert_by_capacity (r : string) (l : list string) : list string :=
  match l with
  | [] => [r]
  | r' :: l' => if (room_capacity r <? room_capacity r')%Z then r :: l
                else r' :: insert_by_capacity r l'
  end.

Definition sort_by_capacity (rooms : list string) : list string :=
  fold_left (fun acc r => insert_by_capacity r acc) rooms [].

Definition mini_days : list string := ["Mon"].

(** [scheduling-classical-mini.py]: the variables with the objective
    weight [wasted_space_cost + activation_cost] of each. *)
Definition mini_vars (meetings rooms : list string)
  : option (list (string * string * string * Z)) :=
  let overflow_start_index := Nat.div (List.length rooms) 2 in
  let sorted_rooms := sort_by_capacity rooms in
  concatM (fun meeting =>
    let enrollment := meeting_enrollment meeting in
    concatM (fun ir =>
      let '(r_idx, room) := ir in
      let capacity := room_capacity room in
      if (capacity <? enrollment)%Z then Some []
      else
        let wasted_space_cost := (capacity - enrollment)%Z in
        let activation_cost := if (overflow_start_index <=? r_idx)%nat then 1000%Z else 0%Z in
        concatM (day_vars meeting room (wasted_space_cost + activation_cost)%Z) mini_days)
      (combine (seq 0 (List.length sorted_rooms)) sorted_rooms)) meetings.
End Ilp.

(** ** Invariants of coefficient maps *)

(** Every pair key is stored as a sorted pair. *)
Definition canonical_keys (q : Quadratic) : Prop :=
  Forall (fun kv => String.leb (fst (fst kv)) (snd (fst kv)) = true) q.

(** Both variables of every pair key are indexed variables. *)
Definition keys_in (itv : list string) (q : Quadratic) : Prop :=
  Forall (fun kx => In (fst (fst kx)) itv /\ In (snd (fst kx)) itv) q.

(** Whether a string contains the separator ["|"] of variable names. *)
Fixpoint has_pipe (s : string) : bool :=
  match s with
  | EmptyString => false
  | String c r => Ascii.eqb c "|" || has_pipe r
  end.

(** The number of selected variables of a bitstring. *)
Definition count_selected (bits : list Z) : nat := count_occ Z.eq_dec bits 1%Z.

(** The sum of a list of rationals. *)
Definition qsum (l : list Q) : Q := fold_right Qplus 0 l.

(** Whether both sections of a pair of the conflict loop have meeting days. *)
Definition pair_has_days (p : (string * Section) * (string * Section)) : bool :=
  match days (snd (fst p)), days (snd (snd p)) with
  | [], _ | _, [] => false
  | _, _ => true
  end.

(** The selection read off a bitstring, following the specification: the
    variable at dense index [i] is selected and its name has course code
    [cc] and section id [sid]. *)
Definition selected_at (bits : list Z) (itv : list string) (i : nat) (cc sid : string) : Prop :=
  nth_error bits i = Some 1%Z /\
  exists name rest, nth_error itv i = Some name /\ py_split "|"%char name = [cc; sid; rest].

(** [sid] is the section of the selected variable of course [cc] with the
    largest dense index. *)
Definition last_selected (bits : list Z) (itv : list string) (cc sid : string) : Prop :=
  exists i, selected_at bits itv i cc sid /\
    forall j sid', (i < j)%nat -> selected_at bits itv j cc sid' -> False.

(** The sorted keys of a list of pairs. *)
Definition pair_keys (l : list (string * string)) : list (string * string) :=
  map (fun '(a, b) => sort_pair a b) l.

(** ** Time slots of the ILP models *)

(** [f"{h:02d}"] for a non-negative [h]. *)
Definition fmt02 (n : nat) : string :=
  if (n <? 10)%nat then "0" ++ py_str_nat n else py_str_nat n.

(** [build_time_slots]: [hours = [f"{h:02d}:00" for h in time_hours]] and
    [[f"{day}_{hour}" for day in days for hour in hours]]; the list of days is
    [classical_days] in [scheduling-classical.py] and [mini_days] in
    [scheduling-classical-mini.py]. *)
Definition build_time_slots (days : list string) (time_hours : list nat) : list string :=
  let hours := map (fun h => fmt02 h ++ ":00") time_hours in
  List.concat (map (fun day => map (fun hour => day ++ "_" ++ hour) hours) days).

(** [TIME_SLOT_HOURS = range(8, 22)] and [range(8, 11)]. *)
Definition classical_time_slot_hours : list nat := seq 8 14.
Definition mini_time_slot_hours : list nat := seq 8 3.

(** ** [scrapers/post_process.py]: 24-hour times *)

(** [.strftime("%H:%M")] of a time of day given in minutes after midnight. *)
Definition strftime_HM (minutes : Z) : string :=
  fmt02 (Z.to_nat (minutes / 60)) ++ ":" ++ fmt02 (Z.to_nat (minutes mod 60)).

(** [to_24h]: [None] stays [None]; otherwise
    [datetime.strptime(t, "%I:%M%p").strftime("%H:%M")]. The outer [option]
    is the [ValueError] of [strptime]. *)
Definition to_24h (t : option string) : option (option string) :=
  match t with
  | None => Some None
  | Some s => m <- strptime_IMp s ;; Some (Some (strftime_HM m))
  end.

Definition digit_between (lo hi : ascii) (c : ascii) : bool :=
  is_digit c && (nat_of_ascii lo <=? nat_of_ascii c)%nat && (nat_of_ascii c <=? nat_of_ascii hi)%nat.

(** [%H]: [2[0-3]|[0-1]\d|\d], followed by the [:] of the format. *)
Definition parse_H_colon (s : string) : option (nat * string) :=
  match s with
  | String c1 (String c2 (String c3 r)) =>
      if Ascii.eqb c1 "2"%char && digit_between "0" "3" c2 && Ascii.eqb c3 ":"%char then
        Some ((20 + dval c2)%nat, r)
      else if digit_between "0" "1" c1 && is_digit c2 && Ascii.eqb c3 ":"%char then
        Some ((10 * dval c1 + dval c2)%nat, r)
      else if is_digit c1 && Ascii.eqb c2 ":"%char then Some (dval c1, String c3 r)
      else None
  | _ => None
  end.

(** [%M]: [[0-5]\d|\d], then the end of the string. *)
Definition parse_M_end (s : string) : option nat :=
  match s with
  | String c1 EmptyString => if is_digit c1 then Some (dval c1) else None
  | String c1 (String c2 EmptyString) =>
      if digit_between "0" "5" c1 && is_digit c2 then Some (10 * dval c1 + dval c2)%nat
      else None
  | _ => None
  end.

(** [datetime.strptime(s, "%H:%M")], as minutes after midnight. *)
Definition strptime_HM (s : string) : option Z :=
  match parse_H_colon s with
  | Some (h, rest) =>
      match parse_M_end rest with
      | Some m => Some (Z.of_nat (h * 60 + m)%nat)
      | None => None
      end
  | None => None
  end.

(** [duration_minutes]: [int((e - b).total_seconds() // 60)]. *)
Definition duration_minutes (b e : option string) : option (option Z) :=
  match b, e with
  | Some bs, Some es =>
      tb <- strptime_HM bs ;;
      te <- strptime_HM es ;;
      Some (Some (((te - tb) * 60) / 60)%Z)
  | _, _ => Some None
  end.

(** ** [get_active_vars_at_time] of [build_and_run_model] *)

(** [l.index(x)]; [ValueError] is [None]. *)
Fixpoint list_index_from (x : string) (l : list string) (i : nat) : option nat :=
  match l with
  | [] => None
  | y :: r => if String.eqb y x then Some i else list_index_from x r (S i)
  end.

Definition list_index (x : string) (l : list string) : option nat := list_index_from x l 0.

(** [range(a, b)] *)
Definition py_range (a b : Z) : list Z :=
  map (fun k => (a + Z.of_nat k)%Z) (seq 0 (Z.to_nat (b - a))).

Definition var_key_eqb (p q : string * string * string) : bool :=
  let '(a, b, c) := p in
  let '(a', b', c') := q in
  String.eqb a a' && String.eqb b b' && String.eqb c c'.

Section Active.
(** [meeting_duration], [timeslots], [days], [meetings] and the keys
    [(meeting, t_start, room)] of the variable dictionary [x] of the
    enclosing [build_and_run_model]; a variable [x[k]] is represented by its
    key [k]. *)
Variable meeting_duration : string -> Z.
Variable timeslots : list string.
Variable days : list string.
Variable meetings : list string.
Variable x_keys : list (string * string * string).

(** [slots_per_day[target_day]] is a [KeyError] ([None]) when [target_day]
    is not one of [days]; [meeting_subset if meeting_subset else meetings]
    falls back to [meetings] on an empty subset. *)
Definition get_active_vars_at_time (target_t target_r : string) (meeting_subset : list string)
  : option (list (string * string * string)) :=
  let target_day := hd EmptyString (py_split "_"%char target_t) in
  if negb (existsb (String.eqb target_day) days) then None
  else
    let day_slots := slots_of_day timeslots target_day in
    match list_index target_t day_slots with
    | None => Some []
    | Some ti =>
        let t_index := Z.of_nat ti in
        let candidate_meetings :=
          match meeting_subset with [] => meetings | _ => meeting_subset end in
        concatM (fun meet =>
          let dur := meeting_duration meet in
          let min_start_index := (t_index - dur + 1)%Z in
          let max_start_index := t_index in
          concatM (fun idx =>
            start_t <- nth_error day_slots (Z.to_nat idx) ;;
            Some (if existsb (var_key_eqb (meet, start_t, target_r)) x_keys
                  then [(meet, start_t, target_r)] else []))
            (py_range (Z.max 0 min_start_index) (max_start_index + 1)))
          candidate_meetings
    end.
End Active.

(** ** [best_sampled_solution] *)

Definition bits_eqb (a b : list Z) : bool :=
  if list_eq_dec Z.eq_dec a b then true else false.

(** One iteration of the loop that fills [energy_by_sample]; a sample is
    given as its list of integer bits, so [tuple(int(b) for b in bitstring)]
    is the sample itself. *)
Definition energy_by_sample_step (linear : Linear) (quadratic : Quadratic) (offset : Q)
  (itv : list string) (energy_by_sample : list (list Z * Q)) (bitstring : list Z)
  : option (list (list Z * Q)) :=
  let key := bitstring in
  match dict_get bits_eqb energy_by_sample key with
  | Some _ => Some energy_by_sample
  | None =>
      e <- evaluate_qubo key linear quadratic offset itv ;;
      Some (dict_set bits_eqb energy_by_sample key e)
  end.

(** [min(items, key=key)]: the first item whose key is smallest; a
    [ValueError] ([None]) on no items. *)
Definition py_min_by {A} (key : A -> Q) (l : list A) : option A :=
  match l with
  | [] => None
  | x :: r => Some (fold_left (fun best y => if Qlt_le_dec (key y) (key best) then y else best) r x)
  end.

Definition best_sampled_solution (samples : list (list Z)) (linear : Linear)
  (quadratic : Quadratic) (offset : Q) (itv : list string) : option (list Z * Q) :=
  energy_by_sample <- foldM (energy_by_sample_step linear quadratic offset itv) samples [] ;;
  best <- py_min_by snd energy_by_sample ;;
  let '(best_bits, best_energy) := best in
  Some (best_bits, best_energy).

(** ** [ising_to_pennylane_hamiltonian] *)

(** The observables the Hamiltonian is made of: [qml.PauliZ(i)],
    [qml.PauliZ(i) @ qml.PauliZ(j)] and [qml.Identity(0)]. *)
Inductive PauliTerm :=
| PauliZ (wire : nat)
| PauliZZ (wire_a wire_b : nat)
| Identity (wire : nat).

(** [1e-9] *)
Definition ham_tol : Q := 1 # 1000000000.

Definition ham_linear_step (vti : list (string * nat)) (st : list Q * list PauliTerm)
  (vc : string * Q) : option (list Q * list PauliTerm) :=
  let '(coeffs, ops) := st in
  let '(var, coeff) := vc in
  if Qlt_le_dec ham_tol (Qabs coeff) then
    i <- dict_get String.eqb vti var ;;
    Some ((coeffs ++ [coeff])%list, (ops ++ [PauliZ i])%list)
  else Some (coeffs, ops).

Definition ham_quad_step (vti : list (string * nat)) (st : list Q * list PauliTerm)
  (kc : (string * string) * Q) : option (list Q * list PauliTerm) :=
  let '(coeffs, ops) := st in
  let '((var_a, var_b), coeff) := kc in
  if Qlt_le_dec ham_tol (Qabs coeff) then
    ia <- dict_get String.eqb vti var_a ;;
    ib <- dict_get String.eqb vti var_b ;;
    Some ((coeffs ++ [coeff])%list, (ops ++ [PauliZZ ia ib])%list)
  else Some (coeffs, ops).

(** [qml.Hamiltonian(coeffs, ops)] is returned as its two lists. *)
Definition ising_to_pennylane_hamiltonian (h : Linear) (J : Quadratic) (constant : Q)
  (itv : list string) : option (list Q * list PauliTerm) :=
  let vti := var_to_index itv in
  st1 <- foldM (ham_linear_step vti) h ([], []) ;;
  st2 <- foldM (ham_quad_step vti) J st1 ;;
  let '(coeffs, ops) := st2 in
  if Qlt_le_dec ham_tol (Qabs constant) then
    Some ((coeffs ++ [constant])%list, (ops ++ [Identity 0])%list)
  else Some (coeffs, ops).

(** The value of an observable on the computational basis state of a
    bitstring: PauliZ on a wire whose bit is [b] has eigenvalue [1 - 2 b],
    the identity has eigenvalue 1. *)
Definition pauli_eigenvalue (bits : list Z) (op : PauliTerm) : Q :=
  match op with
  | PauliZ w => 1 - 2 * inject_Z (nth w bits 0%Z)
  | PauliZZ a b => (1 - 2 * inject_Z (nth a bits 0%Z)) * (1 - 2 * inject_Z (nth b bits 0%Z))
  | Identity _ => 1
  end.

(** The energy of a Hamiltonian [(coeffs, ops)] at a basis state. *)
Definition hamiltonian_basis_energy (bits : list Z) (H : list Q * list PauliTerm) : Q :=
  qsum (map (fun co => fst co * pauli_eigenvalue bits (snd co)) (combine (fst H) (snd H))).

(** ** Concrete catalogues *)

Definition sec_lab_a : Section := mkSection "18-100-A" ["M"; "W"] "10:00" "11:20" true.
Definition sec_lab_b : Section := mkSection "18-100-B" ["T"; "R"] "10:00" "11:20" true.
Definition sec_rec_a : Section := mkSection "18-200-A" ["W"] "11:00" "12:00" true.

Definition demo_catalogue : list Course :=
  [mkCourse "18-100" [sec_lab_a; sec_lab_b]; mkCourse "18-200" [sec_rec_a]].

(** A course with two sections on disjoint days. *)
Definition lab_course : Course := mkCourse "18-100" [sec_lab_a; sec_lab_b].

(** A course with a single section. *)
Definition single_catalogue : list Course := [mkCourse "18-200" [sec_rec_a]].

(** An independent-study section, without meeting days. *)
Definition sec_indep : Section := mkSection "18-980-A" [] "" "" false.

(** A section whose [requires_time_slot] flag is false although it has a
    meeting day and times, and a section overlapping it. *)
Definition sec_flagless : Section := mkSection "18-990-A" ["M"] "10:00" "11:00" false.
Definition sec_monday : Section := mkSection "18-991-A" ["M"] "10:30" "11:30" true.

Definition flag_catalogue : list Course :=
  [mkCourse "18-990" [sec_flagless]; mkCourse "18-991" [sec_monday]].

(** A catalogue listing the same course twice. *)
Definition duplicated_catalogue : list Course :=
  [mkCourse "18-980" [sec_indep]; mkCourse "18-980" [sec_indep]].

(** * Generic lemmas: the option monad, folds and dictionaries *)

Lemma obind_Some {A B} (m : option A) (f : A -> option B) (b : B) :
  obind m f = Some b -> exists a, m = Some a /\ f a = Some b.
Proof. destruct m as [a|]; simpl; [eauto | discriminate]. Qed.

Ltac inv_bind H :=
  let a := fresh "r" in let Ha := fresh "Hr" in
  apply obind_Some in H; destruct H as [a [Ha H]].

Lemma foldM_invariant {A B} (I : A -> Prop) (f : A -> B -> option A) :
  forall l a a',
  (forall x b y, In b l -> I x -> f x b = Some y -> I y) ->
  I a -> foldM f l a = Some a' -> I a'.
Proof.
  induction l as [|b l IH]; simpl; intros a a' Hstep Ha Hf.
  - injection Hf as <-. exact Ha.
  - inv_bind Hf. eapply IH; [| eapply Hstep; eauto | exact Hf].
    intros x b' y Hin. apply Hstep. now right.
Qed.

Lemma fold_left_invariant {A B} (I : A -> Prop) (f : A -> B -> A) :
  forall l a, (forall x b, In b l -> I x -> I (f x b)) -> I a -> I (fold_left f l a).
Proof.
  induction l as [|b l IH]; simpl; intros a Hstep Ha; [exact Ha|].
  apply IH; [intros; apply Hstep; auto | apply Hstep; auto].
Qed.

Section DictLemmas.
Context {K V : Type} (keqb : K -> K -> bool).

Lemma dict_set_keys (P : K -> Prop) (d : list (K * V)) k v :
  Forall (fun kv => P (fst kv)) d -> P k ->
  Forall (fun kv => P (fst kv)) (dict_set keqb d k v).
Proof.
  induction d as [|[k' v'] r IH]; simpl; intros Hd Hk.
  - constructor; [exact Hk | constructor].
  - inversion Hd; subst. destruct (keqb k k').
    + constructor; assumption.
    + constructor; [assumption | apply IH; assumption].
Qed.

Hypothesis keqb_refl : forall k, keqb k k = true.

Lemma dict_get_set_same (d : list (K * V)) k v :
  dict_get keqb (dict_set keqb d k v) k = Some v.
Proof.
  induction d as [|[k' v'] r IH]; simpl.
  - now rewrite keqb_refl.
  - destruct (keqb k k') eqn:E; simpl; rewrite E; [reflexivity | exact IH].
Qed.
End DictLemmas.

Lemma pair_eqb_refl p : pair_eqb p p = true.
Proof. destruct p; unfold pair_eqb; simpl; now rewrite !String.eqb_refl. Qed.

(** * Canonical pair keys *)


Lemma sort_pair_canonical a b :
  String.leb (fst (sort_pair a b)) (snd (sort_pair a b)) = true.
Proof.
  unfold sort_pair, String.ltb, String.leb.
  destruct (String.compare b a) eqn:E; simpl.
  - rewrite String.compare_antisym, E. reflexivity.
  - rewrite E. reflexivity.
  - rewrite String.compare_antisym, E. reflexivity.
Qed.

Lemma quad_accum_canonical q key x :
  canonical_keys q -> String.leb (fst key) (snd key) = true ->
  canonical_keys (quad_accum q key x).
Proof.
  intros Hq Hk. unfold quad_accum.
  apply (dict_set_keys pair_eqb (fun k => String.leb (fst k) (snd k) = true)); assumption.
Qed.

Lemma canonical_no_reversed q :
  canonical_keys q ->
  forall a b x y, In ((a, b), x) q -> In ((b, a), y) q -> a = b.
Proof.
  intros Hq a b x y H1 H2. unfold canonical_keys in Hq. rewrite Forall_forall in Hq.
  apply Hq in H1. apply Hq in H2. simpl in *. now apply String.leb_antisym.
Qed.

Lemma course_step_canonical cp st c st' :
  canonical_keys (snd (fst st)) -> course_step cp st c = Some st' ->
  canonical_keys (snd (fst st')).
Proof.
  destruct st as [[lin quad] off]. unfold course_step. intros Hq H.
  inv_bind H. injection H as <-. simpl in *.
  apply fold_left_invariant; [|exact Hq].
  intros q [a b] _ Hq'. apply quad_accum_canonical; [exact Hq' | apply sort_pair_canonical].
Qed.

Lemma conflict_step_canonical kp q p q' :
  canonical_keys q -> conflict_step kp q p = Some q' -> canonical_keys q'.
Proof.
  destruct p as [[va sa] [vb sb]]. unfold conflict_step. intros Hq H.
  inv_bind H. destruct r; injection H as <-;
    [apply quad_accum_canonical; [exact Hq | apply sort_pair_canonical] | exact Hq].
Qed.

Lemma build_qubo_canonical courses cp kp lin quad off itv :
  build_qubo courses cp kp = Some (lin, quad, off, itv) -> canonical_keys quad.
Proof.
  unfold build_qubo, course_terms. intros H.
  inv_bind H. inv_bind Hr. destruct r0 as [[lin0 quad0] off0].
  injection Hr as <-. inv_bind H. injection H as <- <- <- <-.
  eapply (foldM_invariant canonical_keys); [| | exact Hr].
  - intros. eapply conflict_step_canonical; eauto.
  - change (canonical_keys (snd (fst (lin0, quad0, off0)))).
    eapply (foldM_invariant (fun st => canonical_keys (snd (fst st)))); [| | exact Hr0].
    + intros. eapply course_step_canonical; eauto.
    + constructor.
Qed.

Lemma qubo_to_ising_canonical lin quad off h J c :
  qubo_to_ising lin quad off = Some (h, J, c) -> canonical_keys J.
Proof.
  unfold qubo_to_ising. intros H. inv_bind H. destruct r as [h1 c1].
  change (canonical_keys (snd (fst (h, J, c)))).
  eapply (foldM_invariant (fun st => canonical_keys (snd (fst st)))); [| | exact H].
  - intros [[hx Jx] cx] [[a b] co] y _ HJ Hs. unfold ising_quad_step in Hs.
    inv_bind Hs. inv_bind Hs. injection Hs as <-. simpl in *.
    apply quad_accum_canonical; [exact HJ | apply sort_pair_canonical].
  - constructor.
Qed.

Lemma quad_accum_sum q key x :
  dict_get_default pair_eqb (quad_accum q key x) key 0
  = dict_get_default pair_eqb q key 0 + x.
Proof.
  unfold quad_accum. unfold dict_get_default at 1.
  rewrite dict_get_set_same by apply pair_eqb_refl. reflexivity.
Qed.

(** * Energy bookkeeping: weighted sums over dictionaries *)

Lemma wsum_nil {K} (w : K -> Q) : wsum w [] = 0.
Proof. reflexivity. Qed.

Lemma wsum_cons {K} (w : K -> Q) k x d : wsum w ((k, x) :: d) = x * w k + wsum w d.
Proof. reflexivity. Qed.

Lemma wsum_app {K} (w : K -> Q) d1 d2 : wsum w (d1 ++ d2) == wsum w d1 + wsum w d2.
Proof.
  induction d1 as [|[k x] d IH].
  - rewrite app_nil_l, wsum_nil. ring.
  - rewrite <- app_comm_cons, !wsum_cons, IH. ring.
Qed.

Section WSumSet.
Context {K : Type} (keqb : K -> K -> bool).
Hypothesis keqb_true : forall k k', keqb k k' = true -> k = k'.

Lemma wsum_set (w : K -> Q) d k v :
  wsum w (dict_set keqb d k v) == wsum w d - dict_get_default keqb d k 0 * w k + v * w k.
Proof.
  unfold dict_get_default.
  induction d as [|[k' v'] r IH]; simpl.
  - rewrite wsum_cons, wsum_nil. ring.
  - destruct (keqb k k') eqn:E.
    + pose proof (keqb_true _ _ E) as Heq. subst k'.
      rewrite !wsum_cons. ring.
    + rewrite !wsum_cons, IH. ring.
Qed.

Lemma wsum_iadd (w : K -> Q) d k x d' :
  dict_iadd keqb d k x = Some d' -> wsum w d' == wsum w d + x * w k.
Proof.
  unfold dict_iadd. destruct (dict_get keqb d k) as [v|] eqn:G; [|discriminate].
  intros H; injection H as <-. rewrite wsum_set. unfold dict_get_default. rewrite G. ring.
Qed.

Lemma dict_get_set_present (d : list (K * Q)) k v k' :
  dict_get keqb d k' <> None -> dict_get keqb (dict_set keqb d k v) k' <> None.
Proof.
  induction d as [|[k0 v0] r IH]; simpl; [congruence|].
  destruct (keqb k k0); simpl; destruct (keqb k' k0); auto; congruence.
Qed.

Lemma dict_iadd_present (d : list (K * Q)) k x d' k' :
  dict_iadd keqb d k x = Some d' -> dict_get keqb d k' <> None -> dict_get keqb d' k' <> None.
Proof.
  unfold dict_iadd. destruct (dict_get keqb d k); [|discriminate].
  intros H; injection H as <-. apply dict_get_set_present.
Qed.

Lemma dict_iadd_defined (d : list (K * Q)) k x :
  dict_get keqb d k <> None -> exists d', dict_iadd keqb d k x = Some d'.
Proof.
  unfold dict_iadd. destruct (dict_get keqb d k); [eauto | congruence].
Qed.

Lemma dict_set_forall (P : K * Q -> Prop) (d : list (K * Q)) k v :
  Forall P d -> (forall k', P (k', v)) -> Forall P (dict_set keqb d k v).
Proof.
  induction d as [|[k' v'] r IH]; simpl; intros Hd Hv.
  - repeat constructor. apply Hv.
  - inversion Hd; subst. destruct (keqb k k'); constructor; auto.
Qed.
End WSumSet.

Lemma pair_eqb_true p q : pair_eqb p q = true -> p = q.
Proof.
  destruct p as [a b], q as [c d]. unfold pair_eqb; simpl.
  intros H. apply andb_true_iff in H as [H1 H2].
  apply String.eqb_eq in H1, H2. now subst.
Qed.

Lemma string_eqb_true k k' : String.eqb k k' = true -> k = k'.
Proof. apply String.eqb_eq. Qed.

Lemma pair_weight_sort_pair w a b : pair_weight w (sort_pair a b) == pair_weight w (a, b).
Proof. unfold sort_pair, pair_weight. destruct (String.ltb b a); simpl; ring. Qed.

Lemma wsum_quad_accum w q key x :
  wsum (pair_weight w) (quad_accum q key x)
  == wsum (pair_weight w) q + x * pair_weight w key.
Proof.
  unfold quad_accum. rewrite (wsum_set pair_eqb pair_eqb_true). ring.
Qed.

(** * QUBO -> Ising preserves the energy *)

Section IsingEnergy.
(** Any value assignment [bit]; the spin is [1 - 2 * bit]. *)
Variable bit : string -> Q.
Let spin (v : string) : Q := 1 - 2 * bit v.

Lemma ising_linear_loop : forall lin h c,
  (forall v x, In (v, x) lin -> dict_get String.eqb h v <> None) ->
  exists h' c', foldM ising_linear_step lin (h, c) = Some (h', c') /\
    (forall v, dict_get String.eqb h v <> None -> dict_get String.eqb h' v <> None) /\
    c' + wsum spin h' == c + wsum spin h + wsum bit lin.
Proof.
  induction lin as [|[v x] r IH]; simpl; intros h c Hpres.
  - exists h, c. split; [reflexivity | split; [auto | rewrite wsum_nil; ring]].
  - destruct (dict_iadd_defined String.eqb h v (- x / 2)) as [h1 H1];
      [eapply Hpres; left; reflexivity|].
    rewrite H1. simpl.
    destruct (IH h1 (c + x / 2)) as [h' [c' [Hf [Hp He]]]].
    { intros v' x' Hin. eapply dict_iadd_present; [exact H1 | eapply Hpres; right; exact Hin]. }
    exists h', c'. split; [exact Hf|]. split.
    + intros v' Hv'. apply Hp. eapply dict_iadd_present; eauto.
    + rewrite He, (wsum_iadd String.eqb string_eqb_true spin h v (- x / 2) h1 H1).
      rewrite wsum_cons. unfold spin. field.
Qed.

Lemma ising_quad_loop : forall quad h J c,
  (forall a b x, In ((a, b), x) quad ->
     dict_get String.eqb h a <> None /\ dict_get String.eqb h b <> None) ->
  exists h' J' c', foldM ising_quad_step quad (h, J, c) = Some (h', J', c') /\
    c' + wsum spin h' + wsum (pair_weight spin) J'
    == c + wsum spin h + wsum (pair_weight spin) J + wsum (pair_weight bit) quad.
Proof.
  induction quad as [|[[a b] x] r IH]; simpl; intros h J c Hpres.
  - exists h, J, c. split; [reflexivity | rewrite wsum_nil; ring].
  - destruct (Hpres a b x (or_introl eq_refl)) as [Ha Hb].
    destruct (dict_iadd_defined String.eqb h a (- x / 4) Ha) as [h1 H1].
    assert (Hb1 : dict_get String.eqb h1 b <> None) by (eapply dict_iadd_present; eauto).
    destruct (dict_iadd_defined String.eqb h1 b (- x / 4) Hb1) as [h2 H2].
    rewrite H1. simpl. rewrite H2. simpl.
    destruct (IH h2 (quad_accum J (sort_pair a b) (x / 4)) (c + x / 4))
      as [h' [J' [c' [Hf He]]]].
    { intros a' b' x' Hin. destruct (Hpres a' b' x' (or_intror Hin)) as [Ha' Hb'].
      split; repeat (eapply dict_iadd_present; [eassumption|]); assumption. }
    exists h', J', c'. split; [exact Hf|].
    rewrite He, (wsum_iadd String.eqb string_eqb_true spin h1 b _ h2 H2),
      (wsum_iadd String.eqb string_eqb_true spin h a _ h1 H1),
      wsum_quad_accum, pair_weight_sort_pair, wsum_cons.
    unfold pair_weight, spin; simpl. field.
Qed.
End IsingEnergy.

Lemma h0_zero (lin : Linear) :
  Forall (fun kx => snd kx = 0)
    (fold_left (fun h '(var, _) => dict_set String.eqb h var 0) lin []).
Proof.
  apply fold_left_invariant; [|constructor].
  intros h [v x] _ Hh. apply dict_set_forall; [exact Hh | reflexivity].
Qed.

Lemma wsum_zero {K} (w : K -> Q) d : Forall (fun kx => snd kx = 0) d -> wsum w d == 0.
Proof.
  induction d as [|[k x] r IH]; intros H; [reflexivity|].
  inversion H as [|? ? Hx Hr]; subst. cbn [snd] in Hx. subst x.
  rewrite wsum_cons, IH by assumption. ring.
Qed.

Lemma h0_present (lin : Linear) : forall acc v,
  In v (map fst lin) \/ dict_get String.eqb acc v <> None ->
  dict_get String.eqb
    (fold_left (fun h '(var, _) => dict_set String.eqb h var 0) lin acc) v <> None.
Proof.
  induction lin as [|[k x] r IH]; simpl; intros acc v H.
  - destruct H as [[]|H]; exact H.
  - apply IH. destruct H as [[<-|H]|H]; [right | left; exact H | right].
    + rewrite (dict_get_set_same String.eqb String.eqb_refl). discriminate.
    + apply dict_get_set_present. exact H.
Qed.

(** The Ising energy of [qubo_to_ising lin quad off] at spins [1 - 2 * bit]
    is the QUBO polynomial at [bit], for any [bit]. *)
Lemma qubo_to_ising_energy (bit : string -> Q) lin quad off :
  (forall a b x, In ((a, b), x) quad -> In a (map fst lin) /\ In b (map fst lin)) ->
  exists m, qubo_to_ising lin quad off = Some m /\
    ising_energy (fun v => 1 - 2 * bit v) m
    == off + wsum bit lin + wsum (pair_weight bit) quad.
Proof.
  intros Hq. unfold qubo_to_ising.
  set (h0 := fold_left (fun h '(var, _) => dict_set String.eqb h var 0) lin []).
  destruct (ising_linear_loop bit lin h0 off) as [h1 [c1 [H1 [Hp1 He1]]]].
  { intros v x Hin. apply h0_present. left. apply (in_map fst) in Hin. exact Hin. }
  rewrite H1. simpl.
  destruct (ising_quad_loop bit quad h1 [] c1) as [h2 [J2 [c2 [H2 He2]]]].
  { intros a b x Hin. destruct (Hq a b x Hin) as [Ha Hb].
    split; apply Hp1, h0_present; left; assumption. }
  exists (h2, J2, c2). split; [exact H2|]. simpl.
  rewrite He2. rewrite wsum_nil.
  setoid_replace (c1 + wsum (fun v => 1 - 2 * bit v) h1)
    with (off + wsum (fun v => 1 - 2 * bit v) h0 + wsum bit lin) by exact He1.
  rewrite (wsum_zero _ h0 (h0_zero lin)). ring.
Qed.

(** * Evaluating the QUBO energy *)

Lemma dict_get_set_other {V} (d : list (string * V)) k x v :
  k <> v -> dict_get String.eqb (dict_set String.eqb d k x) v = dict_get String.eqb d v.
Proof.
  intros Hne. induction d as [|[k' v'] r IH]; simpl.
  - destruct (String.eqb_spec v k); [congruence | reflexivity].
  - destruct (String.eqb_spec k k') as [<-|Hk]; simpl.
    + destruct (String.eqb_spec v k); [congruence | reflexivity].
    + destruct (String.eqb v k'); [reflexivity | exact IH].
Qed.

Lemma var_to_index_go_notin itv : forall n acc v,
  ~ In v itv -> dict_get String.eqb (var_to_index_go itv n acc) v = dict_get String.eqb acc v.
Proof.
  induction itv as [|w r IH]; simpl; intros n acc v Hv; [reflexivity|].
  rewrite IH by tauto. apply dict_get_set_other. intros ->. tauto.
Qed.

Lemma var_to_index_go_nth itv : forall n acc i v,
  NoDup itv -> nth_error itv i = Some v ->
  dict_get String.eqb (var_to_index_go itv n acc) v = Some (n + i)%nat.
Proof.
  induction itv as [|w r IH]; intros n acc i v Hnd Hi; [destruct i; discriminate|].
  inversion Hnd as [|? ? Hw Hr]; subst. simpl.
  destruct i as [|j]; simpl in Hi.
  - injection Hi as <-. rewrite var_to_index_go_notin by exact Hw.
    rewrite (dict_get_set_same String.eqb String.eqb_refl). f_equal. lia.
  - rewrite (IH (S n) _ j v Hr Hi). f_equal. lia.
Qed.

Lemma bit_at_nth itv bits i v :
  NoDup itv -> nth_error itv i = Some v -> bit_at itv bits v = inject_Z (nth i bits 0%Z).
Proof.
  intros Hnd Hi. unfold bit_at, var_to_index.
  rewrite (var_to_index_go_nth itv 0 [] i v Hnd Hi). reflexivity.
Qed.

Lemma var_index_in_range itv bits v :
  NoDup itv -> List.length bits = List.length itv -> In v itv ->
  exists i, dict_get String.eqb (var_to_index itv) v = Some i /\
            nth_error bits i = Some (nth i bits 0%Z) /\
            bit_at itv bits v = inject_Z (nth i bits 0%Z).
Proof.
  intros Hnd Hlen Hin. destruct (In_nth_error _ _ Hin) as [i Hi].
  exists i. split; [apply (var_to_index_go_nth itv 0 [] i v Hnd Hi)|].
  split; [|apply bit_at_nth; assumption].
  apply nth_error_nth'. rewrite Hlen. apply nth_error_Some. congruence.
Qed.

Lemma Forall2_of_nth {A B} (R : A -> B -> Prop) : forall l1 l2,
  List.length l1 = List.length l2 ->
  (forall i a b, nth_error l1 i = Some a -> nth_error l2 i = Some b -> R a b) ->
  Forall2 R l1 l2.
Proof.
  induction l1 as [|a r IH]; intros [|b l2] Hlen H; try discriminate; constructor.
  - apply (H 0%nat); reflexivity.
  - apply IH; [simpl in Hlen; lia|]. intros i a' b' H1 H2. apply (H (S i)); assumption.
Qed.

Lemma dict_get_nodup {V} (d : list (string * V)) k x :
  NoDup (map fst d) -> In (k, x) d -> dict_get String.eqb d k = Some x.
Proof.
  induction d as [|[k' x'] r IH]; simpl; intros Hnd Hin; [contradiction|].
  inversion Hnd as [|? ? Hk' Hr]; subst.
  destruct Hin as [Heq|Hin].
  - injection Heq as -> ->. now rewrite String.eqb_refl.
  - destruct (String.eqb_spec k k') as [->|]; [|auto].
    exfalso. apply Hk'. apply (in_map fst) in Hin. exact Hin.
Qed.

Lemma eval_linear_sum lin itv (w : string -> Q) : forall bits n e L,
  skipn n itv = map fst L ->
  Forall2 (fun kx b => dict_get_default String.eqb lin (fst kx) 0 = snd kx /\
                       w (fst kx) = inject_Z b) L bits ->
  exists e', eval_linear lin itv bits n e = Some e' /\ e' == e + wsum w L.
Proof.
  intros bits n e L Hsk HF. revert n e Hsk.
  induction HF as [|[v x] b L' bs [Hg Hw] HF IH]; intros n e Hsk; simpl.
  - exists e. split; [reflexivity | rewrite wsum_nil; ring].
  - assert (Hn : nth_error itv n = Some v /\ skipn (S n) itv = map fst L').
    { clear -Hsk. revert itv Hsk. induction n as [|n IHn]; intros [|a itv] Hsk;
        simpl in *; try discriminate.
      - injection Hsk as -> ->. auto.
      - apply IHn. exact Hsk. }
    destruct Hn as [Hn Hsk']. rewrite Hn. simpl.
    destruct (IH (S n) (e + dict_get_default String.eqb lin v 0 * inject_Z b) Hsk')
      as [e' [He' Hsum]].
    cbn [fst snd] in Hg, Hw.
    exists e'. split; [exact He'|]. rewrite Hsum, wsum_cons, Hg, Hw. ring.
Qed.

Lemma eval_quad_sum itv bits :
  NoDup itv -> List.length bits = List.length itv ->
  forall quad e, (forall a b x, In ((a, b), x) quad -> In a itv /\ In b itv) ->
  exists e', foldM (eval_quad_step (var_to_index itv) bits) quad e = Some e' /\
             e' == e + wsum (pair_weight (bit_at itv bits)) quad.
Proof.
  intros Hnd Hlen quad. induction quad as [|[[a b] x] r IH]; intros e Hq; simpl.
  - exists e. split; [reflexivity | rewrite wsum_nil; ring].
  - destruct (Hq a b x (or_introl eq_refl)) as [Ha Hb].
    destruct (var_index_in_range itv bits a Hnd Hlen Ha) as [ia [Hia [Hba Hbita]]].
    destruct (var_index_in_range itv bits b Hnd Hlen Hb) as [ib [Hib [Hbb Hbitb]]].
    rewrite Hia. simpl. rewrite Hib. simpl. rewrite Hba. simpl. rewrite Hbb. simpl.
    destruct (IH (e + x * inject_Z (nth ia bits 0%Z) * inject_Z (nth ib bits 0%Z)))
      as [e' [He' Hsum]]; [intros; eapply Hq; right; eassumption|].
    exists e'. split; [exact He'|]. rewrite Hsum, wsum_cons.
    unfold pair_weight; simpl. rewrite Hbita, Hbitb. ring.
Qed.

(** [evaluate_qubo] computes the QUBO polynomial at the bits of the
    variables, when the linear map has exactly the indexed variables as
    keys, in index order. *)
Lemma evaluate_qubo_energy bits lin quad off itv :
  NoDup itv -> map fst lin = itv -> List.length bits = List.length itv ->
  (forall a b x, In ((a, b), x) quad -> In a itv /\ In b itv) ->
  exists e, evaluate_qubo bits lin quad off itv = Some e /\
    e == off + wsum (bit_at itv bits) lin + wsum (pair_weight (bit_at itv bits)) quad.
Proof.
  intros Hnd Hkeys Hlen Hq. unfold evaluate_qubo.
  destruct (eval_linear_sum lin itv (bit_at itv bits) bits 0 off lin) as [e1 [H1 He1]].
  - simpl. symmetry. exact Hkeys.
  - apply Forall2_of_nth.
    + rewrite Hlen, <- Hkeys, length_map. reflexivity.
    + intros i [v x] b Hi Hb. simpl. split.
      * unfold dict_get_default. rewrite (dict_get_nodup lin v x).
        -- reflexivity.
        -- rewrite Hkeys. exact Hnd.
        -- eapply nth_error_In. exact Hi.
      * assert (Hv : nth_error itv i = Some v).
        { rewrite <- Hkeys, nth_error_map, Hi. reflexivity. }
        rewrite (bit_at_nth itv bits i v Hnd Hv). f_equal.
        apply nth_error_nth. exact Hb.
  - rewrite H1. simpl.
    destruct (eval_quad_sum itv bits Hnd Hlen quad e1 Hq) as [e2 [H2 He2]].
    exists e2. split; [exact H2|]. rewrite He2, He1. ring.
Qed.

(** * Shape of the QUBO built by [build_qubo] *)

Lemma dict_get_notin {V} (d : list (string * V)) k :
  ~ In k (map fst d) -> dict_get String.eqb d k = None.
Proof.
  induction d as [|[k' v'] r IH]; simpl; intros Hk; [reflexivity|].
  destruct (String.eqb_spec k k') as [->|]; [tauto | apply IH; tauto].
Qed.

Lemma initial_linear_keys_go : forall l (acc : Linear),
  NoDup (map fst acc ++ l)%list ->
  map fst (fold_left (fun lin v => dict_setdefault String.eqb lin v 0) l acc) = (map fst acc ++ l)%list.
Proof.
  induction l as [|v l IH]; simpl; intros acc Hnd; [now rewrite app_nil_r|].
  unfold dict_setdefault at 2.
  rewrite dict_get_notin.
  - rewrite IH; rewrite map_app; simpl; rewrite <- app_assoc; [reflexivity | exact Hnd].
  - intros Hin. apply NoDup_remove_2 in Hnd. apply Hnd. apply in_or_app. now left.
Qed.

Lemma initial_linear_keys itv : NoDup itv -> map fst (initial_linear itv) = itv.
Proof. intros Hnd. apply (initial_linear_keys_go itv []). exact Hnd. Qed.

Lemma dict_set_keys_present {K V} (keqb : K -> K -> bool) (d : list (K * V)) k v w :
  dict_get keqb d k = Some w -> map fst (dict_set keqb d k v) = map fst d.
Proof.
  induction d as [|[k' v'] r IH]; simpl; [discriminate|].
  destruct (keqb k k'); simpl; [reflexivity|]. intros H. now rewrite (IH H).
Qed.

Lemma dict_iadd_keys {K} (keqb : K -> K -> bool) d k x d' :
  dict_iadd keqb d k x = Some d' -> map fst d' = map fst d.
Proof.
  unfold dict_iadd. destruct (dict_get keqb d k) eqn:G; [|discriminate].
  intros H; injection H as <-. eapply dict_set_keys_present; eauto.
Qed.

Lemma combinations2_in {A} (l : list A) a b : In (a, b) (combinations2 l) -> In a l /\ In b l.
Proof.
  induction l as [|x r IH]; simpl; [contradiction|].
  intros H. apply in_app_or in H as [H|H].
  - apply in_map_iff in H as [y [Hy Hin]]. injection Hy as <- <-. auto.
  - destruct (IH H). auto.
Qed.

Lemma sort_pair_in (P : string -> Prop) a b :
  P a -> P b -> P (fst (sort_pair a b)) /\ P (snd (sort_pair a b)).
Proof. unfold sort_pair. destruct (String.ltb b a); simpl; auto. Qed.

Lemma course_vars_in courses c v :
  In c courses -> In v (course_vars c) -> In v (index_to_var_of courses).
Proof.
  intros Hc Hv. unfold index_to_var_of. apply in_concat.
  exists (course_vars c). split; [apply in_map; exact Hc | exact Hv].
Qed.

Lemma all_sections_in courses v s :
  In (v, s) (all_sections_of courses) -> In v (index_to_var_of courses).
Proof.
  unfold all_sections_of. intros H. apply in_concat in H as [l [Hl Hin]].
  apply in_map_iff in Hl as [c [<- Hc]].
  apply in_combine_l in Hin. eapply course_vars_in; eauto.
Qed.


Lemma quad_accum_keys_in itv q a b x :
  keys_in itv q -> In a itv -> In b itv -> keys_in itv (quad_accum q (sort_pair a b) x).
Proof.
  intros Hq Ha Hb. unfold quad_accum, keys_in.
  apply (dict_set_keys pair_eqb (fun k => In (fst k) itv /\ In (snd k) itv)); [exact Hq|].
  apply (sort_pair_in (fun s => In s itv)); assumption.
Qed.

Lemma build_qubo_shape courses cp kp lin quad off itv :
  build_qubo courses cp kp = Some (lin, quad, off, itv) ->
  itv = index_to_var_of courses /\
  map fst lin = map fst (initial_linear itv) /\
  keys_in itv quad.
Proof.
  unfold build_qubo, course_terms. intros H.
  inv_bind H. inv_bind Hr. destruct r0 as [[lin0 quad0] off0].
  injection Hr as <-. inv_bind H. injection H as <- <- <- <-.
  set (itv := index_to_var_of courses) in *.
  assert (Hst : map fst lin0 = map fst (initial_linear itv) /\ keys_in itv quad0).
  { change (let st := (lin0, quad0, off0) in
            map fst (fst (fst st)) = map fst (initial_linear itv) /\ keys_in itv (snd (fst st))).
    eapply (foldM_invariant (fun st => map fst (fst (fst st)) = map fst (initial_linear itv)
                                       /\ keys_in itv (snd (fst st)))); [| | exact Hr0].
    - intros [[l q] o] c st' Hc [Hl Hq] Hs. unfold course_step in Hs.
      apply obind_Some in Hs as [l' [Hl' Hs]]. injection Hs as <-. simpl in *. split.
      + rewrite <- Hl. clear -Hl'. revert l l' Hl'.
        induction (course_vars c) as [|v vs IH]; simpl; intros l l' Hl'.
        * now injection Hl' as <-.
        * apply obind_Some in Hl' as [l1 [H1 H2]].
          rewrite (IH _ _ H2). eapply dict_iadd_keys; eauto.
      + apply fold_left_invariant; [|exact Hq].
        intros q' [a b] Hab Hq'. apply combinations2_in in Hab as [Ha Hb].
        apply quad_accum_keys_in; [exact Hq' | |]; eapply course_vars_in; eauto.
    - simpl. split; [reflexivity | constructor]. }
  destruct Hst as [Hl Hq]. split; [reflexivity|]. split; [exact Hl|].
  eapply (foldM_invariant (keys_in itv)); [| exact Hq | exact Hr].
  intros q [[va sa] [vb sb]] q' Hp Hq' Hs. unfold conflict_step in Hs.
  apply combinations2_in in Hp as [Ha Hb].
  apply obind_Some in Hs as [o [_ Hs]]. destruct o; injection Hs as <-; [|exact Hq'].
  apply quad_accum_keys_in; [exact Hq' | |]; eapply all_sections_in; eauto.
Qed.

Lemma keys_in_spec itv q :
  keys_in itv q -> forall a b x, In ((a, b), x) q -> In a itv /\ In b itv.
Proof.
  unfold keys_in. rewrite Forall_forall. intros H a b x Hin. exact (H _ Hin).
Qed.

(** * Variable names within one course are distinct *)

Lemma append_cancel_l (a x y : string) : (a ++ x = a ++ y)%string -> x = y.
Proof.
  induction a as [|c a IH]; simpl; [auto|]. intros H. injection H. exact IH.
Qed.

Lemma has_pipe_digits u : has_pipe (string_of_uint u) = false.
Proof. induction u; simpl; auto. Qed.

Lemma has_pipe_app_pipe b y : has_pipe (b ++ String "|" y)%string = true.
Proof.
  induction b as [|c b IH]; simpl; [reflexivity|]. rewrite IH. apply orb_true_r.
Qed.

Lemma pipe_suffix_eq a b x y :
  has_pipe x = false -> has_pipe y = false ->
  (a ++ String "|" x = b ++ String "|" y)%string -> x = y.
Proof.
  revert b. induction a as [|c a IH]; intros [|c' b] Hx Hy H; simpl in H.
  - now injection H.
  - injection H as <- H. rewrite H, has_pipe_app_pipe in Hx. discriminate.
  - injection H as -> H. rewrite <- H, has_pipe_app_pipe in Hy. discriminate.
  - injection H as _ H. exact (IH b Hx Hy H).
Qed.

Lemma string_of_uint_inj u u' : string_of_uint u = string_of_uint u' -> u = u'.
Proof.
  revert u'. induction u; intros []; simpl; intros H; try discriminate;
    try reflexivity; injection H as H; f_equal; auto.
Qed.

Lemma var_name_index_inj cc s s' i j : var_name cc s i = var_name cc s' j -> i = j.
Proof.
  unfold var_name. intros H. apply append_cancel_l in H. simpl in H.
  injection H as H. apply pipe_suffix_eq in H; try apply has_pipe_digits.
  apply DecimalNat.Unsigned.to_uint_inj. apply string_of_uint_inj. exact H.
Qed.

Lemma section_vars_index cc ss : forall n v,
  In v (section_vars cc ss n) -> exists s j, v = var_name cc (section_id s) j /\ (n <= j)%nat.
Proof.
  induction ss as [|s r IH]; simpl; intros n v Hv; [contradiction|].
  destruct Hv as [<-|Hv].
  - exists s, n. split; [reflexivity | lia].
  - destruct (IH (S n) v Hv) as [s' [j [-> Hj]]]. exists s', j. split; [reflexivity | lia].
Qed.

Lemma section_vars_NoDup cc ss : forall n, NoDup (section_vars cc ss n).
Proof.
  induction ss as [|s r IH]; simpl; intros n; constructor; [|apply IH].
  intros Hin. destruct (section_vars_index cc r (S n) _ Hin) as [s' [j [Hj Hle]]].
  apply var_name_index_inj in Hj. lia.
Qed.

Lemma course_vars_NoDup c : NoDup (course_vars c).
Proof. apply section_vars_NoDup. Qed.

Lemma section_vars_length cc ss : forall n, List.length (section_vars cc ss n) = List.length ss.
Proof. induction ss; simpl; auto. Qed.

(** * Pair keys of one course are distinct *)

Lemma sort_pair_eq_inv a b a' b' :
  sort_pair a b = sort_pair a' b' -> (a = a' /\ b = b') \/ (a = b' /\ b = a').
Proof.
  unfold sort_pair. destruct (String.ltb b a), (String.ltb b' a'); intros H;
    injection H as -> ->; auto.
Qed.

Lemma combinations2_keys_NoDup vs : NoDup vs -> NoDup (pair_keys (combinations2 vs)).
Proof.
  induction vs as [|x r IH]; simpl; intros Hnd; [constructor|].
  inversion Hnd as [|? ? Hx Hr]; subst. unfold pair_keys in *.
  rewrite map_app, map_map. apply NoDup_app.
  - apply NoDup_map_NoDup_ForallPairs; [|exact Hr].
    intros y y' Hy Hy' E. apply sort_pair_eq_inv in E as [[_ E]|[E _]]; [exact E|].
    subst. contradiction.
  - apply IH, Hr.
  - intros k Hk1 Hk2. apply in_map_iff in Hk1 as [y [<- Hy]].
    apply in_map_iff in Hk2 as [[a b] [E Hab]].
    apply combinations2_in in Hab as [Ha Hb].
    apply sort_pair_eq_inv in E as [[E _]|[_ E]]; subst; contradiction.
Qed.

(** * Coefficient updates of one course iteration *)

Section DictOther.
Context {K V : Type} (keqb : K -> K -> bool).
Hypothesis keqb_true : forall k k', keqb k k' = true -> k = k'.

Lemma dict_get_set_other_gen (d : list (K * V)) k x v :
  k <> v -> dict_get keqb (dict_set keqb d k x) v = dict_get keqb d v.
Proof.
  intros Hne. induction d as [|[k' v'] r IH]; simpl.
  - destruct (keqb v k) eqn:E; [apply keqb_true in E; congruence | reflexivity].
  - destruct (keqb k k') eqn:Ek; simpl.
    + apply keqb_true in Ek. subst k'.
      destruct (keqb v k) eqn:E; [apply keqb_true in E; congruence | reflexivity].
    + destruct (keqb v k'); [reflexivity | exact IH].
Qed.
End DictOther.

Lemma iadd_fold_spec x : forall vs lin,
  NoDup vs -> (forall v, In v vs -> dict_get String.eqb lin v <> None) ->
  exists lin', foldM (fun l v => dict_iadd String.eqb l v x) vs lin = Some lin' /\
    (forall v y, In v vs -> dict_get String.eqb lin v = Some y ->
                 dict_get String.eqb lin' v = Some (y + x)) /\
    (forall v, ~ In v vs -> dict_get String.eqb lin' v = dict_get String.eqb lin v).
Proof.
  induction vs as [|v0 r IH]; intros lin Hnd Hpres; simpl.
  - exists lin. split; [reflexivity|]. split; [intros ? ? []|]. reflexivity.
  - inversion Hnd as [|? ? Hv0 Hr]; subst.
    destruct (dict_get String.eqb lin v0) as [y0|] eqn:G0;
      [|exfalso; exact (Hpres v0 (or_introl eq_refl) G0)].
    unfold dict_iadd at 1. rewrite G0. simpl.
    set (lin1 := dict_set String.eqb lin v0 (y0 + x)).
    destruct (IH lin1 Hr) as [lin' [Hf [Hin Hout]]].
    { intros v Hv. apply (dict_get_set_present String.eqb). apply Hpres. now right. }
    exists lin'. split; [exact Hf|]. split.
    + intros v y [<-|Hv] Hy.
      * rewrite Hout by exact Hv0. unfold lin1.
        rewrite (dict_get_set_same String.eqb String.eqb_refl). congruence.
      * apply Hin; [exact Hv|]. unfold lin1. rewrite dict_get_set_other; [exact Hy|].
        intros ->. contradiction.
    + intros v Hv. rewrite Hout by tauto. unfold lin1.
      apply dict_get_set_other. intros ->. apply Hv. now left.
Qed.

Lemma accum_fold_spec x : forall keys q,
  NoDup keys ->
  (forall k, In k keys ->
     dict_get_default pair_eqb (fold_left (fun q k => quad_accum q k x) keys q) k 0
     = dict_get_default pair_eqb q k 0 + x) /\
  (forall k, ~ In k keys ->
     dict_get pair_eqb (fold_left (fun q k => quad_accum q k x) keys q) k
     = dict_get pair_eqb q k).
Proof.
  induction keys as [|k0 r IH]; intros q Hnd; simpl.
  - split; [intros ? []|reflexivity].
  - inversion Hnd as [|? ? Hk0 Hr]; subst.
    destruct (IH (quad_accum q k0 x) Hr) as [Hin Hout]. split.
    + intros k [<-|Hk].
      * unfold dict_get_default at 1. rewrite Hout by exact Hk0.
        unfold quad_accum. rewrite (dict_get_set_same pair_eqb pair_eqb_refl). reflexivity.
      * rewrite Hin by exact Hk. unfold quad_accum, dict_get_default at 1.
        rewrite (dict_get_set_other_gen pair_eqb pair_eqb_true); [reflexivity|].
        intros ->. contradiction.
    + intros k Hk. rewrite Hout by tauto. unfold quad_accum.
      apply (dict_get_set_other_gen pair_eqb pair_eqb_true). intros ->. apply Hk. now left.
Qed.

Lemma pair_fold_keys x : forall (L : list (string * string)) q,
  fold_left (fun q '(a, b) => quad_accum q (sort_pair a b) x) L q
  = fold_left (fun q k => quad_accum q k x) (pair_keys L) q.
Proof. induction L as [|[a b] r IH]; intros q; simpl; [reflexivity | apply IH]. Qed.

(** * The energy of one course's selection terms *)

Lemma qsum_cons x l : qsum (x :: l) = x + qsum l.
Proof. reflexivity. Qed.

Lemma qsum_app l1 l2 : qsum (l1 ++ l2) == qsum l1 + qsum l2.
Proof.
  induction l1 as [|x r IH]; [rewrite app_nil_l; simpl; ring|].
  rewrite <- app_comm_cons, !qsum_cons, IH. ring.
Qed.

Lemma iadd_fold_wsum (w : string -> Q) x : forall vs lin lin',
  foldM (fun l v => dict_iadd String.eqb l v x) vs lin = Some lin' ->
  wsum w lin' == wsum w lin + qsum (map (fun v => x * w v) vs).
Proof.
  induction vs as [|v r IH]; intros lin lin' H; simpl in H.
  - injection H as <-. simpl. ring.
  - apply obind_Some in H as [l1 [H1 H2]]. rewrite (IH _ _ H2).
    rewrite (wsum_iadd String.eqb string_eqb_true w _ _ _ _ H1).
    rewrite map_cons, qsum_cons. ring.
Qed.

Lemma accum_fold_wsum (w : string -> Q) x : forall (L : list (string * string)) q,
  wsum (pair_weight w) (fold_left (fun q '(a, b) => quad_accum q (sort_pair a b) x) L q)
  == wsum (pair_weight w) q + qsum (map (fun p => x * (w (fst p) * w (snd p))) L).
Proof.
  induction L as [|[a b] r IH]; intros q; simpl.
  - ring.
  - rewrite IH, wsum_quad_accum, pair_weight_sort_pair. unfold pair_weight. simpl. ring.
Qed.

Lemma initial_linear_zero itv : Forall (fun kx => snd kx = 0) (initial_linear itv).
Proof.
  unfold initial_linear. apply fold_left_invariant; [|constructor].
  intros lin v _ Hl. unfold dict_setdefault.
  destruct (dict_get String.eqb lin v); [exact Hl|].
  apply Forall_app. split; [exact Hl | repeat constructor].
Qed.

Lemma qsum_scale (g : string -> Q) x l :
  qsum (map (fun v => x * g v) l) == x * qsum (map g l).
Proof. induction l as [|v r IH]; simpl; [ring|]. rewrite IH. ring. Qed.

Lemma qsum_pairs_scale (f : string -> Q) x (L : list (string * string)) :
  qsum (map (fun p => x * (f (fst p) * f (snd p))) L)
  == x * qsum (map (fun p => f (fst p) * f (snd p)) L).
Proof. induction L as [|p r IH]; simpl; [ring|]. rewrite IH. ring. Qed.

Lemma qsum_row (f : string -> Q) x r :
  qsum (map (fun p => f (fst p) * f (snd p)) (map (fun y => (x, y)) r)) == f x * qsum (map f r).
Proof. induction r as [|y r IH]; simpl; [ring|]. rewrite IH. ring. Qed.

(** For 0/1 weights, twice the sum over unordered pairs is [S * S - S]. *)
Lemma qsum_pairs_01 (f : string -> Q) : forall vs,
  (forall v, In v vs -> f v == 0 \/ f v == 1) ->
  2 * qsum (map (fun p => f (fst p) * f (snd p)) (combinations2 vs))
  == qsum (map f vs) * qsum (map f vs) - qsum (map f vs).
Proof.
  induction vs as [|x r IH]; intros H01; simpl; [ring|].
  rewrite map_app, qsum_app, qsum_row.
  setoid_replace (2 * (f x * qsum (map f r)
                       + qsum (map (fun p => f (fst p) * f (snd p)) (combinations2 r))))
    with (2 * f x * qsum (map f r)
          + 2 * qsum (map (fun p => f (fst p) * f (snd p)) (combinations2 r))) by ring.
  rewrite IH by (intros; apply H01; now right).
  destruct (H01 x (or_introl eq_refl)) as [E|E]; rewrite E; ring.
Qed.

Lemma qsum_Forall2 (f : string -> Q) vs bits :
  Forall2 (fun v b => f v = inject_Z b) vs bits ->
  qsum (map f vs) = qsum (map inject_Z bits).
Proof. induction 1; simpl; congruence. Qed.

Lemma qsum_bits_count bits :
  Forall (fun b => b = 0%Z \/ b = 1%Z) bits ->
  qsum (map inject_Z bits) == inject_Z (Z.of_nat (count_selected bits)).
Proof.
  unfold count_selected. induction 1 as [|b r Hb Hr IH]; [reflexivity|].
  rewrite map_cons, qsum_cons, IH. destruct Hb as [E|E]; subst b.
  - rewrite count_occ_cons_neq by discriminate. ring.
  - rewrite count_occ_cons_eq by reflexivity.
    rewrite Nat2Z.inj_succ. unfold Z.succ. rewrite inject_Z_plus. ring.
Qed.

Lemma conflict_loop_noop kp : forall L q,
  (forall p, In p L -> overlaps (snd (fst p)) (snd (snd p)) = Some false) ->
  foldM (conflict_step kp) L q = Some q.
Proof.
  induction L as [|[[va sa] [vb sb]] r IH]; intros q H; [reflexivity|].
  cbn [foldM]. unfold conflict_step at 1.
  rewrite (H _ (or_introl eq_refl) : overlaps sa sb = Some false). simpl. apply IH. intros; apply H; now right.
Qed.

Lemma bits_01_at itv bits v :
  NoDup itv -> List.length bits = List.length itv -> In v itv ->
  Forall (fun b => b = 0%Z \/ b = 1%Z) bits ->
  bit_at itv bits v == 0 \/ bit_at itv bits v == 1.
Proof.
  intros Hnd Hlen Hv H01.
  destruct (var_index_in_range itv bits v Hnd Hlen Hv) as [i [_ [Hb ->]]].
  apply nth_error_In in Hb. rewrite Forall_forall in H01.
  destruct (H01 _ Hb) as [E|E]; rewrite E; [left | right]; reflexivity.
Qed.

Lemma bit_at_Forall2 itv bits :
  NoDup itv -> List.length bits = List.length itv ->
  Forall2 (fun v b => bit_at itv bits v = inject_Z b) itv bits.
Proof.
  intros Hnd Hlen. apply Forall2_of_nth; [congruence|].
  intros i v b Hv Hb. rewrite (bit_at_nth itv bits i v Hnd Hv).
  f_equal. apply nth_error_nth. exact Hb.
Qed.

(** With no conflict terms, the energy of [build_qubo] on a single course
    is [course_penalty * (m - 1)^2], [m] the number of selected variables. *)
Lemma course_energy c P K lin quad off itv bits :
  (forall p, In p (combinations2 (all_sections_of [c])) ->
             overlaps (snd (fst p)) (snd (snd p)) = Some false) ->
  build_qubo [c] P K = Some (lin, quad, off, itv) ->
  List.length bits = List.length itv -> Forall (fun b => b = 0%Z \/ b = 1%Z) bits ->
  exists e, evaluate_qubo bits lin quad off itv = Some e /\
    e == P * inject_Z ((Z.of_nat (count_selected bits) - 1)
                       * (Z.of_nat (count_selected bits) - 1)).
Proof.
  intros Hno Hb Hlen H01.
  destruct (build_qubo_shape _ _ _ _ _ _ _ Hb) as [Hitv [Hkeys Hq]].
  assert (Hvs : itv = course_vars c)
    by (rewrite Hitv; unfold index_to_var_of; simpl; apply app_nil_r).
  pose proof (course_vars_NoDup c) as Hnd. rewrite <- Hvs in Hnd.
  rewrite initial_linear_keys in Hkeys by exact Hnd.
  destruct (evaluate_qubo_energy bits lin quad off itv Hnd Hkeys Hlen (keys_in_spec _ _ Hq))
    as [e [He Hee]].
  exists e. split; [exact He|]. rewrite Hee. clear He Hee.
  unfold build_qubo in Hb. apply obind_Some in Hb as [r [Hct Hb]].
  destruct r as [[[lin0 quad0] off0] itv0].
  apply obind_Some in Hb as [q' [Hconf Hb]]. injection Hb as E1 E2 E3 E4.
  subst lin0 q' off0 itv0.
  rewrite conflict_loop_noop in Hconf by exact Hno. injection Hconf as Hq0. subst quad0.
  unfold course_terms in Hct. apply obind_Some in Hct as [st [Hst Hct]].
  destruct st as [[l q] o]. injection Hct as E1 E2 E3 _. subst l q o.
  cbn [foldM] in Hst. apply obind_Some in Hst as [st' [Hcs Hst]].
  injection Hst as Hst. subst st'.
  unfold course_step in Hcs. apply obind_Some in Hcs as [l' [Hl' Hcs]].
  injection Hcs as E1 E2 E3. subst l' quad off.
  rewrite (iadd_fold_wsum _ _ _ _ _ Hl'), accum_fold_wsum.
  rewrite (wsum_zero _ _ (initial_linear_zero _)), wsum_nil.
  rewrite qsum_scale, qsum_pairs_scale.
  assert (H2 := qsum_pairs_01 (bit_at itv bits) (course_vars c)).
  rewrite <- Hvs in H2 |- *.
  specialize (H2 (fun v Hv => bits_01_at itv bits v Hnd Hlen Hv H01)).
  assert (HS : qsum (map (bit_at itv bits) itv)
               == inject_Z (Z.of_nat (count_selected bits))).
  { rewrite (qsum_Forall2 _ _ _ (bit_at_Forall2 itv bits Hnd Hlen)).
    apply qsum_bits_count. exact H01. }
  assert (Hm : forall z, inject_Z (z - 1) == inject_Z z - 1)
    by (intros z; unfold Qeq; simpl; lia).
  rewrite inject_Z_mult, Hm.
  setoid_replace (2 * P * qsum (map (fun p => bit_at itv bits (fst p) * bit_at itv bits (snd p))
                                    (combinations2 itv)))
    with (P * (2 * qsum (map (fun p => bit_at itv bits (fst p) * bit_at itv bits (snd p))
                             (combinations2 itv)))) by ring.
  rewrite H2, HS. ring.
Qed.

(** * Overlap tests *)

Lemma common_days_spec da db :
  common_days da db = true <-> exists d, In d da /\ In d db.
Proof.
  unfold common_days. rewrite existsb_exists. split; intros [d [H1 H2]]; exists d.
  - apply existsb_exists in H2 as [d' [H3 H4]]. apply String.eqb_eq in H4. subst. auto.
  - split; [exact H1|]. apply existsb_exists. exists d. split; [exact H2 | apply String.eqb_refl].
Qed.

Lemma common_days_nil_l db : common_days [] db = false.
Proof. reflexivity. Qed.

Lemma common_days_nil_r da : common_days da [] = false.
Proof. induction da; simpl; auto. Qed.

Lemma conflict_step_no_days kp q p :
  pair_has_days p = false -> conflict_step kp q p = Some q.
Proof.
  destruct p as [[va sa] [vb sb]]. unfold pair_has_days, conflict_step, overlaps. simpl.
  intros H. destruct (days sa) as [|da ra], (days sb) as [|db rb];
    try (rewrite ?common_days_nil_l, ?common_days_nil_r; reflexivity).
  discriminate.
Qed.

(** * Duration rounding *)

Lemma ceil_div60_spec m : (1 <= m)%Z ->
  (1 <= ceil_div60 m /\ 60 * (ceil_div60 m - 1) < m <= 60 * ceil_div60 m)%Z.
Proof.
  intros Hm. unfold ceil_div60.
  pose proof (Z.div_mod (- m) 60 ltac:(discriminate)).
  pose proof (Z.mod_pos_bound (- m) 60 ltac:(reflexivity)).
  lia.
Qed.

Lemma strptime_TBA : strptime_IMp "TBA" = None.
Proof. reflexivity. Qed.

(** * Variable generation of the classical model *)

Lemma concatM_in {A B} (f : A -> option (list B)) : forall l ys y,
  concatM f l = Some ys -> In y ys -> exists a xs, In a l /\ f a = Some xs /\ In y xs.
Proof.
  induction l as [|a r IH]; simpl; intros ys y H Hy.
  - injection H as <-. contradiction.
  - apply obind_Some in H as [xs [Hxs H]]. apply obind_Some in H as [zs [Hzs H]].
    injection H as <-. apply in_app_or in Hy as [Hy|Hy].
    + exists a, xs. auto.
    + destruct (IH zs y Hzs Hy) as [a' [xs' [Ha' [Hf Hin]]]]. exists a', xs'. auto.
Qed.

Lemma day_vars_in {W} md ts meeting room (w : W) day xs m t r w' :
  day_vars md ts meeting room w day = Some xs -> In (m, t, r, w') xs -> m = meeting /\ r = room.
Proof.
  unfold day_vars. intros H Hin. apply obind_Some in H as [ts' [_ H]].
  injection H as <-. apply in_map_iff in Hin as [t' [E _]]. injection E. auto.
Qed.

(** * Decoding a bitstring *)

Lemma foldM_app {A B} (f : A -> B -> option A) l1 l2 a :
  foldM f (l1 ++ l2) a = obind (foldM f l1 a) (foldM f l2).
Proof.
  revert a. induction l1 as [|b r IH]; intros a; [reflexivity|].
  simpl. destruct (f a b); simpl; [apply IH | reflexivity].
Qed.

Lemma combine_app_single {A B} (l1 : list A) (l2 : list B) x y :
  List.length l1 = List.length l2 ->
  combine (l1 ++ [x]) (l2 ++ [y]) = (combine l1 l2 ++ [(x, y)])%list.
Proof.
  revert l2. induction l1 as [|a r IH]; intros [|b l2] H; simpl in *; try discriminate.
  - reflexivity.
  - f_equal. apply IH. lia.
Qed.

Lemma selected_at_lt bits itv i cc sid :
  selected_at bits itv i cc sid -> (i < List.length bits)%nat.
Proof. intros [H _]. apply nth_error_Some. congruence. Qed.

Lemma selected_app bs b itv i cc sid :
  selected_at (bs ++ [b]) itv i cc sid <->
  selected_at bs itv i cc sid \/
  (i = List.length bs /\ b = 1%Z /\
   exists name rest, nth_error itv i = Some name /\ py_split "|"%char name = [cc; sid; rest]).
Proof.
  destruct (lt_eq_lt_dec i (List.length bs)) as [[Hlt|Heq]|Hgt]; [| subst i |].
  - unfold selected_at. rewrite nth_error_app1 by exact Hlt.
    split; [intros H; left; exact H | intros [H|[E _]]; [exact H | lia]].
  - unfold selected_at. rewrite nth_error_app2, Nat.sub_diag by lia. simpl.
    assert (Hn : nth_error bs (List.length bs) = None) by (apply nth_error_None; lia).
    rewrite Hn. split.
    + intros [Hb Hname]. right. injection Hb as Hb. auto.
    + intros [[H _]|[_ [-> Hname]]]; [discriminate | auto].
  - split.
    + intros [H _]. rewrite nth_error_app2 in H by lia.
      destruct (i - List.length bs)%nat as [|k] eqn:E; [lia|]. destruct k; discriminate.
    + intros [H|[E _]]; [apply selected_at_lt in H; lia | lia].
Qed.

Lemma selected_app_zero bs itv i cc sid :
  selected_at (bs ++ [0%Z]) itv i cc sid <-> selected_at bs itv i cc sid.
Proof.
  rewrite selected_app. split; [intros [H|[_ [E _]]]; [exact H | discriminate] | auto].
Qed.

Lemma selected_app_one bs itv name cc' sid' r' i cc sid :
  nth_error itv (List.length bs) = Some name -> py_split "|"%char name = [cc'; sid'; r'] ->
  selected_at (bs ++ [1%Z]) itv i cc sid <->
  selected_at bs itv i cc sid \/ (i = List.length bs /\ cc = cc' /\ sid = sid').
Proof.
  intros Hn Hs. rewrite selected_app. split.
  - intros [H|[-> [_ [name0 [rest [H1 H2]]]]]]; [now left | right].
    rewrite Hn in H1. injection H1 as <-. rewrite Hs in H2. injection H2 as -> -> _. auto.
  - intros [H|[-> [-> ->]]]; [now left | right]. split; [reflexivity|]. split; [reflexivity|].
    exists name, r'. auto.
Qed.

Lemma interpret_selection_gen itv :
  (forall name, In name itv -> exists cc sid rest, py_split "|"%char name = [cc; sid; rest]) ->
  forall bits, (List.length bits <= List.length itv)%nat ->
  Forall (fun b => b = 0%Z \/ b = 1%Z) bits ->
  exists chosen, interpret_selection bits itv = Some chosen /\
    (forall cc, (exists sid, dict_get String.eqb chosen cc = Some sid) <->
                (exists i sid, selected_at bits itv i cc sid)) /\
    (forall cc sid, dict_get String.eqb chosen cc = Some sid <-> last_selected bits itv cc sid).
Proof.
  intros Hnames bits. induction bits as [|b bs IH] using rev_ind; intros Hlen H01.
  - exists []. split; [reflexivity|]. split.
    + intros cc. split; [intros [sid H]; discriminate|].
      intros [i [sid [H _]]]. destruct i; discriminate.
    + intros cc sid. split; [discriminate|]. intros [i [[H _] _]]. destruct i; discriminate.
  - rewrite length_app in Hlen. simpl in Hlen.
    apply Forall_app in H01 as [H01 Hb]. inversion Hb as [|? ? Hb01 _]; subst.
    destruct (IH ltac:(lia) H01) as [ch [Hch [Hkeys Hlast]]].
    unfold interpret_selection in *. rewrite length_app. simpl List.length.
    rewrite Nat.add_1_r, seq_S, Nat.add_0_l.
    rewrite combine_app_single by (rewrite length_seq; reflexivity).
    rewrite foldM_app, Hch. simpl obind.
    destruct Hb01 as [E|E]; subst b.
    + exists ch. split; [reflexivity|]. split.
      * intros cc. rewrite Hkeys. setoid_rewrite selected_app_zero. reflexivity.
      * intros cc sid. rewrite Hlast. unfold last_selected.
        setoid_rewrite selected_app_zero. reflexivity.
    + destruct (nth_error itv (List.length bs)) as [name|] eqn:Hn;
        [|apply nth_error_None in Hn; lia].
      destruct (Hnames name (nth_error_In _ _ Hn)) as [cc' [sid' [r' Hs]]].
      exists (dict_set String.eqb ch cc' sid').
      split; [simpl; rewrite Hs; reflexivity|].
      pose proof (fun i cc sid => selected_app_one bs itv name cc' sid' r' i cc sid Hn Hs) as Hsel.
      split.
      * intros cc. destruct (String.eqb_spec cc cc') as [->|Hne].
        -- rewrite (dict_get_set_same String.eqb String.eqb_refl). split; [|eauto].
           intros _. exists (List.length bs), sid'. apply Hsel. right. auto.
        -- rewrite dict_get_set_other by congruence. rewrite Hkeys. split.
           ++ intros [i [sid H]]. exists i, sid. apply Hsel. now left.
           ++ intros [i [sid H]]. apply Hsel in H as [H|[_ [E _]]]; [eauto | congruence].
      * intros cc sid. destruct (String.eqb_spec cc cc') as [->|Hne].
        -- rewrite (dict_get_set_same String.eqb String.eqb_refl). split.
           ++ intros E. injection E as <-. exists (List.length bs). split.
              ** apply Hsel. right. auto.
              ** intros j sid'' Hj H. apply Hsel in H as [H|[E _]]; [|lia].
                 apply selected_at_lt in H. lia.
           ++ intros [i [Hi Hmax]]. apply Hsel in Hi as [Hi|[_ [_ ->]]]; [|reflexivity].
              exfalso. apply (Hmax (List.length bs) sid'); [apply selected_at_lt in Hi; lia|].
              apply Hsel. right. auto.
        -- rewrite dict_get_set_other by congruence. rewrite Hlast.
           assert (Heq : forall i s0, selected_at (bs ++ [1%Z]) itv i cc s0 <->
                                      selected_at bs itv i cc s0).
           { intros i s0. rewrite Hsel. split; [intros [H|[_ [E _]]]; [exact H | congruence] | auto]. }
           unfold last_selected. setoid_rewrite Heq. reflexivity.
Qed.

(** * The specification's claims *)

(** ** Energy equivalence of the spin transform *)

(** C1 (amended): for every QUBO [(linear, quadratic, offset)] built by
    [build_qubo] whose variable names are pairwise distinct, and every
    bitstring indexed like [index_to_var], the energy computed by
    [evaluate_qubo] equals the energy of the Ising model returned by
    [qubo_to_ising] at the spins [1 - 2 * bit] (bit 1 ↦ -1, bit 0 ↦ +1):
    exactly, hence within 1e-6. *)
Theorem qubo_ising_energy_equal courses cp kp lin quad off itv bits :
  build_qubo courses cp kp = Some (lin, quad, off, itv) ->
  NoDup itv -> List.length bits = List.length itv ->
  exists e m, evaluate_qubo bits lin quad off itv = Some e /\
    qubo_to_ising lin quad off = Some m /\
    e == ising_energy (spin_of_bits itv bits) m /\
    Qabs (e - ising_energy (spin_of_bits itv bits) m) <= 1 # 1000000.
Proof.
  intros Hb Hnd Hlen.
  destruct (build_qubo_shape _ _ _ _ _ _ _ Hb) as [_ [Hkeys Hq]].
  rewrite initial_linear_keys in Hkeys by exact Hnd.
  pose proof (keys_in_spec _ _ Hq) as Hq'.
  destruct (evaluate_qubo_energy bits lin quad off itv Hnd Hkeys Hlen Hq') as [e [He Hee]].
  assert (Hql : forall a b x, In ((a, b), x) quad -> In a (map fst lin) /\ In b (map fst lin))
    by (rewrite Hkeys; exact Hq').
  destruct (qubo_to_ising_energy (bit_at itv bits) lin quad off Hql) as [m [Hm Hme]].
  exists e, m. split; [exact He|]. split; [exact Hm|].
  assert (Heq : e == ising_energy (spin_of_bits itv bits) m).
  { unfold spin_of_bits. rewrite Hme. exact Hee. }
  split; [exact Heq|].
  setoid_replace (e - ising_energy (spin_of_bits itv bits) m) with 0
    by (rewrite Heq; ring).
  discriminate.
Qed.

Lemma qubo_ising_energy_equal_witness :
  match build_qubo demo_catalogue 5 5 with
  | Some (lin, quad, off, itv) =>
      NoDup itv /\
      exists e m, evaluate_qubo [1; 0; 1]%Z lin quad off itv = Some e /\
        qubo_to_ising lin quad off = Some m /\
        e == ising_energy (spin_of_bits itv [1; 0; 1]%Z) m /\
        Qabs (e - ising_energy (spin_of_bits itv [1; 0; 1]%Z) m) <= 1 # 1000000
  | None => False
  end.
Proof.
  destruct (build_qubo demo_catalogue 5 5) as [[[[lin quad] off] itv]|] eqn:E.
  - destruct (build_qubo_shape _ _ _ _ _ _ _ E) as [Hitv _]. subst itv.
    assert (Hnd : NoDup (index_to_var_of demo_catalogue)).
    { vm_compute. repeat constructor; simpl; intuition discriminate. }
    split; [exact Hnd|].
    apply (qubo_ising_energy_equal demo_catalogue 5 5 lin quad off _ [1; 0; 1]%Z E Hnd).
    reflexivity.
  - vm_compute in E. discriminate.
Defined.

(** C1 (counterexample): when the catalogue lists the same course twice,
    the two variables share one name; at the bitstring [1; 0] the QUBO
    energy is 0 and the Ising energy is 10. *)
Lemma qubo_ising_energy_duplicate_counterexample :
  ~ (forall lin quad off itv,
       build_qubo duplicated_catalogue 5 5 = Some (lin, quad, off, itv) ->
       forall bits, List.length bits = List.length itv ->
       Forall (fun b => b = 0%Z \/ b = 1%Z) bits ->
       exists e m, evaluate_qubo bits lin quad off itv = Some e /\
         qubo_to_ising lin quad off = Some m /\
         Qabs (e - ising_energy (spin_of_bits itv bits) m) <= 1 # 1000000).
Proof.
  intros H.
  assert (E : build_qubo duplicated_catalogue 5 5
              = Some ([("18-980|18-980-A|0", -10)], [], 10,
                      ["18-980|18-980-A|0"; "18-980|18-980-A|0"])) by reflexivity.
  destruct (H _ _ _ _ E [1; 0]%Z eq_refl
              (Forall_cons _ (or_intror eq_refl) (Forall_cons _ (or_introl eq_refl) (Forall_nil _))))
    as [e [m [He [Hm Habs]]]].
  vm_compute in He. injection He as <-.
  vm_compute in Hm. injection Hm as <-.
  vm_compute in Habs. apply Habs. reflexivity.
Qed.

(** ** Canonical pair keys *)

(** C6: the quadratic map of [build_qubo] and the coupling map of
    [qubo_to_ising] store every pair key sorted, so they never hold both
    [(a, b)] and [(b, a)] for distinct [a] and [b]; a contribution to an
    existing pair is added to its coefficient. *)
Theorem pair_keys_canonical courses cp kp lin quad off itv :
  build_qubo courses cp kp = Some (lin, quad, off, itv) ->
  canonical_keys quad /\
  (forall a b x y, a <> b -> In ((a, b), x) quad -> In ((b, a), y) quad -> False) /\
  (forall h J c, qubo_to_ising lin quad off = Some (h, J, c) ->
     canonical_keys J /\
     (forall a b x y, a <> b -> In ((a, b), x) J -> In ((b, a), y) J -> False)) /\
  (forall (q : Quadratic) key x,
     dict_get_default pair_eqb (quad_accum q key x) key 0
     = dict_get_default pair_eqb q key 0 + x).
Proof.
  intros Hb. pose proof (build_qubo_canonical _ _ _ _ _ _ _ Hb) as Hq.
  split; [exact Hq|]. split.
  - intros a b x y Hne H1 H2. apply Hne. eapply canonical_no_reversed; eauto.
  - split; [|exact quad_accum_sum].
    intros h J c HJ. pose proof (qubo_to_ising_canonical _ _ _ _ _ _ HJ) as HJc.
    split; [exact HJc|].
    intros a b x y Hne H1 H2. apply Hne. eapply canonical_no_reversed; eauto.
Qed.

Lemma pair_keys_canonical_witness :
  match build_qubo demo_catalogue 5 5 with
  | Some (lin, quad, off, itv) => canonical_keys quad
  | None => False
  end.
Proof.
  destruct (build_qubo demo_catalogue 5 5) as [[[[lin quad] off] itv]|] eqn:E.
  - exact (proj1 (pair_keys_canonical demo_catalogue 5 5 lin quad off itv E)).
  - vm_compute in E. discriminate.
Defined.

(** ** Coefficients of the course-selection penalty *)

(** C2 (amended): one iteration of the course loop of [build_qubo], for a
    course whose variables are already keys of [linear], adds
    [-1 * course_penalty] to the linear coefficient of each variable of the
    course (and changes no other linear coefficient), adds
    [2 * course_penalty] to the quadratic coefficient of each unordered pair
    of its variables (and changes no other pair), and adds
    [course_penalty] to the offset. *)
Theorem course_step_coefficients cp lin quad off c :
  (forall v, In v (course_vars c) -> dict_get String.eqb lin v <> None) ->
  exists lin' quad', course_step cp (lin, quad, off) c = Some (lin', quad', off + cp) /\
    (forall v y, In v (course_vars c) -> dict_get String.eqb lin v = Some y ->
                 dict_get String.eqb lin' v = Some (y + -1 * cp)) /\
    (forall v, ~ In v (course_vars c) -> dict_get String.eqb lin' v = dict_get String.eqb lin v) /\
    (forall a b, In (a, b) (combinations2 (course_vars c)) ->
       dict_get_default pair_eqb quad' (sort_pair a b) 0
       = dict_get_default pair_eqb quad (sort_pair a b) 0 + 2 * cp) /\
    (forall k, ~ In k (pair_keys (combinations2 (course_vars c))) ->
       dict_get pair_eqb quad' k = dict_get pair_eqb quad k).
Proof.
  intros Hpres. pose proof (course_vars_NoDup c) as Hnd.
  destruct (iadd_fold_spec (-1 * cp) (course_vars c) lin Hnd Hpres) as [lin' [Hf [Hin Hout]]].
  destruct (accum_fold_spec (2 * cp) (pair_keys (combinations2 (course_vars c))) quad
              (combinations2_keys_NoDup _ Hnd)) as [Qin Qout].
  eexists lin', _. unfold course_step. rewrite Hf. simpl. split; [reflexivity|].
  split; [exact Hin|]. split; [exact Hout|]. rewrite pair_fold_keys. split; [|exact Qout].
  intros a b Hab. apply Qin. unfold pair_keys. apply (in_map (fun '(a, b) => sort_pair a b) _ (a, b)).
  exact Hab.
Qed.

Lemma course_step_coefficients_witness :
  exists lin' quad',
    course_step 5 (initial_linear (course_vars (mkCourse "18-100" [sec_lab_a; sec_lab_b])), [], 0)
      (mkCourse "18-100" [sec_lab_a; sec_lab_b]) = Some (lin', quad', 0 + 5) /\
    (forall v y, In v (course_vars (mkCourse "18-100" [sec_lab_a; sec_lab_b])) ->
       dict_get String.eqb (initial_linear (course_vars (mkCourse "18-100" [sec_lab_a; sec_lab_b]))) v = Some y ->
       dict_get String.eqb lin' v = Some (y + -1 * 5)) /\
    (forall v, ~ In v (course_vars (mkCourse "18-100" [sec_lab_a; sec_lab_b])) ->
       dict_get String.eqb lin' v
       = dict_get String.eqb (initial_linear (course_vars (mkCourse "18-100" [sec_lab_a; sec_lab_b]))) v) /\
    (forall a b, In (a, b) (combinations2 (course_vars (mkCourse "18-100" [sec_lab_a; sec_lab_b]))) ->
       dict_get_default pair_eqb quad' (sort_pair a b) 0
       = dict_get_default pair_eqb [] (sort_pair a b) 0 + 2 * 5) /\
    (forall k, ~ In k (pair_keys (combinations2 (course_vars (mkCourse "18-100" [sec_lab_a; sec_lab_b])))) ->
       dict_get pair_eqb quad' k = dict_get pair_eqb [] k).
Proof.
  apply course_step_coefficients.
  intros v Hv. vm_compute in Hv. destruct Hv as [<-|[<-|[]]]; vm_compute; discriminate.
Defined.

(** C2 (counterexample): for a single-section course and
    [course_penalty = 5], the linear coefficient of its variable is [-5],
    not [-2 * 5]. *)
Lemma course_linear_coefficient_counterexample :
  ~ (forall lin quad off itv,
       build_qubo single_catalogue 5 5 = Some (lin, quad, off, itv) ->
       forall v, In v itv -> dict_get_default String.eqb lin v 0 == -2 * 5).
Proof.
  intros H.
  assert (E : build_qubo single_catalogue 5 5
              = Some ([("18-200|18-200-A|0", -5)], [], 5, ["18-200|18-200-A|0"])) by reflexivity.
  specialize (H _ _ _ _ E "18-200|18-200-A|0" (or_introl eq_refl)).
  vm_compute in H. discriminate.
Qed.

(** ** Exactly-one enforcement *)

(** C3: for a course with [k >= 1] sections, a positive
    [course_penalty] and no conflict terms, the energy of [build_qubo] at a
    0/1 assignment is non-negative, is 0 exactly when one variable of the
    course is selected, and is at least [course_penalty] whenever [m <> 1]
    variables are selected; an assignment selecting exactly one variable
    exists, so the minimisers are exactly the one-hot assignments. *)
Theorem exactly_one_selection c P K lin quad off itv bits :
  0 < P -> sections c <> [] ->
  (forall p, In p (combinations2 (all_sections_of [c])) ->
             overlaps (snd (fst p)) (snd (snd p)) = Some false) ->
  build_qubo [c] P K = Some (lin, quad, off, itv) ->
  List.length bits = List.length itv -> Forall (fun b => b = 0%Z \/ b = 1%Z) bits ->
  exists e, evaluate_qubo bits lin quad off itv = Some e /\
    0 <= e /\
    (e == 0 <-> count_selected bits = 1%nat) /\
    (count_selected bits <> 1%nat -> P <= e) /\
    (exists bits0 e0, List.length bits0 = List.length itv /\
       Forall (fun b => b = 0%Z \/ b = 1%Z) bits0 /\ count_selected bits0 = 1%nat /\
       evaluate_qubo bits0 lin quad off itv = Some e0 /\ e0 == 0).
Proof.
  intros HP Hk Hno Hb Hlen H01.
  destruct (course_energy c P K lin quad off itv bits Hno Hb Hlen H01) as [e [He Hee]].
  exists e. split; [exact He|].
  set (n := count_selected bits) in *.
  set (z := ((Z.of_nat n - 1) * (Z.of_nat n - 1))%Z) in *.
  assert (Hz0 : (0 <= z)%Z) by (unfold z; nia).
  assert (Hz1 : n <> 1%nat -> (1 <= z)%Z).
  { intros Hn. unfold z. assert (Z.of_nat n = 0%Z \/ (2 <= Z.of_nat n)%Z) as [E|E] by lia.
    - rewrite E. lia.
    - nia. }
  assert (HPe : n <> 1%nat -> P <= e).
  { intros Hn. rewrite Hee. apply Qle_trans with (P * 1); [rewrite Qmult_1_r; apply Qle_refl|].
    apply (proj2 (Qmult_le_l 1 (inject_Z z) P HP)).
    change 1 with (inject_Z 1). rewrite <- Zle_Qle. exact (Hz1 Hn). }
  split.
  { rewrite Hee. apply Qmult_le_0_compat; [apply Qlt_le_weak, HP|].
    change 0 with (inject_Z 0). rewrite <- Zle_Qle. exact Hz0. }
  split.
  { split.
    - intros H0. destruct (Nat.eq_dec n 1) as [E|Hn]; [exact E|exfalso].
      pose proof (Qlt_le_trans _ _ _ HP (HPe Hn)) as Hpos. rewrite H0 in Hpos.
      exact (Qlt_irrefl 0 Hpos).
    - intros Hn. rewrite Hee. unfold z. rewrite Hn. simpl. ring. }
  split; [exact HPe|].
  destruct (build_qubo_shape _ _ _ _ _ _ _ Hb) as [Hitv _].
  assert (Hl : (1 <= List.length itv)%nat).
  { rewrite Hitv. unfold index_to_var_of. simpl. rewrite app_nil_r.
    unfold course_vars. rewrite section_vars_length.
    destruct (sections c); [contradiction | simpl; lia]. }
  set (bits0 := 1%Z :: repeat 0%Z (List.length itv - 1)).
  assert (Hlen0 : List.length bits0 = List.length itv)
    by (unfold bits0; simpl; rewrite repeat_length; lia).
  assert (H010 : Forall (fun b => b = 0%Z \/ b = 1%Z) bits0).
  { constructor; [now right|]. apply Forall_forall. intros x Hx.
    apply repeat_spec in Hx. now left. }
  assert (Hc0 : count_selected bits0 = 1%nat).
  { unfold count_selected, bits0. rewrite count_occ_cons_eq by reflexivity. f_equal.
    clear. induction (List.length itv - 1)%nat as [|m IH]; [reflexivity|].
    simpl repeat. rewrite count_occ_cons_neq by discriminate. exact IH. }
  destruct (course_energy c P K lin quad off itv bits0 Hno Hb Hlen0 H010) as [e0 [He0 Hee0]].
  exists bits0, e0. split; [exact Hlen0|]. split; [exact H010|]. split; [exact Hc0|].
  split; [exact He0|]. rewrite Hee0, Hc0. simpl. ring.
Qed.

Lemma exactly_one_selection_witness :
  match build_qubo [lab_course] 5 5 with
  | Some (lin, quad, off, itv) =>
      exists e, evaluate_qubo [1; 0]%Z lin quad off itv = Some e /\
        (e == 0 <-> count_selected [1; 0]%Z = 1%nat)
  | None => False
  end.
Proof.
  destruct (build_qubo [lab_course] 5 5) as [[[[lin quad] off] itv]|] eqn:E.
  - assert (Hno : forall p, In p (combinations2 (all_sections_of [lab_course])) ->
                            overlaps (snd (fst p)) (snd (snd p)) = Some false).
    { intros p Hp. vm_compute in Hp. destruct Hp as [<-|[]]. vm_compute. reflexivity. }
    destruct (build_qubo_shape _ _ _ _ _ _ _ E) as [Hitv _]. subst itv.
    destruct (exactly_one_selection lab_course 5 5 lin quad off _ [1; 0]%Z
                eq_refl ltac:(discriminate) Hno E eq_refl
                (Forall_cons _ (or_intror eq_refl) (Forall_cons _ (or_introl eq_refl) (Forall_nil _))))
      as [e [He [_ [Hiff _]]]].
    exists e. split; [exact He | exact Hiff].
  - vm_compute in E. discriminate.
Defined.

(** ** The overlap test *)

(** C4: when the four meeting times parse as [HH:MM] (to [start_a],
    [end_a], [start_b], [end_b] minutes), [overlaps] returns a boolean, and
    it is true exactly when the two day lists share a day and
    [not (end_a <= start_b or end_b <= start_a)]. *)
Theorem overlaps_spec a b start_a end_a start_b end_b :
  time_to_minutes (sec_begin a) = Some start_a -> time_to_minutes (sec_end a) = Some end_a ->
  time_to_minutes (sec_begin b) = Some start_b -> time_to_minutes (sec_end b) = Some end_b ->
  exists o, overlaps a b = Some o /\
    (o = true <-> (exists d, In d (days a) /\ In d (days b)) /\
                  ~ ((end_a <= start_b)%Z \/ (end_b <= start_a)%Z)).
Proof.
  intros Hsa Hea Hsb Heb. unfold overlaps.
  destruct (common_days (days a) (days b)) eqn:Hc; simpl.
  - rewrite Hsa, Hea, Hsb, Heb. simpl.
    eexists. split; [reflexivity|]. apply common_days_spec in Hc.
    rewrite negb_true_iff, orb_false_iff, !Z.leb_gt. split.
    + intros [H1 H2]. split; [exact Hc | lia].
    + intros [_ H]. split; lia.
  - exists false. split; [reflexivity|]. split; [discriminate|].
    intros [Hd _]. apply common_days_spec in Hd. congruence.
Qed.

Lemma overlaps_spec_witness :
  exists o, overlaps sec_lab_a sec_rec_a = Some o /\
    (o = true <-> (exists d, In d (days sec_lab_a) /\ In d (days sec_rec_a)) /\
                  ~ ((680 <= 660)%Z \/ (720 <= 600)%Z)).
Proof. apply overlaps_spec; reflexivity. Defined.

(** ** Sections without a meeting time *)

(** C5 (amended): [build_qubo] and [overlaps] never read
    [requires_time_slot]; what keeps a section out of the conflict terms is
    an empty [days] list: such a section overlaps no section, and the
    conflict loop gives the same quadratic map as the loop over only the
    pairs whose two sections both have meeting days. *)
Theorem empty_days_no_conflict kp :
  (forall s t, days s = [] -> overlaps s t = Some false /\ overlaps t s = Some false) /\
  (forall L q, foldM (conflict_step kp) L q = foldM (conflict_step kp) (filter pair_has_days L) q).
Proof.
  split.
  - intros s t Hs. unfold overlaps. rewrite Hs, common_days_nil_l, common_days_nil_r.
    split; reflexivity.
  - induction L as [|p r IH]; intros q; [reflexivity|]. simpl.
    destruct (pair_has_days p) eqn:Hp.
    + simpl. destruct (conflict_step kp q p); simpl; [apply IH | reflexivity].
    + rewrite (conflict_step_no_days kp q p Hp). simpl. apply IH.
Qed.

(** C5 (counterexample): a section with [requires_time_slot = false] but
    a meeting day and times overlapping another section gets a conflict
    term with it. *)
Lemma flagless_section_conflict_counterexample :
  ~ (forall lin quad off itv,
       build_qubo flag_catalogue 5 5 = Some (lin, quad, off, itv) ->
       forall v s, In (v, s) (all_sections_of flag_catalogue) -> requires_time_slot s = false ->
       forall k x, In (k, x) quad -> fst k <> v /\ snd k <> v).
Proof.
  intros H.
  assert (E : build_qubo flag_catalogue 5 5
              = Some ([("18-990|18-990-A|0", -5); ("18-991|18-991-A|0", -5)],
                      [(("18-990|18-990-A|0", "18-991|18-991-A|0"), 5)], 10,
                      ["18-990|18-990-A|0"; "18-991|18-991-A|0"])) by reflexivity.
  destruct (H _ _ _ _ E "18-990|18-990-A|0" sec_flagless (or_introl eq_refl) eq_refl
              _ _ (or_introl eq_refl)) as [H1 _].
  apply H1. reflexivity.
Qed.

(** ** Duration rounding of the classical model *)

(** C7: when both times parse with [%I:%M%p] and the span is [m >= 1]
    minutes, [calculate_duration_slots] returns [ceil(m / 60)] (the least
    [r] with [m <= 60 * r]), which is at least 1: 1 slot for 1 to 60
    minutes, 2 slots for 61 to 120 minutes. *)
Theorem duration_slots_ceil b e t_start t_end :
  strptime_IMp b = Some t_start -> strptime_IMp e = Some t_end -> (1 <= t_end - t_start)%Z ->
  (1 <= calculate_duration_slots (Str b) (Str e))%Z /\
  (60 * (calculate_duration_slots (Str b) (Str e) - 1) < t_end - t_start
     <= 60 * calculate_duration_slots (Str b) (Str e))%Z /\
  ((t_end - t_start <= 60)%Z -> calculate_duration_slots (Str b) (Str e) = 1%Z) /\
  ((61 <= t_end - t_start <= 120)%Z -> calculate_duration_slots (Str b) (Str e) = 2%Z).
Proof.
  intros Hb He Hm.
  assert (Hr : calculate_duration_slots (Str b) (Str e) = ceil_div60 (t_end - t_start)).
  { unfold calculate_duration_slots.
    destruct (String.eqb_spec b "TBA") as [->|_]; [rewrite strptime_TBA in Hb; discriminate|].
    rewrite Hb, He. pose proof (ceil_div60_spec _ Hm). lia. }
  rewrite Hr. pose proof (ceil_div60_spec _ Hm). lia.
Qed.

Lemma duration_slots_ceil_witness :
  (1 <= calculate_duration_slots (Str "08:00AM") (Str "09:20AM"))%Z /\
  (60 * (calculate_duration_slots (Str "08:00AM") (Str "09:20AM") - 1) < 560 - 480
     <= 60 * calculate_duration_slots (Str "08:00AM") (Str "09:20AM"))%Z /\
  ((560 - 480 <= 60)%Z -> calculate_duration_slots (Str "08:00AM") (Str "09:20AM") = 1%Z) /\
  ((61 <= 560 - 480 <= 120)%Z -> calculate_duration_slots (Str "08:00AM") (Str "09:20AM") = 2%Z).
Proof. apply duration_slots_ceil; [reflexivity | reflexivity | lia]. Defined.

(** ** Capacity pre-filter of the classical models *)

(** C8: every variable [x[meeting, t_start, room]] generated by
    [build_and_run_model] of [scheduling-classical.py] and of
    [scheduling-classical-mini.py] is for a room whose capacity is at least
    the meeting's enrollment. *)
Theorem capacity_prefilter md me rc ts meetings rooms :
  (forall xs, classical_vars md me rc ts meetings rooms = Some xs ->
     forall m t r w, In (m, t, r, w) xs -> (me m <= rc r)%Z) /\
  (forall xs, mini_vars md me rc ts meetings rooms = Some xs ->
     forall m t r w, In (m, t, r, w) xs -> (me m <= rc r)%Z).
Proof.
  split.
  - intros xs H m t r w Hin. unfold classical_vars in H.
    destruct (concatM_in _ _ _ _ H Hin) as [meeting [ys [_ [Hm Hy]]]].
    destruct (concatM_in _ _ _ _ Hm Hy) as [room [zs [_ [Hr Hz]]]].
    destruct (Z.ltb_spec (rc room) (me meeting)) as [Hlt|Hge].
    + injection Hr as <-. contradiction.
    + destruct (concatM_in _ _ _ _ Hr Hz) as [day [us [_ [Hd Hu]]]].
      destruct (day_vars_in _ _ _ _ _ _ _ _ _ _ _ Hd Hu) as [-> ->]. exact Hge.
  - intros xs H m t r w Hin. unfold mini_vars in H.
    destruct (concatM_in _ _ _ _ H Hin) as [meeting [ys [_ [Hm Hy]]]].
    destruct (concatM_in _ _ _ _ Hm Hy) as [[r_idx room] [zs [_ [Hr Hz]]]].
    destruct (Z.ltb_spec (rc room) (me meeting)) as [Hlt|Hge].
    + injection Hr as <-. contradiction.
    + destruct (concatM_in _ _ _ _ Hr Hz) as [day [us [_ [Hd Hu]]]].
      destruct (day_vars_in _ _ _ _ _ _ _ _ _ _ _ Hd Hu) as [-> ->]. exact Hge.
Qed.

(** ** Unparseable meeting times *)

(** C9 (amended): [calculate_duration_slots] does not abort on an
    unparseable time: a missing cell, a begin time ["TBA"], or a begin or
    end time that [strptime] rejects gives the default duration of 1
    slot. *)
Theorem unparseable_time_default b e :
  strptime_IMp b = None \/ strptime_IMp e = None ->
  calculate_duration_slots (Str b) (Str e) = 1%Z /\
  calculate_duration_slots NA (Str e) = 1%Z /\
  calculate_duration_slots (Str b) NA = 1%Z /\
  calculate_duration_slots (Str "TBA") (Str e) = 1%Z.
Proof.
  intros H. split; [|repeat split; reflexivity].
  unfold calculate_duration_slots. destruct (String.eqb b "TBA"); [reflexivity|].
  destruct H as [H|H]; rewrite H; [reflexivity|]. destruct (strptime_IMp b); reflexivity.
Qed.

Lemma unparseable_time_default_witness :
  calculate_duration_slots (Str "8:00") (Str "9:20") = 1%Z /\
  calculate_duration_slots NA (Str "9:20") = 1%Z /\
  calculate_duration_slots (Str "8:00") NA = 1%Z /\
  calculate_duration_slots (Str "TBA") (Str "9:20") = 1%Z.
Proof. apply unparseable_time_default. left. reflexivity. Defined.

(** C9 (counterexample): the begin time ["8:00"] has no AM/PM marker and
    does not parse, yet a duration of 1 slot is returned for the meeting
    instead of an error. *)
Lemma unparseable_time_counterexample :
  strptime_IMp "8:00" = None /\ calculate_duration_slots (Str "8:00") (Str "9:20") = 1%Z.
Proof. split; reflexivity. Qed.

(** ** Decoding a bitstring *)

(** C10: for a 0/1 vector as long as [index_to_var], whose names all
    split into [course|section|index], [interpret_selection] returns a
    dictionary whose keys are exactly the course codes of the selected
    variables, and whose value for each is the section id of the selected
    variable of that course with the largest dense index. *)
Theorem interpret_selection_spec bits itv :
  List.length bits = List.length itv ->
  Forall (fun b => b = 0%Z \/ b = 1%Z) bits ->
  (forall name, In name itv -> exists cc sid rest, py_split "|"%char name = [cc; sid; rest]) ->
  exists chosen, interpret_selection bits itv = Some chosen /\
    (forall cc, (exists sid, dict_get String.eqb chosen cc = Some sid) <->
                (exists i sid, selected_at bits itv i cc sid)) /\
    (forall cc sid, dict_get String.eqb chosen cc = Some sid <-> last_selected bits itv cc sid).
Proof.
  intros Hlen H01 Hnames. apply interpret_selection_gen; [exact Hnames | lia | exact H01].
Qed.

Lemma interpret_selection_spec_witness :
  exists chosen, interpret_selection [1; 0; 1]%Z (index_to_var_of demo_catalogue) = Some chosen /\
    (forall cc, (exists sid, dict_get String.eqb chosen cc = Some sid) <->
                (exists i sid, selected_at [1; 0; 1]%Z (index_to_var_of demo_catalogue) i cc sid)) /\
    (forall cc sid, dict_get String.eqb chosen cc = Some sid <->
                    last_selected [1; 0; 1]%Z (index_to_var_of demo_catalogue) cc sid).
Proof.
  apply interpret_selection_spec.
  - reflexivity.
  - apply Forall_forall. intros b [<-|[<-|[<-|[]]]]; auto.
  - intros name Hin. vm_compute in Hin.
    destruct Hin as [<-|[<-|[<-|[]]]]; vm_compute; do 3 eexists; reflexivity.
Defined.

(** * Further properties of the code *)

(** ** Times of day: [to_24h], [strptime], [strftime], [time_to_minutes] *)

Lemma is_digit_dval c : is_digit c = true -> (dval c <= 9)%nat.
Proof. unfold is_digit, dval. rewrite andb_true_iff, !Nat.leb_le. lia. Qed.

Ltac bool_facts :=
  repeat match goal with
  | H : _ && _ = true |- _ => apply andb_true_iff in H; destruct H
  | H : negb _ = true |- _ => apply negb_true_iff in H
  | H : Nat.eqb _ _ = false |- _ => apply Nat.eqb_neq in H
  | H : Nat.eqb _ _ = true |- _ => apply Nat.eqb_eq in H
  | H : Nat.leb _ _ = true |- _ => apply Nat.leb_le in H
  | H : is_digit ?c = true |- _ => apply is_digit_dval in H
  end.

Ltac destruct_ifs H :=
  repeat match type of H with
  | context [if ?b then _ else _] => let E := fresh "E" in destruct b eqn:E
  end.

Lemma parse_I_colon_bound s i r :
  parse_I_colon s = Some (i, r) -> (1 <= i <= 12)%nat.
Proof.
  unfold parse_I_colon. intros H.
  destruct s as [|c1 [|c2 [|c3 r']]]; try discriminate.
  destruct_ifs H; try discriminate; injection H as <- <-; bool_facts; lia.
Qed.

Lemma parse_M_p_bound s m pm :
  parse_M_p s = Some (m, pm) -> (m <= 59)%nat.
Proof.
  unfold parse_M_p. intros H.
  destruct s as [|c1 [|c2 r]]; try discriminate.
  destruct_ifs H; try discriminate;
    destruct (parse_ampm _); try discriminate; injection H as <- <-; bool_facts; lia.
Qed.

Lemma strptime_IMp_bound s m : strptime_IMp s = Some m -> (0 <= m < 1440)%Z.
Proof.
  unfold strptime_IMp. intros H.
  destruct (parse_I_colon s) as [[i rest]|] eqn:Ei; try discriminate.
  destruct (parse_M_p rest) as [[mi pm]|] eqn:Em; try discriminate.
  apply parse_I_colon_bound in Ei. apply parse_M_p_bound in Em.
  injection H as <-.
  destruct pm, (i =? 12)%nat eqn:E12; bool_facts; lia.
Qed.

(** Every time of day printed by [strftime("%H:%M")] is read back by
    [time_to_minutes] and by [strptime(.., "%H:%M")]. *)
Lemma strftime_HM_read_back m : (0 <= m < 1440)%Z ->
  time_to_minutes (strftime_HM m) = Some m /\ strptime_HM (strftime_HM m) = Some m.
Proof.
  intros Hm.
  assert (Hall : forallb (fun k =>
            let z := Z.of_nat k in
            match time_to_minutes (strftime_HM z), strptime_HM (strftime_HM z) with
            | Some a, Some b => Z.eqb a z && Z.eqb b z
            | _, _ => false
            end) (seq 0 1440) = true) by (vm_compute; reflexivity).
  rewrite forallb_forall in Hall.
  specialize (Hall (Z.to_nat m)). rewrite in_seq, Z2Nat.id in Hall by lia.
  specialize (Hall ltac:(lia)). cbv zeta in Hall.
  destruct (time_to_minutes (strftime_HM m)), (strptime_HM (strftime_HM m)); try discriminate.
  bool_facts. rewrite !Z.eqb_eq in *. subst. auto.
Qed.

(** X1: a 12-hour time that [strptime(.., "%I:%M%p")] accepts is converted
    by [to_24h] into a string that the QUBO demo's [time_to_minutes] reads
    back as the same number of minutes after midnight. *)
Theorem to_24h_time_to_minutes t m :
  strptime_IMp t = Some m ->
  exists s, to_24h (Some t) = Some (Some s) /\ time_to_minutes s = Some m.
Proof.
  intros H. exists (strftime_HM m). simpl. rewrite H. split; [reflexivity|].
  apply strftime_HM_read_back. eapply strptime_IMp_bound; eauto.
Qed.

Lemma to_24h_time_to_minutes_witness :
  strptime_IMp "1:30PM" = Some 810%Z /\
  exists s, to_24h (Some "1:30PM") = Some (Some s) /\ time_to_minutes s = Some 810%Z.
Proof.
  split; [vm_compute; reflexivity|]. apply to_24h_time_to_minutes. vm_compute. reflexivity.
Defined.

(** X2: when both 12-hour times parse, [enrich] stores as
    [duration_minutes] of the converted times exactly the difference in
    minutes between the end and the begin time. *)
Theorem enrich_duration_minutes b e mb me :
  strptime_IMp b = Some mb -> strptime_IMp e = Some me ->
  exists b24 e24, to_24h (Some b) = Some (Some b24) /\ to_24h (Some e) = Some (Some e24) /\
    duration_minutes (Some b24) (Some e24) = Some (Some (me - mb)%Z).
Proof.
  intros Hb He. exists (strftime_HM mb), (strftime_HM me). simpl. rewrite Hb, He.
  split; [reflexivity|]. split; [reflexivity|].
  apply strptime_IMp_bound in Hb. apply strptime_IMp_bound in He.
  apply strftime_HM_read_back in Hb as [_ Hb]. apply strftime_HM_read_back in He as [_ He].
  rewrite Hb, He. simpl. rewrite Z.div_mul by lia. reflexivity.
Qed.

Lemma enrich_duration_minutes_witness :
  strptime_IMp "9:30AM" = Some 570%Z /\ strptime_IMp "10:50AM" = Some 650%Z /\
  exists b24 e24, to_24h (Some "9:30AM") = Some (Some b24) /\
    to_24h (Some "10:50AM") = Some (Some e24) /\
    duration_minutes (Some b24) (Some e24) = Some (Some (650 - 570)%Z).
Proof.
  split; [vm_compute; reflexivity|]. split; [vm_compute; reflexivity|].
  apply enrich_duration_minutes; vm_compute; reflexivity.
Defined.

(** ** Time slots and the start slots of the ILP variables *)

Lemma filter_concat {A} (f : A -> bool) (L : list (list A)) :
  filter f (List.concat L) = List.concat (map (filter f) L).
Proof. induction L as [|l L IH]; simpl; [reflexivity|]. rewrite filter_app, IH. reflexivity. Qed.

Lemma filter_day_prefix d d' b (hours : list string) :
  (forall x, String.prefix d (d' ++ x) = b) ->
  filter (fun t => String.prefix d t) (map (fun hour => d' ++ "_" ++ hour) hours) =
  if b then map (fun hour => d' ++ "_" ++ hour) hours else [].
Proof.
  intros Hb. induction hours as [|h hs IH]; [destruct b; reflexivity|].
  rewrite map_cons. cbn [filter]. rewrite Hb, IH. destruct b; reflexivity.
Qed.

Lemma slots_of_day_build days hours d :
  In d days ->
  (forall d' x, In d' days -> String.prefix d (d' ++ x) = String.eqb d d') ->
  NoDup days ->
  slots_of_day (build_time_slots days hours) d =
  map (fun h => d ++ "_" ++ fmt02 h ++ ":00") hours.
Proof.
  intros Hin Hpre Hnd. unfold slots_of_day, build_time_slots.
  rewrite filter_concat, map_map.
  rewrite (map_ext_in _ (fun d' => if String.eqb d d'
                                   then map (fun hour => d' ++ "_" ++ hour)
                                          (map (fun h => fmt02 h ++ ":00") hours)
                                   else [])).
  2:{ intros d' Hd'. apply filter_day_prefix. intros x. apply Hpre, Hd'. }
  induction days as [|d0 ds IH]; [contradiction|].
  inversion Hnd as [|? ? Hnotin Hnd']; subst. simpl.
  destruct Hin as [E|Hin]; [subst d0|].
  - rewrite String.eqb_refl, map_map.
    rewrite (map_ext_in _ (fun _ => [])).
    2:{ intros d' Hd'. destruct (String.eqb_spec d d'); [subst; contradiction|reflexivity]. }
    clear. induction ds as [|? ds IH]; simpl; [apply app_nil_r|exact IH].
  - destruct (String.eqb_spec d d0); [subst; contradiction|].
    apply IH; auto. intros d' x Hd'. apply Hpre. right. exact Hd'.
Qed.

Lemma classical_days_prefix d d' x :
  In d classical_days -> In d' classical_days -> String.prefix d (d' ++ x) = String.eqb d d'.
Proof.
  intros [<-|[<-|[<-|[<-|[<-|[]]]]]] [<-|[<-|[<-|[<-|[<-|[]]]]]]; destruct x; reflexivity.
Qed.

Lemma classical_slots_of_day hours d :
  In d classical_days ->
  slots_of_day (build_time_slots classical_days hours) d =
  map (fun h => d ++ "_" ++ fmt02 h ++ ":00") hours.
Proof.
  intros Hd. apply slots_of_day_build; auto.
  - intros d' x Hd'. apply classical_days_prefix; auto.
  - repeat constructor; simpl; intuition discriminate.
Qed.

Lemma mini_slots_of_day hours d :
  In d mini_days ->
  slots_of_day (build_time_slots mini_days hours) d =
  map (fun h => d ++ "_" ++ fmt02 h ++ ":00") hours.
Proof.
  intros Hd. apply slots_of_day_build; auto.
  - intros d' x Hd'. destruct Hd as [<-|[]], Hd' as [<-|[]]. destruct x; reflexivity.
  - repeat constructor; simpl; intuition.
Qed.

(** X3: the per-day slot lists [slots_per_day[day]] that [build_and_run_model]
    derives from [build_time_slots(hours)] are exactly that day's slots
    ["<day>_<HH>:00"], one per hour, in the order of the hours; in both
    [scheduling-classical.py] and [scheduling-classical-mini.py]. *)
Theorem slots_per_day_of_build_time_slots hours d :
  (In d classical_days ->
   slots_of_day (build_time_slots classical_days hours) d =
   map (fun h => d ++ "_" ++ fmt02 h ++ ":00") hours) /\
  (In d mini_days ->
   slots_of_day (build_time_slots mini_days hours) d =
   map (fun h => d ++ "_" ++ fmt02 h ++ ":00") hours).
Proof. split; [apply classical_slots_of_day | apply mini_slots_of_day]. Qed.

Lemma skipn_nth_error {A} (l : list A) k :
  (k < List.length l)%nat -> exists t, nth_error l k = Some t /\ skipn k l = t :: skipn (S k) l.
Proof.
  revert k. induction l as [|a l IH]; intros k Hk; simpl in Hk; [lia|].
  destruct k as [|k]; simpl.
  - exists a. auto.
  - apply IH. lia.
Qed.

Lemma foldM_start_slots (ds : list string) m : forall k acc,
  (k + m <= List.length ds)%nat ->
  foldM (fun acc i => t <- nth_error ds i ;; Some (acc ++ [t])%list) (seq k m) acc =
  Some (acc ++ firstn m (skipn k ds))%list.
Proof.
  induction m as [|m IH]; intros k acc Hk; simpl.
  - rewrite app_nil_r. reflexivity.
  - destruct (skipn_nth_error ds k ltac:(lia)) as [t [Ht Hs]].
    rewrite Ht. simpl. rewrite IH by lia. rewrite Hs. simpl.
    rewrite <- app_assoc. reflexivity.
Qed.

Lemma foldM_start_slots_out (ds : list string) m : forall k acc,
  (k <= List.length ds)%nat -> (List.length ds < k + m)%nat ->
  foldM (fun acc i => t <- nth_error ds i ;; Some (acc ++ [t])%list) (seq k m) acc = None.
Proof.
  induction m as [|m IH]; intros k acc Hk Hm; [lia|]. simpl.
  destruct (Nat.eq_dec k (List.length ds)) as [E|E].
  - subst k. rewrite (proj2 (nth_error_None ds _)) by lia. reflexivity.
  - destruct (skipn_nth_error ds k ltac:(lia)) as [t [Ht _]].
    rewrite Ht. simpl. apply IH; lia.
Qed.

Lemma start_slots_firstn ds n :
  (Z.to_nat n <= List.length ds)%nat -> start_slots ds n = Some (firstn (Z.to_nat n) ds).
Proof. intros H. unfold start_slots. rewrite foldM_start_slots by lia. reflexivity. Qed.

Lemma start_slots_out ds n :
  (List.length ds < Z.to_nat n)%nat -> start_slots ds n = None.
Proof. intros H. unfold start_slots. apply foldM_start_slots_out; lia. Qed.

Lemma in_firstn_nth_error {A} (x : A) : forall k l,
  In x (firstn k l) -> exists i, (i < k)%nat /\ nth_error l i = Some x.
Proof.
  intros k l. revert k. induction l as [|a l IH]; intros [|k] Hin; simpl in Hin; try contradiction.
  destruct Hin as [<-|Hin].
  - exists 0%nat. split; [lia|reflexivity].
  - destruct (IH k Hin) as [i [Hi Hn]]. exists (S i). split; [lia|exact Hn].
Qed.

Lemma day_vars_None {W} md ts meeting room (w : W) day :
  day_vars md ts meeting room w day = None <-> (md meeting < 1)%Z.
Proof.
  unfold day_vars. set (ds := slots_of_day ts day).
  destruct (Z.lt_ge_cases (md meeting) 1) as [Hlt|Hge].
  - rewrite start_slots_out by lia. simpl. tauto.
  - rewrite start_slots_firstn by lia. simpl. split; [discriminate|lia].
Qed.

Lemma day_vars_start {W} md ts meeting room (w : W) day xs m t r w' :
  day_vars md ts meeting room w day = Some xs -> In (m, t, r, w') xs ->
  m = meeting /\ r = room /\ w' = w /\
  exists i, nth_error (slots_of_day ts day) i = Some t /\
            (i + Z.to_nat (md meeting) <= List.length (slots_of_day ts day))%nat.
Proof.
  intros H Hin.
  assert (Hge : (1 <= md meeting)%Z).
  { destruct (Z.lt_ge_cases (md meeting) 1) as [Hlt|Hge]; [|exact Hge].
    apply (day_vars_None md ts meeting room w day) in Hlt. congruence. }
  unfold day_vars in H. rewrite start_slots_firstn in H by lia. simpl in H.
  injection H as <-. apply in_map_iff in Hin as [t' [E Ht']]. injection E as <- <- <- <-.
  split; [reflexivity|]. split; [reflexivity|]. split; [reflexivity|].
  apply in_firstn_nth_error in Ht' as [i [Hi Hn]]. exists i. split; [exact Hn|lia].
Qed.

Lemma concatM_Some {A B} (f : A -> option (list B)) l :
  (forall a, In a l -> exists ys, f a = Some ys) -> exists ys, concatM f l = Some ys.
Proof.
  induction l as [|a l IH]; intros H; simpl; [eauto|].
  destruct (H a (or_introl eq_refl)) as [ys Hys]. rewrite Hys. simpl.
  destruct IH as [zs Hzs]; [intros b Hb; apply H; right; exact Hb|].
  rewrite Hzs. simpl. eauto.
Qed.

Lemma day_vars_Some {W} md ts meeting room (w : W) day :
  (1 <= md meeting)%Z -> exists xs, day_vars md ts meeting room w day = Some xs.
Proof.
  intros H. destruct (day_vars md ts meeting room w day) as [xs|] eqn:E; [eauto|].
  apply day_vars_None in E. lia.
Qed.

Lemma classical_vars_Some md me rc ts meetings rooms :
  (forall m, In m meetings -> (1 <= md m)%Z) ->
  exists xs, classical_vars md me rc ts meetings rooms = Some xs.
Proof.
  intros Hd. unfold classical_vars. apply concatM_Some. intros m Hm.
  apply concatM_Some. intros r _. destruct (rc r <? me m)%Z; [eauto|].
  apply concatM_Some. intros day _. apply day_vars_Some, Hd, Hm.
Qed.

Lemma mini_vars_Some md me rc ts meetings rooms :
  (forall m, In m meetings -> (1 <= md m)%Z) ->
  exists xs, mini_vars md me rc ts meetings rooms = Some xs.
Proof.
  intros Hd. unfold mini_vars. apply concatM_Some. intros m Hm.
  apply concatM_Some. intros [r_idx r] _. destruct (rc r <? me m)%Z; [eauto|].
  apply concatM_Some. intros day _. apply day_vars_Some, Hd, Hm.
Qed.

Lemma classical_vars_start md me rc ts meetings rooms xs m t r w :
  classical_vars md me rc ts meetings rooms = Some xs -> In (m, t, r, w) xs ->
  exists day i, In day classical_days /\ nth_error (slots_of_day ts day) i = Some t /\
    (i + Z.to_nat (md m) <= List.length (slots_of_day ts day))%nat.
Proof.
  unfold classical_vars. intros H Hin.
  destruct (concatM_in _ _ _ _ H Hin) as [meeting [ys [_ [Hm Hy]]]].
  destruct (concatM_in _ _ _ _ Hm Hy) as [room [zs [_ [Hr Hz]]]].
  destruct (rc room <? me meeting)%Z; [injection Hr as <-; contradiction|].
  destruct (concatM_in _ _ _ _ Hr Hz) as [day [us [Hday [Hd Hu]]]].
  destruct (day_vars_start _ _ _ _ _ _ _ _ _ _ _ Hd Hu) as [-> [_ [_ [i Hi]]]].
  exists day, i. auto.
Qed.

Lemma mini_vars_start md me rc ts meetings rooms xs m t r w :
  mini_vars md me rc ts meetings rooms = Some xs -> In (m, t, r, w) xs ->
  exists day i, In day mini_days /\ nth_error (slots_of_day ts day) i = Some t /\
    (i + Z.to_nat (md m) <= List.length (slots_of_day ts day))%nat.
Proof.
  unfold mini_vars. intros H Hin.
  destruct (concatM_in _ _ _ _ H Hin) as [meeting [ys [_ [Hm Hy]]]].
  destruct (concatM_in _ _ _ _ Hm Hy) as [[r_idx room] [zs [_ [Hr Hz]]]].
  destruct (rc room <? me meeting)%Z; [injection Hr as <-; contradiction|].
  destruct (concatM_in _ _ _ _ Hr Hz) as [day [us [Hday [Hd Hu]]]].
  destruct (day_vars_start _ _ _ _ _ _ _ _ _ _ _ Hd Hu) as [-> [_ [_ [i Hi]]]].
  exists day, i. auto.
Qed.

(** X4: when every meeting has a duration of at least one slot, the
    variable loops of both ILP models run without an [IndexError], and each
    variable [x[m, t, r]] starts at a slot [t] of some day at a position [i]
    with [i + duration(m) <= len(day_slots)]: the meeting fits in the
    remaining slots of that day. *)
Theorem ilp_vars_fit_in_day md me rc ts meetings rooms :
  (forall m, In m meetings -> (1 <= md m)%Z) ->
  (exists xs, classical_vars md me rc ts meetings rooms = Some xs /\
     forall m t r w, In (m, t, r, w) xs ->
     exists day i, In day classical_days /\ nth_error (slots_of_day ts day) i = Some t /\
       (i + Z.to_nat (md m) <= List.length (slots_of_day ts day))%nat) /\
  (exists xs, mini_vars md me rc ts meetings rooms = Some xs /\
     forall m t r w, In (m, t, r, w) xs ->
     exists day i, In day mini_days /\ nth_error (slots_of_day ts day) i = Some t /\
       (i + Z.to_nat (md m) <= List.length (slots_of_day ts day))%nat).
Proof.
  intros Hd. split.
  - destruct (classical_vars_Some md me rc ts meetings rooms Hd) as [xs Hxs].
    exists xs. split; [exact Hxs|]. intros m t r w Hin. eapply classical_vars_start; eauto.
  - destruct (mini_vars_Some md me rc ts meetings rooms Hd) as [xs Hxs].
    exists xs. split; [exact Hxs|]. intros m t r w Hin. eapply mini_vars_start; eauto.
Qed.

(** X5: in the variable loop of [build_and_run_model], the start slots of a
    meeting on a day raise an [IndexError] exactly when the meeting's
    duration is below 1: [range(len(day_slots) - duration + 1)] then
    reaches the index [len(day_slots)]. *)
Theorem day_vars_index_error md ts meeting room day :
  day_vars md ts meeting room tt day = None <-> (md meeting < 1)%Z.
Proof. apply day_vars_None. Qed.

Lemma calculate_duration_slots_pos b e : (1 <= calculate_duration_slots b e)%Z.
Proof.
  unfold calculate_duration_slots.
  destruct b as [|bs], e as [|es]; try lia.
  destruct (String.eqb bs "TBA"); [lia|].
  destruct (strptime_IMp bs), (strptime_IMp es); lia.
Qed.

Lemma nth_error_map_seq (f : nat -> string) s n i t :
  nth_error (map f (seq s n)) i = Some t -> (i < n)%nat /\ t = f (s + i)%nat.
Proof.
  rewrite nth_error_map. destruct (nth_error (seq s n) i) as [h|] eqn:E; simpl; [|discriminate].
  intros Ht. injection Ht as <-.
  assert (Hi : (i < n)%nat).
  { rewrite <- (length_seq n s). apply nth_error_Some. congruence. }
  split; [exact Hi|]. apply (nth_error_nth _ _ 0%nat) in E. rewrite seq_nth in E by exact Hi.
  subst h. reflexivity.
Qed.

(** X6: with the durations computed by [calculate_duration_slots] and the
    slots of [build_time_slots(TIME_SLOT_HOURS)], the variable loops never
    raise, and every variable starts at a slot ["<day>_<HH>:00"] with
    [8 <= HH] and [HH + duration <= 22] in [scheduling-classical.py]
    ([<= 11] in [scheduling-classical-mini.py]): each candidate placement
    ends within the modelled hours of its day. *)
Theorem ilp_vars_within_hours (bg en : string -> Cell) me rc meetings rooms :
  (exists xs,
     classical_vars (fun m => calculate_duration_slots (bg m) (en m)) me rc
       (build_time_slots classical_days classical_time_slot_hours) meetings rooms = Some xs /\
     forall m t r w, In (m, t, r, w) xs ->
     exists day h, In day classical_days /\ t = day ++ "_" ++ fmt02 h ++ ":00" /\
       (8 <= h)%nat /\ (h + Z.to_nat (calculate_duration_slots (bg m) (en m)) <= 22)%nat) /\
  (exists xs,
     mini_vars (fun m => calculate_duration_slots (bg m) (en m)) me rc
       (build_time_slots mini_days mini_time_slot_hours) meetings rooms = Some xs /\
     forall m t r w, In (m, t, r, w) xs ->
     exists day h, In day mini_days /\ t = day ++ "_" ++ fmt02 h ++ ":00" /\
       (8 <= h)%nat /\ (h + Z.to_nat (calculate_duration_slots (bg m) (en m)) <= 11)%nat).
Proof.
  assert (Hd : forall m, In m meetings -> (1 <= calculate_duration_slots (bg m) (en m))%Z)
    by (intros; apply calculate_duration_slots_pos).
  split.
  - destruct (classical_vars_Some _ me rc (build_time_slots classical_days classical_time_slot_hours)
                _ rooms Hd) as [xs Hxs].
    exists xs. split; [exact Hxs|]. intros m t r w Hin.
    destruct (classical_vars_start _ _ _ _ _ _ _ _ _ _ _ Hxs Hin) as [day [i [Hday [Hn Hle]]]].
    rewrite classical_slots_of_day in Hn, Hle by exact Hday.
    rewrite length_map in Hle. unfold classical_time_slot_hours in *. rewrite length_seq in Hle.
    apply nth_error_map_seq in Hn as [Hi ->].
    exists day, (8 + i)%nat. repeat split; auto; lia.
  - destruct (mini_vars_Some _ me rc (build_time_slots mini_days mini_time_slot_hours)
                _ rooms Hd) as [xs Hxs].
    exists xs. split; [exact Hxs|]. intros m t r w Hin.
    destruct (mini_vars_start _ _ _ _ _ _ _ _ _ _ _ Hxs Hin) as [day [i [Hday [Hn Hle]]]].
    rewrite mini_slots_of_day in Hn, Hle by exact Hday.
    rewrite length_map in Hle. unfold mini_time_slot_hours in *. rewrite length_seq in Hle.
    apply nth_error_map_seq in Hn as [Hi ->].
    exists day, (8 + i)%nat. repeat split; auto; lia.
Qed.

Lemma ilp_vars_fit_in_day_witness :
  (forall m, In m ["18-100-A"] -> (1 <= 2)%Z) /\
  ((exists xs, classical_vars (fun _ => 2%Z) (fun _ => 20%Z) (fun _ => 40%Z)
                 (build_time_slots classical_days mini_time_slot_hours) ["18-100-A"] ["HH B103"] = Some xs /\
     forall m t r w, In (m, t, r, w) xs ->
     exists day i, In day classical_days /\
       nth_error (slots_of_day (build_time_slots classical_days mini_time_slot_hours) day) i = Some t /\
       (i + Z.to_nat 2 <= List.length (slots_of_day (build_time_slots classical_days mini_time_slot_hours) day))%nat) /\
   (exists xs, mini_vars (fun _ => 2%Z) (fun _ => 20%Z) (fun _ => 40%Z)
                 (build_time_slots classical_days mini_time_slot_hours) ["18-100-A"] ["HH B103"] = Some xs /\
     forall m t r w, In (m, t, r, w) xs ->
     exists day i, In day mini_days /\
       nth_error (slots_of_day (build_time_slots classical_days mini_time_slot_hours) day) i = Some t /\
       (i + Z.to_nat 2 <= List.length (slots_of_day (build_time_slots classical_days mini_time_slot_hours) day))%nat)).
Proof.
  split; [intros; lia|].
  apply (ilp_vars_fit_in_day (fun _ => 2%Z) (fun _ => 20%Z) (fun _ => 40%Z)
           (build_time_slots classical_days mini_time_slot_hours) ["18-100-A"] ["HH B103"]).
  intros m _. lia.
Defined.

(** ** Occupancy: [get_active_vars_at_time] *)

Lemma list_index_from_first x l : forall k i,
  nth_error l i = Some x -> (forall j, (j < i)%nat -> nth_error l j <> Some x) ->
  list_index_from x l k = Some (k + i)%nat.
Proof.
  induction l as [|y l IH]; intros k i Hi Hfirst; [destruct i; discriminate|].
  simpl. destruct i as [|i].
  - injection Hi as ->. rewrite String.eqb_refl. f_equal. lia.
  - destruct (String.eqb_spec y x) as [E|E].
    + subst y. exfalso. apply (Hfirst 0%nat); [lia|reflexivity].
    + rewrite (IH (S k) i Hi). { f_equal. lia. }
      intros j Hj. apply (Hfirst (S j)). lia.
Qed.

Lemma list_index_NoDup x l i :
  NoDup l -> nth_error l i = Some x -> list_index x l = Some i.
Proof.
  intros Hnd Hi. unfold list_index. rewrite (list_index_from_first x l 0 i Hi); [reflexivity|].
  intros j Hj Hjx. rewrite NoDup_nth_error in Hnd.
  assert (j = i); [|lia].
  apply Hnd; [apply nth_error_Some; congruence | congruence].
Qed.

Lemma in_py_range a b z : In z (py_range a b) <-> (a <= z < b)%Z.
Proof.
  unfold py_range. rewrite in_map_iff. split.
  - intros [k [<- Hk]]. apply in_seq in Hk. lia.
  - intros Hz. exists (Z.to_nat (z - a)). split; [lia|]. apply in_seq. lia.
Qed.

Lemma var_key_eqb_spec p q : var_key_eqb p q = true <-> p = q.
Proof.
  destruct p as [[a b] c], q as [[a' b'] c']. simpl.
  rewrite !andb_true_iff, !String.eqb_eq. split.
  - intros [[-> ->] ->]. reflexivity.
  - intros E. injection E. auto.
Qed.

Lemma existsb_var_key p l : existsb (var_key_eqb p) l = true <-> In p l.
Proof.
  rewrite existsb_exists. split.
  - intros [q [Hq E]]. apply var_key_eqb_spec in E. subst. exact Hq.
  - intros Hp. exists p. split; [exact Hp|]. apply var_key_eqb_spec. reflexivity.
Qed.

Lemma concatM_in_iff {A B} (f : A -> option (list B)) : forall l ys y,
  concatM f l = Some ys ->
  (In y ys <-> exists a xs, In a l /\ f a = Some xs /\ In y xs).
Proof.
  induction l as [|a r IH]; simpl; intros ys y H.
  - injection H as <-. split; [contradiction|]. intros [a [xs [[] _]]].
  - apply obind_Some in H as [xs [Hxs H]]. apply obind_Some in H as [zs [Hzs H]].
    injection H as <-. rewrite in_app_iff, (IH zs y Hzs). split.
    + intros [Hy|[a' [xs' [Ha' [Hf Hin]]]]].
      * exists a, xs. auto.
      * exists a', xs'. auto.
    + intros [a' [xs' [[E|Ha'] [Hf Hin]]]].
      * subst a'. left. congruence.
      * right. exists a', xs'. auto.
Qed.

(** X7: for a slot [target_t] of a day of [days] (the text before its first
    [_]), at position [ti] of that day's slots, which hold no duplicates,
    [get_active_vars_at_time] returns exactly the variables
    [x[m, s, target_r]] of the candidate meetings ([meeting_subset], or all
    [meetings] when it is empty) whose start slot [s] sits at a position
    [i] of the day with [i <= ti < i + duration(m)]: the meetings that
    occupy room [target_r] during [target_t]. *)
Theorem get_active_vars_spec md ts days meetings x_keys target_t target_r subset day ti :
  hd EmptyString (py_split "_"%char target_t) = day ->
  In day days ->
  NoDup (slots_of_day ts day) ->
  nth_error (slots_of_day ts day) ti = Some target_t ->
  exists act,
    get_active_vars_at_time md ts days meetings x_keys target_t target_r subset = Some act /\
    forall m s r, In (m, s, r) act <->
      r = target_r /\ In m (match subset with [] => meetings | _ => subset end) /\
      In (m, s, target_r) x_keys /\
      exists i, nth_error (slots_of_day ts day) i = Some s /\
                (i <= ti < i + Z.to_nat (md m))%nat.
Proof.
  intros Hday Hin Hnd Hti. unfold get_active_vars_at_time. rewrite Hday.
  assert (Hex : existsb (String.eqb day) days = true).
  { apply existsb_exists. exists day. split; [exact Hin | apply String.eqb_refl]. }
  rewrite Hex. cbn [negb]. rewrite (list_index_NoDup _ _ _ Hnd Hti).
  assert (Hlen : (ti < List.length (slots_of_day ts day))%nat)
    by (apply nth_error_Some; congruence).
  match goal with |- exists act, concatM ?F ?C = Some act /\ _ =>
    assert (Hinner : forall meet, exists ys, F meet = Some ys) end.
  { intros meet. apply concatM_Some. intros idx Hidx. apply in_py_range in Hidx.
    destruct (nth_error (slots_of_day ts day) (Z.to_nat idx)) as [st|] eqn:E; [simpl; eauto|].
    apply nth_error_None in E. lia. }
  match goal with |- exists act, concatM ?F ?C = Some act /\ _ =>
    destruct (concatM_Some F C (fun a _ => Hinner a)) as [act Hact] end.
  exists act. split; [exact Hact|].
  intros m s r. rewrite (concatM_in_iff _ _ _ _ Hact). split.
  - intros [meet [ys [Hmeet [Hys Hin']]]]. cbv beta in Hys.
    rewrite (concatM_in_iff _ _ _ _ Hys) in Hin'.
    destruct Hin' as [idx [zs [Hidx [Hz Hinz]]]]. apply in_py_range in Hidx.
    destruct (nth_error (slots_of_day ts day) (Z.to_nat idx)) as [st|] eqn:Est; [|discriminate].
    simpl in Hz. injection Hz as <-.
    destruct (existsb (var_key_eqb (meet, st, target_r)) x_keys) eqn:Ex; [|contradiction].
    destruct Hinz as [E|[]]. injection E as <- <- <-.
    apply existsb_var_key in Ex.
    split; [reflexivity|]. split; [exact Hmeet|]. split; [exact Ex|].
    exists (Z.to_nat idx). split; [exact Est|]. lia.
  - intros [-> [Hm [Hx [i [Hi Hwin]]]]].
    destruct (Hinner m) as [ys Hys]. exists m, ys. split; [exact Hm|]. split; [exact Hys|].
    cbv beta in Hys. rewrite (concatM_in_iff _ _ _ _ Hys).
    exists (Z.of_nat i), [(m, s, target_r)]. split; [apply in_py_range; lia|].
    split; [|left; reflexivity].
    rewrite Nat2Z.id, Hi. simpl. rewrite (proj2 (existsb_var_key _ _) Hx). reflexivity.
Qed.

Lemma get_active_vars_spec_witness :
  hd EmptyString (py_split "_"%char "Mon_09:00") = "Mon" /\
  In "Mon" mini_days /\
  NoDup (slots_of_day (build_time_slots mini_days mini_time_slot_hours) "Mon") /\
  nth_error (slots_of_day (build_time_slots mini_days mini_time_slot_hours) "Mon") 1 = Some "Mon_09:00" /\
  exists act,
    get_active_vars_at_time (fun _ => 2%Z) (build_time_slots mini_days mini_time_slot_hours)
      mini_days ["18-100-A"] [("18-100-A", "Mon_08:00", "HH B103")]
      "Mon_09:00" "HH B103" [] = Some act /\
    forall m s r, In (m, s, r) act <->
      r = "HH B103" /\ In m ["18-100-A"] /\ In (m, s, "HH B103") [("18-100-A", "Mon_08:00", "HH B103")] /\
      exists i, nth_error (slots_of_day (build_time_slots mini_days mini_time_slot_hours) "Mon") i = Some s /\
                (i <= 1 < i + Z.to_nat 2)%nat.
Proof.
  assert (Hnd : NoDup (slots_of_day (build_time_slots mini_days mini_time_slot_hours) "Mon")).
  { vm_compute. repeat constructor; simpl; intuition discriminate. }
  split; [vm_compute; reflexivity|]. split; [left; reflexivity|].
  split; [exact Hnd|]. split; [vm_compute; reflexivity|].
  apply (get_active_vars_spec (fun _ => 2%Z) (build_time_slots mini_days mini_time_slot_hours)
           mini_days ["18-100-A"] [("18-100-A", "Mon_08:00", "HH B103")]
           "Mon_09:00" "HH B103" [] "Mon" 1).
  - vm_compute. reflexivity.
  - left. reflexivity.
  - exact Hnd.
  - vm_compute. reflexivity.
Defined.

(** ** Overlap test *)

Lemma common_days_comm da db : common_days da db = common_days db da.
Proof.
  apply Bool.eq_true_iff_eq. rewrite !common_days_spec.
  split; intros [d [H1 H2]]; exists d; auto.
Qed.

(** X8: [overlaps] is symmetric, in its result and in its errors: swapping
    the two sections gives the same answer, and one call raises exactly
    when the other does. *)
Theorem overlaps_comm sa sb : overlaps sa sb = overlaps sb sa.
Proof.
  unfold overlaps. rewrite common_days_comm.
  destruct (negb (common_days (days sb) (days sa))); [reflexivity|].
  destruct (time_to_minutes (sec_begin sa)) as [a1|], (time_to_minutes (sec_end sa)) as [a2|],
           (time_to_minutes (sec_begin sb)) as [b1|], (time_to_minutes (sec_end sb)) as [b2|];
    simpl; try reflexivity.
  rewrite orb_comm. reflexivity.
Qed.

(** ** [qubo_to_ising]: key errors and the Ising coefficients *)

Lemma dict_get_present_keys {V} (d : list (string * V)) v :
  dict_get String.eqb d v <> None <-> In v (map fst d).
Proof.
  induction d as [|[k x] r IH]; simpl; [tauto|].
  destruct (String.eqb_spec v k) as [E|E].
  - subst. split; [auto | discriminate].
  - rewrite IH. split; [auto|]. intros [E'|H]; [congruence | exact H].
Qed.

Lemma h0_keys (lin : Linear) v :
  In v (map fst (fold_left (fun h '(var, _) => dict_set String.eqb h var 0) lin []))
  <-> In v (map fst lin).
Proof.
  rewrite <- dict_get_present_keys. split.
  - intros H. rewrite dict_get_present_keys in H.
    assert (Hall : Forall (fun kv => In (fst kv) (map fst lin))
                     (fold_left (fun h '(var, _) => dict_set String.eqb h var 0) lin [])).
    { apply fold_left_invariant; [|constructor].
      intros h [k x] Hk Hh. apply (dict_set_keys String.eqb (fun k => In k (map fst lin)));
        [exact Hh|].
      apply (in_map fst) in Hk. exact Hk. }
    rewrite Forall_forall in Hall. apply in_map_iff in H as [[k x] [<- Hk]].
    exact (Hall _ Hk).
  - intros H. apply h0_present. left. exact H.
Qed.

Lemma ising_linear_loop_keys lin h c h' c' :
  foldM ising_linear_step lin (h, c) = Some (h', c') -> map fst h' = map fst h.
Proof.
  intros H. change (map fst (fst (h', c')) = map fst h).
  eapply (foldM_invariant (fun st => map fst (fst st) = map fst h)); [| | exact H]; [|reflexivity].
  intros [hx cx] [v x] [hy cy] _ Hx Hs. unfold ising_linear_step in Hs.
  apply obind_Some in Hs as [h1 [Hi Hs]]. injection Hs as <- <-. simpl in *.
  rewrite (dict_iadd_keys _ _ _ _ _ Hi). exact Hx.
Qed.

Lemma ising_quad_step_keys h J c kc h' J' c' :
  ising_quad_step (h, J, c) kc = Some (h', J', c') -> map fst h' = map fst h.
Proof.
  destruct kc as [[a b] x]. unfold ising_quad_step. intros H.
  apply obind_Some in H as [h1 [H1 H]]. apply obind_Some in H as [h2 [H2 H]].
  injection H as <- <- <-.
  rewrite (dict_iadd_keys _ _ _ _ _ H2), (dict_iadd_keys _ _ _ _ _ H1). reflexivity.
Qed.

Lemma ising_quad_loop_key_error : forall quad h J c,
  (exists a b x, In ((a, b), x) quad /\ (~ In a (map fst h) \/ ~ In b (map fst h))) ->
  foldM ising_quad_step quad (h, J, c) = None.
Proof.
  induction quad as [|[[a b] x] r IH]; intros h J c [a' [b' [x' [Hin Hmiss]]]]; [contradiction|].
  cbn [foldM]. destruct (ising_quad_step (h, J, c) ((a, b), x)) as [[[h' J'] c']|] eqn:Hs;
    [|reflexivity].
  cbn [obind]. pose proof (ising_quad_step_keys _ _ _ _ _ _ _ Hs) as Hk.
  destruct Hin as [E|Hin].
  - injection E as <- <- <-. exfalso. unfold ising_quad_step in Hs.
    apply obind_Some in Hs as [h1 [H1 Hs]]. apply obind_Some in Hs as [h2 [H2 _]].
    unfold dict_iadd in H1, H2.
    destruct (dict_get String.eqb h a) eqn:Ga; [|discriminate].
    injection H1 as <-.
    destruct (dict_get String.eqb (dict_set String.eqb h a (q + - x / 4)) b) eqn:Gb;
      [|discriminate].
    assert (Ha : In a (map fst h)) by (apply dict_get_present_keys; congruence).
    assert (Hb : In b (map fst h)).
    { rewrite <- (dict_set_keys_present String.eqb h a (q + - x / 4) q Ga).
      apply dict_get_present_keys. congruence. }
    tauto.
  - apply IH. exists a', b', x'. rewrite Hk. auto.
Qed.

Lemma forallb_false_exists {A} (f : A -> bool) l :
  forallb f l = false -> exists x, In x l /\ f x = false.
Proof.
  induction l as [|y l IH]; simpl; [discriminate|].
  destruct (f y) eqn:E; simpl; [|eauto].
  intros H. destruct (IH H) as [x [Hx Hf]]. eauto.
Qed.

(** X9: [qubo_to_ising] raises a [KeyError] exactly when some quadratic key
    [(a, b)] names a variable [a] or [b] that is not a key of the linear
    map (the [h[var_a]] / [h[var_b]] updates then fail); otherwise it
    returns an Ising model. *)
Theorem qubo_to_ising_key_error lin quad off :
  qubo_to_ising lin quad off = None <->
  exists a b x, In ((a, b), x) quad /\ (~ In a (map fst lin) \/ ~ In b (map fst lin)).
Proof.
  split.
  - intros Hnone.
    destruct (forallb (fun kx => existsb (String.eqb (fst (fst kx))) (map fst lin)
                                 && existsb (String.eqb (snd (fst kx))) (map fst lin)) quad)
      eqn:Hall.
    + exfalso. rewrite forallb_forall in Hall.
      destruct (qubo_to_ising_energy (fun _ => 0) lin quad off) as [m [Hm _]]; [|congruence].
      intros a b x Hin. specialize (Hall _ Hin). simpl in Hall.
      apply andb_true_iff in Hall as [Ha Hb]. apply existsb_exists in Ha as [a' [Ha E]].
      apply existsb_exists in Hb as [b' [Hb E']].
      apply String.eqb_eq in E, E'. subst. auto.
    + apply forallb_false_exists in Hall as [[[a b] x] [Hin Hf]]. simpl in Hf.
      exists a, b, x. split; [exact Hin|].
      apply andb_false_iff in Hf as [Hf|Hf]; [left|right]; intros Hk;
        apply Bool.diff_false_true; rewrite <- Hf;
        apply existsb_exists; eexists; (split; [exact Hk | apply String.eqb_refl]).
  - intros Hbad. unfold qubo_to_ising.
    destruct (foldM ising_linear_step lin
                (fold_left (fun h '(var, _) => dict_set String.eqb h var 0) lin [], off))
      as [[h c]|] eqn:H1; [|reflexivity].
    simpl. apply ising_quad_loop_key_error.
    destruct Hbad as [a [b [x [Hin Hmiss]]]]. exists a, b, x. split; [exact Hin|].
    rewrite (ising_linear_loop_keys _ _ _ _ _ H1), !h0_keys. exact Hmiss.
Qed.

Lemma dict_iadd_get (h : Linear) k x h1 v :
  dict_iadd String.eqb h k x = Some h1 ->
  dict_get String.eqb h1 v =
  option_map (fun y => if String.eqb k v then y + x else y) (dict_get String.eqb h v).
Proof.
  unfold dict_iadd. destruct (dict_get String.eqb h k) as [y|] eqn:G; [|discriminate].
  intros H. injection H as <-. destruct (String.eqb_spec k v) as [E|E].
  - subst v. rewrite dict_get_set_same by apply String.eqb_refl. rewrite G. reflexivity.
  - rewrite dict_get_set_other_gen by (exact string_eqb_true || exact E).
    destruct (dict_get String.eqb h v); reflexivity.
Qed.

Lemma ising_linear_coeffs : forall lin h c h' c',
  foldM ising_linear_step lin (h, c) = Some (h', c') ->
  (forall v y, dict_get String.eqb h v = Some y ->
     exists y', dict_get String.eqb h' v = Some y' /\
       y' == y - qsum (map (fun vx => if String.eqb (fst vx) v then snd vx / 2 else 0) lin)) /\
  c' == c + qsum (map (fun vx => snd vx / 2) lin).
Proof.
  induction lin as [|[k x] r IH]; intros h c h' c' H.
  - injection H as <- <-. split; [intros v y Hy; exists y; split; [exact Hy|]|]; simpl; ring.
  - cbn [foldM] in H. apply obind_Some in H as [[h1 c1] [Hs H]].
    unfold ising_linear_step in Hs. apply obind_Some in Hs as [h2 [Hi Hs]].
    injection Hs as <- <-.
    destruct (IH _ _ _ _ H) as [Hv Hc]. split.
    + intros v y Hy. rewrite map_cons, qsum_cons.
      destruct (Hv v (if String.eqb k v then y + - x / 2 else y)) as [y' [Hy' E]].
      { rewrite (dict_iadd_get _ _ _ _ _ Hi), Hy. reflexivity. }
      exists y'. split; [exact Hy'|]. rewrite E. cbn [fst snd].
      destruct (String.eqb k v); field.
    + rewrite map_cons, qsum_cons, Hc. cbn [snd]. ring.
Qed.

Lemma quad_accum_get q key x k :
  dict_get_default pair_eqb (quad_accum q key x) k 0 ==
  dict_get_default pair_eqb q k 0 + (if pair_eqb key k then x else 0).
Proof.
  destruct (pair_eqb key k) eqn:E.
  - apply pair_eqb_true in E. subst k. rewrite quad_accum_sum. reflexivity.
  - unfold quad_accum, dict_get_default at 1.
    rewrite dict_get_set_other_gen.
    + fold (dict_get_default pair_eqb q k 0). ring.
    + exact pair_eqb_true.
    + intros ->. rewrite pair_eqb_refl in E. discriminate.
Qed.

Lemma ising_quad_coeffs : forall quad h J c h' J' c',
  foldM ising_quad_step quad (h, J, c) = Some (h', J', c') ->
  (forall v y, dict_get String.eqb h v = Some y ->
     exists y', dict_get String.eqb h' v = Some y' /\
       y' == y - qsum (map (fun kx => (if String.eqb (fst (fst kx)) v then snd kx / 4 else 0)
                                      + (if String.eqb (snd (fst kx)) v then snd kx / 4 else 0))
                          quad)) /\
  (forall k, dict_get_default pair_eqb J' k 0 ==
     dict_get_default pair_eqb J k 0 +
     qsum (map (fun kx => if pair_eqb (sort_pair (fst (fst kx)) (snd (fst kx))) k
                          then snd kx / 4 else 0) quad)) /\
  c' == c + qsum (map (fun kx => snd kx / 4) quad).
Proof.
  induction quad as [|[[a b] x] r IH]; intros h J c h' J' c' H.
  - injection H as <- <- <-. split; [|split].
    + intros v y Hy. exists y. split; [exact Hy|]. simpl. ring.
    + intros k. simpl. ring.
    + simpl. ring.
  - cbn [foldM] in H. apply obind_Some in H as [[[h1 J1] c1] [Hs H]].
    unfold ising_quad_step in Hs. apply obind_Some in Hs as [ha [Ha Hs]].
    apply obind_Some in Hs as [hb [Hb Hs]]. injection Hs as <- <- <-.
    destruct (IH _ _ _ _ _ _ H) as [Hv [HJ Hc]]. split; [|split].
    + intros v y Hy. rewrite map_cons, qsum_cons.
      destruct (Hv v (if String.eqb b v
                      then (if String.eqb a v then y + - x / 4 else y) + - x / 4
                      else (if String.eqb a v then y + - x / 4 else y))) as [y' [Hy' E]].
      { rewrite (dict_iadd_get _ _ _ _ _ Hb), (dict_iadd_get _ _ _ _ _ Ha), Hy. reflexivity. }
      exists y'. split; [exact Hy'|]. rewrite E. cbn [fst snd].
      destruct (String.eqb a v), (String.eqb b v); field.
    + intros k. rewrite HJ, quad_accum_get, map_cons, qsum_cons. cbn [fst snd]. ring.
    + rewrite map_cons, qsum_cons, Hc. cbn [snd]. ring.
Qed.

Lemma dict_get_In_value {K V} (keqb : K -> K -> bool) d k (y : V) :
  dict_get keqb d k = Some y -> exists k', In (k', y) d.
Proof.
  induction d as [|[k' v] r IH]; simpl; [discriminate|].
  destruct (keqb k k'); [intros E; injection E as <-; eauto|].
  intros H. destruct (IH H) as [k'' Hin]. eauto.
Qed.

(** X10: the coefficients computed by [qubo_to_ising]: [h] has exactly the
    keys of [linear]; [h[v]] is [-linear[v]/2] minus [coeff/4] for each
    quadratic term [(a, b)] with [a = v] and again for [b = v]; [J[k]] is
    the sum of [coeff/4] over the quadratic terms whose sorted key is [k]
    (so [(a, b)] and [(b, a)] are merged); and the constant is
    [offset + sum(linear)/2 + sum(quadratic)/4]. *)
Theorem qubo_to_ising_coefficients lin quad off h J c :
  qubo_to_ising lin quad off = Some (h, J, c) ->
  (forall v, In v (map fst h) <-> In v (map fst lin)) /\
  (forall v, In v (map fst lin) -> exists hv, dict_get String.eqb h v = Some hv /\
     hv == - qsum (map (fun vx => if String.eqb (fst vx) v then snd vx / 2 else 0) lin)
           - qsum (map (fun kx => (if String.eqb (fst (fst kx)) v then snd kx / 4 else 0)
                                  + (if String.eqb (snd (fst kx)) v then snd kx / 4 else 0))
                       quad)) /\
  (forall k, dict_get_default pair_eqb J k 0 ==
     qsum (map (fun kx => if pair_eqb (sort_pair (fst (fst kx)) (snd (fst kx))) k
                          then snd kx / 4 else 0) quad)) /\
  c == off + qsum (map (fun vx => snd vx / 2) lin) + qsum (map (fun kx => snd kx / 4) quad).
Proof.
  unfold qubo_to_ising. intros H.
  set (h0 := fold_left (fun h '(var, _) => dict_set String.eqb h var 0) lin []) in H.
  apply obind_Some in H as [[h1 c1] [H1 H]].
  destruct (ising_linear_coeffs _ _ _ _ _ H1) as [Hv1 Hc1].
  destruct (ising_quad_coeffs _ _ _ _ _ _ _ H) as [Hv2 [HJ Hc2]].
  assert (Hk : map fst h = map fst h1).
  { change (map fst (fst (fst (h, J, c))) = map fst h1).
    eapply (foldM_invariant (fun st => map fst (fst (fst st)) = map fst h1)); [| | exact H];
      [|reflexivity].
    intros [[hx Jx] cx] kc [[hy Jy] cy] _ Hx Hs. simpl in *.
    rewrite (ising_quad_step_keys _ _ _ _ _ _ _ Hs). exact Hx. }
  split; [|split; [|split]].
  - intros v. rewrite Hk, (ising_linear_loop_keys _ _ _ _ _ H1). apply h0_keys.
  - intros v Hv. apply h0_keys, dict_get_present_keys in Hv. fold h0 in Hv.
    destruct (dict_get String.eqb h0 v) as [y0|] eqn:G0; [|congruence].
    assert (Hy0 : y0 = 0).
    { destruct (dict_get_In_value _ _ _ _ G0) as [k' Hin].
      pose proof (h0_zero lin) as Hz. rewrite Forall_forall in Hz. exact (Hz _ Hin). }
    subst y0. destruct (Hv1 v 0 G0) as [y1 [G1 E1]].
    destruct (Hv2 v y1 G1) as [y2 [G2 E2]].
    exists y2. split; [exact G2|]. rewrite E2, E1. ring.
  - intros k. rewrite HJ. unfold dict_get_default. simpl. ring.
  - rewrite Hc2, Hc1. ring.
Qed.

Lemma qubo_to_ising_coefficients_witness :
  let lin := [("a", 1); ("b", 2)] in
  let quad := [(("b", "a"), 4); (("a", "b"), 8)] in
  exists h J c, qubo_to_ising lin quad 0 = Some (h, J, c) /\
  ((forall v, In v (map fst h) <-> In v (map fst lin)) /\
   (forall v, In v (map fst lin) ->
      exists hv, dict_get String.eqb h v = Some hv /\
      hv == - qsum (map (fun vx => if String.eqb (fst vx) v then snd vx / 2 else 0) lin)
            - qsum (map (fun kx => (if String.eqb (fst (fst kx)) v then snd kx / 4 else 0)
                                   + (if String.eqb (snd (fst kx)) v then snd kx / 4 else 0))
                        quad)) /\
   (forall k, dict_get_default pair_eqb J k 0 ==
      qsum (map (fun kx => if pair_eqb (sort_pair (fst (fst kx)) (snd (fst kx))) k
                           then snd kx / 4 else 0) quad)) /\
   c == 0 + qsum (map (fun vx => snd vx / 2) lin) + qsum (map (fun kx => snd kx / 4) quad)).
Proof.
  intros lin quad.
  destruct (qubo_to_ising lin quad 0) as [[[h J] c]|] eqn:E; [|vm_compute in E; discriminate].
  exists h, J, c. split; [reflexivity|].
  exact (qubo_to_ising_coefficients lin quad 0 h J c E).
Defined.

(** ** [build_qubo]: failures, linear coefficients and offset *)

Lemma initial_linear_go_in : forall (itv : list string) acc v,
  In v (map fst (fold_left (fun lin v => dict_setdefault String.eqb lin v 0) itv acc))
  <-> In v itv \/ In v (map fst acc).
Proof.
  induction itv as [|w r IH]; intros acc v; simpl; [tauto|].
  rewrite IH. unfold dict_setdefault.
  destruct (dict_get String.eqb acc w) eqn:G.
  - assert (Hw : In w (map fst acc)) by (apply dict_get_present_keys; congruence).
    split; [tauto|]. intros [[E|H]|H]; [subst; right; exact Hw | left; exact H | right; exact H].
  - rewrite map_app, in_app_iff. simpl. tauto.
Qed.

Lemma initial_linear_in itv v : In v (map fst (initial_linear itv)) <-> In v itv.
Proof. unfold initial_linear. rewrite initial_linear_go_in. simpl. tauto. Qed.

Lemma initial_linear_get itv v :
  In v itv -> dict_get String.eqb (initial_linear itv) v = Some 0.
Proof.
  intros Hv. apply initial_linear_in, dict_get_present_keys in Hv.
  destruct (dict_get String.eqb (initial_linear itv) v) as [y|] eqn:G; [|congruence].
  destruct (dict_get_In_value _ _ _ _ G) as [k Hin].
  pose proof (initial_linear_zero itv) as Hz. rewrite Forall_forall in Hz.
  specialize (Hz _ Hin). cbn [snd] in Hz. rewrite Hz. reflexivity.
Qed.


Lemma course_loop_linear cp : forall courses lin quad off,
  (forall c v, In c courses -> In v (course_vars c) -> dict_get String.eqb lin v <> None) ->
  exists lin' quad' off',
    foldM (course_step cp) courses (lin, quad, off) = Some (lin', quad', off') /\
    off' == off + cp * inject_Z (Z.of_nat (List.length courses)) /\
    (forall v y, dict_get String.eqb lin v = Some y ->
       exists y', dict_get String.eqb lin' v = Some y' /\
         y' == y - cp * inject_Z (Z.of_nat (List.length
                  (filter (fun c => existsb (String.eqb v) (course_vars c)) courses)))).
Proof.
  induction courses as [|c r IH]; intros lin quad off Hpres.
  - exists lin, quad, off. split; [reflexivity|]. split; [simpl; ring|].
    intros v y Hy. exists y. split; [exact Hy|]. simpl. ring.
  - destruct (iadd_fold_spec (-1 * cp) (course_vars c) lin (course_vars_NoDup c))
      as [lin1 [Hf [Hin Hout]]].
    { intros v Hv. apply (Hpres c); [left; reflexivity | exact Hv]. }
    destruct (IH lin1 (fold_left (fun q '(a, b) => quad_accum q (sort_pair a b) (2 * cp))
                         (combinations2 (course_vars c)) quad) (off + cp))
      as [lin' [quad' [off' [H' [Hoff Hv']]]]].
    { intros c' v Hc' Hv. destruct (in_dec string_dec v (course_vars c)) as [Hvc|Hvc].
      - specialize (Hpres c v (or_introl eq_refl) Hvc).
        destruct (dict_get String.eqb lin v) as [y|] eqn:G; [|congruence].
        rewrite (Hin v y Hvc G). discriminate.
      - rewrite (Hout v Hvc). apply (Hpres c'); [right; exact Hc' | exact Hv]. }
    exists lin', quad', off'. split.
    { cbn [foldM]. unfold course_step at 1. rewrite Hf. exact H'. }
    split.
    { rewrite Hoff. cbn [List.length]. rewrite Nat2Z.inj_succ, <- Z.add_1_l, inject_Z_plus. ring. }
    intros v y Hy. cbn [filter].
    destruct (in_dec string_dec v (course_vars c)) as [Hvc|Hvc].
    + assert (E : existsb (String.eqb v) (course_vars c) = true).
      { apply existsb_exists. exists v. split; [exact Hvc | apply String.eqb_refl]. }
      rewrite E. destruct (Hv' v (y + -1 * cp) (Hin v y Hvc Hy)) as [y' [G' Ey']].
      exists y'. split; [exact G'|]. rewrite Ey'. cbn [List.length].
      rewrite Nat2Z.inj_succ, <- Z.add_1_l, inject_Z_plus. ring.
    + assert (E : existsb (String.eqb v) (course_vars c) = false).
      { apply Bool.not_true_iff_false. intros Hex. apply existsb_exists in Hex as [w [Hw Ew]].
        apply String.eqb_eq in Ew. subst w. contradiction. }
      rewrite E. rewrite <- (Hout v Hvc) in Hy. exact (Hv' v y Hy).
Qed.

Lemma course_terms_Some courses cp :
  exists lin quad off,
    course_terms courses cp = Some (lin, quad, off, index_to_var_of courses) /\
    off == cp * inject_Z (Z.of_nat (List.length courses)) /\
    (forall v, In v (index_to_var_of courses) ->
       exists y, dict_get String.eqb lin v = Some y /\
         y == - cp * inject_Z (Z.of_nat (List.length
                  (filter (fun c => existsb (String.eqb v) (course_vars c)) courses)))).
Proof.
  destruct (course_loop_linear cp courses (initial_linear (index_to_var_of courses)) [] 0)
    as [lin [quad [off [H [Hoff Hv]]]]].
  { intros c v Hc Hv. rewrite initial_linear_get; [discriminate|].
    unfold index_to_var_of. apply in_concat. exists (course_vars c).
    split; [apply in_map; exact Hc | exact Hv]. }
  exists lin, quad, off. split.
  { unfold course_terms. cbv zeta.
    match goal with |- obind ?m _ = _ =>
      replace m with (Some (lin, quad, off)) by (rewrite <- H; reflexivity) end.
    reflexivity. }
  split; [rewrite Hoff; ring|].
  intros v Hin. destruct (Hv v 0 (initial_linear_get _ _ Hin)) as [y [G E]].
  exists y. split; [exact G|]. rewrite E. ring.
Qed.

Lemma conflict_loop_None kp : forall L q,
  foldM (conflict_step kp) L q = None <->
  exists p, In p L /\ overlaps (snd (fst p)) (snd (snd p)) = None.
Proof.
  induction L as [|[[va sa] [vb sb]] r IH]; intros q.
  - simpl. split; [discriminate|]. intros [p [[] _]].
  - cbn [foldM]. unfold conflict_step at 1.
    destruct (overlaps sa sb) as [o|] eqn:Ho; simpl.
    + assert (E : obind (if o then Some (quad_accum q (sort_pair va vb) kp) else Some q)
                        (foldM (conflict_step kp) r)
                  = foldM (conflict_step kp) r
                      (if o then quad_accum q (sort_pair va vb) kp else q))
        by (destruct o; reflexivity).
      rewrite E, IH. split.
      * intros [p [Hp Hn]]. exists p. auto.
      * intros [p [[E'|Hp] Hn]]; [subst p; simpl in Hn; congruence|]. exists p. auto.
    + split; [intros _|reflexivity]. exists ((va, sa), (vb, sb)). simpl. auto.
Qed.

(** X11: [build_qubo] fails (the [time_to_minutes] parse of a meeting time
    raises) exactly when some pair of sections visited by the conflict
    loop has a failing [overlaps] test; the course-selection part never
    fails. *)
Theorem build_qubo_error courses cp kp :
  build_qubo courses cp kp = None <->
  exists p, In p (combinations2 (all_sections_of courses)) /\
            overlaps (snd (fst p)) (snd (snd p)) = None.
Proof.
  unfold build_qubo. destruct (course_terms_Some courses cp) as [lin [quad [off [H _]]]].
  rewrite H. cbn [obind]. rewrite <- (conflict_loop_None kp _ quad).
  destruct (foldM (conflict_step kp) (combinations2 (all_sections_of courses)) quad); simpl.
  - split; discriminate.
  - tauto.
Qed.

(** X12: when [build_qubo] succeeds, the linear map has exactly the
    variables of [index_to_var] as keys, the offset is
    [course_penalty * len(courses)], and the linear coefficient of each
    variable is [-course_penalty] times the number of courses whose
    variables include it (so [-course_penalty] when names are distinct). *)
Theorem build_qubo_linear_offset courses cp kp lin quad off itv :
  build_qubo courses cp kp = Some (lin, quad, off, itv) ->
  itv = index_to_var_of courses /\
  (forall v, In v (map fst lin) <-> In v itv) /\
  off == cp * inject_Z (Z.of_nat (List.length courses)) /\
  (forall v, In v itv -> exists y, dict_get String.eqb lin v = Some y /\
     y == - cp * inject_Z (Z.of_nat (List.length
                (filter (fun c => existsb (String.eqb v) (course_vars c)) courses)))).
Proof.
  intros Hb. destruct (build_qubo_shape _ _ _ _ _ _ _ Hb) as [Hitv [Hkeys _]].
  unfold build_qubo in Hb.
  destruct (course_terms_Some courses cp) as [lin0 [quad0 [off0 [H [Hoff Hv]]]]].
  rewrite H in Hb. cbn [obind] in Hb. apply obind_Some in Hb as [q' [_ Hb]].
  injection Hb as <- <- <-. subst itv.
  split; [reflexivity|]. split; [|split; [exact Hoff | exact Hv]].
  intros v. rewrite Hkeys. apply initial_linear_in.
Qed.

Lemma build_qubo_linear_offset_witness :
  exists lin quad off itv, build_qubo demo_catalogue 5 10 = Some (lin, quad, off, itv) /\
  (itv = index_to_var_of demo_catalogue /\
   (forall v, In v (map fst lin) <-> In v itv) /\
   off == 5 * inject_Z (Z.of_nat (List.length demo_catalogue)) /\
   (forall v, In v itv -> exists y, dict_get String.eqb lin v = Some y /\
      y == - 5 * inject_Z (Z.of_nat (List.length
                 (filter (fun c => existsb (String.eqb v) (course_vars c)) demo_catalogue))))).
Proof.
  destruct (build_qubo demo_catalogue 5 10) as [[[[lin quad] off] itv]|] eqn:E;
    [|vm_compute in E; discriminate].
  exists lin, quad, off, itv. split; [reflexivity|].
  exact (build_qubo_linear_offset demo_catalogue 5 10 lin quad off itv E).
Defined.

(** ** [best_sampled_solution] *)

Lemma bits_eqb_spec a b : bits_eqb a b = true <-> a = b.
Proof. unfold bits_eqb. destruct (list_eq_dec Z.eq_dec a b); split; congruence. Qed.

Section DictSpec.
Context {K V : Type} (keqb : K -> K -> bool).
Hypothesis keqb_spec : forall a b, keqb a b = true <-> a = b.

Lemma dict_get_present_gen (d : list (K * V)) k :
  dict_get keqb d k <> None <-> In k (map fst d).
Proof.
  induction d as [|[k' x] r IH]; simpl; [tauto|].
  destruct (keqb k k') eqn:E.
  - apply keqb_spec in E. subst. split; [auto | discriminate].
  - rewrite IH. split; [auto|]. intros [E'|H]; [|exact H].
    subst. assert (keqb k k = true) by (apply keqb_spec; reflexivity). congruence.
Qed.

Lemma dict_set_absent (d : list (K * V)) k v :
  dict_get keqb d k = None -> dict_set keqb d k v = (d ++ [(k, v)])%list.
Proof.
  induction d as [|[k' x] r IH]; simpl; [reflexivity|].
  destruct (keqb k k'); [discriminate|]. intros H. rewrite (IH H). reflexivity.
Qed.

Lemma dict_get_in_pair (d : list (K * V)) k v :
  dict_get keqb d k = Some v -> In (k, v) d.
Proof.
  induction d as [|[k' x] r IH]; simpl; [discriminate|].
  destruct (keqb k k') eqn:E.
  - apply keqb_spec in E. subst. intros H. injection H as <-. left. reflexivity.
  - intros H. right. exact (IH H).
Qed.
End DictSpec.

Lemma py_min_by_spec {A} (l : list (A * Q)) r :
  py_min_by snd l = Some r ->
  exists m, nth_error l m = Some r /\
    (forall i z, nth_error l i = Some z -> snd r <= snd z) /\
    (forall i z, (i < m)%nat -> nth_error l i = Some z -> snd r < snd z).
Proof.
  destruct l as [|x rest]; simpl; [discriminate|]. intros H. injection H as <-.
  induction rest as [|y rest IH] using rev_ind.
  - exists 0%nat. simpl. split; [reflexivity|]. split.
    + intros [|i] z Hz; [injection Hz as <-; apply Qle_refl | destruct i; discriminate].
    + intros i z Hi. lia.
  - rewrite fold_left_app. cbn [fold_left].
    destruct IH as [m [Hm [Hle Hlt]]].
    set (best := fold_left _ rest x) in *.
    assert (Hy : nth_error (x :: rest ++ [y])%list (S (List.length rest)) = Some y).
    { simpl. rewrite nth_error_app2 by lia. rewrite Nat.sub_diag. reflexivity. }
    assert (Hold : forall i z, nth_error (x :: rest ++ [y])%list i = Some z ->
                   (i <= List.length rest)%nat /\ nth_error (x :: rest) i = Some z \/
                   i = S (List.length rest) /\ z = y).
    { intros i z Hz. destruct (Nat.le_gt_cases i (List.length rest)) as [Hi|Hi].
      - left. split; [exact Hi|]. rewrite app_comm_cons, nth_error_app1 in Hz by (simpl; lia).
        exact Hz.
      - right. rewrite app_comm_cons, nth_error_app2 in Hz by (simpl; lia).
        simpl in Hz. destruct (i - S (List.length rest))%nat as [|k] eqn:Ek;
          [|destruct k; discriminate].
        injection Hz as <-. split; [lia|reflexivity]. }
    assert (Hm' : (m <= List.length rest)%nat).
    { assert (nth_error (x :: rest) m <> None) as Hn by congruence.
      apply nth_error_Some in Hn. simpl in Hn. lia. }
    destruct (Qlt_le_dec (snd y) (snd best)) as [Hyb|Hby].
    + exists (S (List.length rest)). split; [exact Hy|]. split.
      * intros i z Hz. destruct (Hold i z Hz) as [[_ Hz']|[_ ->]]; [|apply Qle_refl].
        apply Qlt_le_weak. eapply Qlt_le_trans; [exact Hyb | exact (Hle i z Hz')].
      * intros i z Hi Hz. destruct (Hold i z Hz) as [[_ Hz']|[E _]]; [|lia].
        eapply Qlt_le_trans; [exact Hyb | exact (Hle i z Hz')].
    + exists m. split.
      * rewrite app_comm_cons, nth_error_app1 by (simpl; lia). exact Hm.
      * split.
        -- intros i z Hz. destruct (Hold i z Hz) as [[_ Hz']|[_ ->]]; [exact (Hle i z Hz')|exact Hby].
        -- intros i z Hi Hz. destruct (Hold i z Hz) as [[_ Hz']|[E _]]; [exact (Hlt i z Hi Hz')|lia].
Qed.

Section Samples.
Variable lin : Linear.
Variable quad : Quadratic.
Variable off : Q.
Variable itv : list string.

Let ev (b : list Z) := evaluate_qubo b lin quad off itv.

Lemma energy_by_sample_inv : forall P ebs,
  foldM (energy_by_sample_step lin quad off itv) P [] = Some ebs ->
  NoDup (map fst ebs) /\
  (forall k e, In (k, e) ebs -> ev k = Some e) /\
  (forall s, In s P <-> In s (map fst ebs)) /\
  (forall i1 i2 k1 k2, (i1 < i2)%nat ->
     nth_error (map fst ebs) i1 = Some k1 -> nth_error (map fst ebs) i2 = Some k2 ->
     exists j1, nth_error P j1 = Some k1 /\
       forall j2, nth_error P j2 = Some k2 -> (j1 < j2)%nat).
Proof.
  intros P. induction P as [|s P IH] using rev_ind; intros ebs H.
  - injection H as <-. simpl. split; [constructor|]. split; [tauto|]. split; [tauto|].
    intros i1 i2 k1 k2 _ Hk. destruct i1; discriminate.
  - rewrite foldM_app in H. apply obind_Some in H as [ebs0 [H0 H]].
    destruct (IH ebs0 H0) as [Hnd [Hev [Hmem Hord]]].
    cbn [foldM] in H. apply obind_Some in H as [ebs1 [Hs H]]. injection H as <-.
    assert (Hold : forall j2 k, nth_error (P ++ [s])%list j2 = Some k ->
                   (j2 < List.length P)%nat /\ nth_error P j2 = Some k \/
                   j2 = List.length P /\ k = s).
    { intros j2 k Hk. destruct (Nat.lt_ge_cases j2 (List.length P)) as [Hj|Hj].
      - left. rewrite nth_error_app1 in Hk by exact Hj. auto.
      - right. rewrite nth_error_app2 in Hk by exact Hj.
        destruct (j2 - List.length P)%nat as [|k'] eqn:Ek; [|destruct k'; discriminate].
        injection Hk as <-. split; [lia|reflexivity]. }
    assert (Hvalid : forall j1 k, nth_error P j1 = Some k -> (j1 < List.length P)%nat)
      by (intros j1 k Hk; apply nth_error_Some; congruence).
    unfold energy_by_sample_step in Hs.
    destruct (dict_get bits_eqb ebs0 s) as [e0|] eqn:G.
    + injection Hs as <-.
      assert (Hs : In s (map fst ebs0))
        by (apply (dict_get_present_gen bits_eqb bits_eqb_spec); congruence).
      split; [exact Hnd|]. split; [exact Hev|]. split.
      * intros x. rewrite in_app_iff, Hmem. simpl. split; [intros [H|[<-|[]]]; auto | auto].
      * intros i1 i2 k1 k2 Hi H1 H2. destruct (Hord i1 i2 k1 k2 Hi H1 H2) as [j1 [Hj1 Hlt]].
        exists j1. split; [rewrite nth_error_app1 by (eapply Hvalid; eauto); exact Hj1|].
        intros j2 Hj2. destruct (Hold j2 k2 Hj2) as [[_ Hj2']|[-> _]];
          [exact (Hlt j2 Hj2') | eapply Hvalid; eauto].
    + apply obind_Some in Hs as [e [He Hs]]. injection Hs as <-.
      rewrite (dict_set_absent bits_eqb ebs0 s e G).
      assert (Hs : ~ In s (map fst ebs0)).
      { rewrite <- (dict_get_present_gen bits_eqb bits_eqb_spec). congruence. }
      rewrite map_app. simpl. split; [|split; [|split]].
      * apply NoDup_app; [exact Hnd | repeat constructor; auto|].
        intros a Ha [<-|[]]. contradiction.
      * intros k e' Hin. apply in_app_or in Hin as [Hin|[E|[]]]; [exact (Hev k e' Hin)|].
        injection E as <- <-. exact He.
      * intros x. rewrite !in_app_iff, Hmem. reflexivity.
      * intros i1 i2 k1 k2 Hi H1 H2.
        assert (Hi1 : (i1 < List.length (map fst ebs0))%nat).
        { destruct (Nat.lt_ge_cases i1 (List.length (map fst ebs0))) as [L|L]; [exact L|].
          rewrite nth_error_app2 in H2 by lia.
          destruct (i2 - List.length (map fst ebs0))%nat eqn:E; [lia|destruct n; discriminate]. }
        rewrite nth_error_app1 in H1 by exact Hi1.
        destruct (Nat.lt_ge_cases i2 (List.length (map fst ebs0))) as [Hi2|Hi2].
        -- rewrite nth_error_app1 in H2 by exact Hi2.
           destruct (Hord i1 i2 k1 k2 Hi H1 H2) as [j1 [Hj1 Hlt]].
           exists j1. split; [rewrite nth_error_app1 by (eapply Hvalid; eauto); exact Hj1|].
           intros j2 Hj2. destruct (Hold j2 k2 Hj2) as [[_ Hj2']|[-> _]];
             [exact (Hlt j2 Hj2') | eapply Hvalid; eauto].
        -- assert (Hk1 : In k1 P) by (apply Hmem; eapply nth_error_In; exact H1).
           apply In_nth_error in Hk1 as [j1 Hj1].
           exists j1. split; [rewrite nth_error_app1 by (eapply Hvalid; eauto); exact Hj1|].
           intros j2 Hj2. destruct (Hold j2 k2 Hj2) as [[_ Hj2']|[-> _]]; [|eapply Hvalid; eauto].
           exfalso. rewrite nth_error_app2 in H2 by exact Hi2.
           destruct (i2 - List.length (map fst ebs0))%nat as [|n]; [|destruct n; discriminate].
           injection H2 as <-. apply Hs, Hmem. eapply nth_error_In. exact Hj2'.
Qed.

End Samples.

(** X14: the sample chosen by [best_sampled_solution] is one of the samples, its
    energy is the one [evaluate_qubo] gives it, no sample has a lower energy,
    and among the samples of equal energy the one seen first is returned
    ([min] keeps the first minimum of the dict, whose keys are in order of
    first appearance). *)
Theorem best_sampled_solution_spec samples lin quad off itv b e :
  best_sampled_solution samples lin quad off itv = Some (b, e) ->
  In b samples /\ evaluate_qubo b lin quad off itv = Some e /\
  forall j s, nth_error samples j = Some s ->
    exists e', evaluate_qubo s lin quad off itv = Some e' /\ e <= e' /\
      (e' == e -> exists k, (k <= j)%nat /\ nth_error samples k = Some b).
Proof.
  intros H. unfold best_sampled_solution in H.
  apply obind_Some in H as [ebs [Hf H]]. apply obind_Some in H as [[b' e'] [Hm H]].
  cbn in H. injection H as <- <-.
  destruct (energy_by_sample_inv lin quad off itv samples ebs Hf) as [Hnd [Hev [Hmem Hord]]].
  destruct (py_min_by_spec ebs _ Hm) as [m [Hnm [Hle Hlt]]].
  cbn [snd] in Hle, Hlt.
  split; [apply Hmem, (in_map fst ebs (b', e')), (nth_error_In _ _ Hnm)|].
  split; [exact (Hev b' e' (nth_error_In _ _ Hnm))|].
  intros j s Hj.
  assert (Hs : In s (map fst ebs)) by (apply Hmem; exact (nth_error_In _ _ Hj)).
  apply in_map_iff in Hs as [[s' e''] [Es Hin]]. cbn [fst] in Es. subst s'.
  exists e''. split; [exact (Hev s e'' Hin)|].
  apply In_nth_error in Hin as [i2 Hi2].
  split; [exact (Hle i2 _ Hi2)|]. intros Heq.
  destruct (Nat.lt_trichotomy i2 m) as [L|[E|G]].
  - exfalso. specialize (Hlt i2 _ L Hi2). cbn [snd] in Hlt.
    rewrite Heq in Hlt. exact (Qlt_irrefl _ Hlt).
  - subst i2. rewrite Hi2 in Hnm. injection Hnm as <- _. exists j. split; [lia|exact Hj].
  - destruct (Hord m i2 b' s G (map_nth_error fst _ _ Hnm) (map_nth_error fst _ _ Hi2))
      as [j1 [Hj1 Hlt']].
    exists j1. split; [apply Nat.lt_le_incl, (Hlt' j Hj)|exact Hj1].
Qed.

Lemma best_sampled_solution_spec_witness :
  exists b e,
    best_sampled_solution [[0;1]; [1;0]; [0;0]; [1;0]]%Z [("a", 1); ("b", -2 # 1)]
      [(("a", "b"), 3)] 0 ["a"; "b"] = Some (b, e) /\
    (In b [[0;1]; [1;0]; [0;0]; [1;0]]%Z /\
     evaluate_qubo b [("a", 1); ("b", -2 # 1)] [(("a", "b"), 3)] 0 ["a"; "b"] = Some e /\
     forall j s, nth_error [[0;1]; [1;0]; [0;0]; [1;0]]%Z j = Some s ->
       exists e', evaluate_qubo s [("a", 1); ("b", -2 # 1)] [(("a", "b"), 3)] 0 ["a"; "b"]
                    = Some e' /\ e <= e' /\
         (e' == e -> exists k, (k <= j)%nat /\ nth_error [[0;1]; [1;0]; [0;0]; [1;0]]%Z k = Some b)).
Proof.
  destruct (best_sampled_solution [[0;1]; [1;0]; [0;0]; [1;0]]%Z [("a", 1); ("b", -2 # 1)]
      [(("a", "b"), 3)] 0 ["a"; "b"]) as [[b e]|] eqn:E; [|vm_compute in E; discriminate].
  exists b, e. split; [reflexivity|].
  exact (best_sampled_solution_spec _ _ _ _ _ b e E).
Defined.

Lemma energy_by_sample_fail lin quad off itv : forall P acc,
  foldM (energy_by_sample_step lin quad off itv) P acc = None ->
  exists s, In s P /\ evaluate_qubo s lin quad off itv = None.
Proof.
  induction P as [|s P IH]; intros acc H; [discriminate|].
  cbn [foldM] in H. unfold energy_by_sample_step at 1 in H.
  destruct (dict_get bits_eqb acc s) as [x|].
  - cbn [obind] in H. destruct (IH _ H) as [s' [Hs' Hn]]. exists s'. split; [right|]; assumption.
  - destruct (evaluate_qubo s lin quad off itv) as [e|] eqn:Ev.
    + cbn [obind] in H. destruct (IH _ H) as [s' [Hs' Hn]]. exists s'. split; [right|]; assumption.
    + exists s. split; [left; reflexivity|exact Ev].
Qed.

(** X15: [best_sampled_solution] fails exactly when there is no sample ([min] of
    an empty dict raises) or when [evaluate_qubo] fails on one of the samples
    (a missing index or variable raises inside it). *)
Theorem best_sampled_solution_fails samples lin quad off itv :
  best_sampled_solution samples lin quad off itv = None <->
  samples = [] \/ exists s, In s samples /\ evaluate_qubo s lin quad off itv = None.
Proof.
  unfold best_sampled_solution.
  destruct (foldM (energy_by_sample_step lin quad off itv) samples []) as [ebs|] eqn:Hf.
  - destruct (energy_by_sample_inv lin quad off itv samples ebs Hf) as [_ [Hev [Hmem _]]].
    cbn [obind]. split.
    + intros H. left. destruct ebs as [|[k x] ebs];
        [|cbn [py_min_by obind] in H; destruct (fold_left _ _ _); discriminate].
      destruct samples as [|s samples]; [reflexivity|].
      exfalso. apply (proj1 (Hmem s)). left. reflexivity.
    + intros [->|[s [Hs Hn]]].
      * destruct ebs as [|[k x] ebs]; [reflexivity|].
        exfalso. apply (proj2 (Hmem k)). left. reflexivity.
      * apply Hmem, in_map_iff in Hs as [[k x] [Ek Hin]]. cbn [fst] in Ek. subst k.
        rewrite (Hev s x Hin) in Hn. discriminate.
  - cbn [obind]. split; [intros _|reflexivity].
    right. exact (energy_by_sample_fail lin quad off itv samples [] Hf).
Qed.

(** ** Decoding the variable names built by [build_qubo] *)

Lemma py_split_no_pipe s : no_pipe s = true -> py_split "|"%char s = [s].
Proof.
  induction s as [|c r IH]; [reflexivity|]. cbn [no_pipe].
  rewrite andb_true_iff, negb_true_iff. intros [Hc Hr]. cbn [py_split].
  rewrite Hc, (IH Hr). reflexivity.
Qed.

Lemma py_split_app_pipe a b :
  no_pipe a = true -> py_split "|"%char (a ++ String "|"%char b) = a :: py_split "|"%char b.
Proof.
  induction a as [|c r IH]; [reflexivity|]. cbn [no_pipe].
  rewrite andb_true_iff, negb_true_iff. intros [Hc Hr]. cbn [append py_split].
  rewrite Hc, (IH Hr). reflexivity.
Qed.

Lemma no_pipe_uint u : no_pipe (string_of_uint u) = true.
Proof. induction u; cbn [string_of_uint no_pipe]; try exact IHu; reflexivity. Qed.

Lemma var_name_split cc sid j :
  no_pipe cc = true -> no_pipe sid = true ->
  py_split "|"%char (var_name cc sid j) = [cc; sid; py_str_nat j].
Proof.
  intros Hcc Hsid. unfold var_name. cbn [append].
  rewrite (py_split_app_pipe cc), (py_split_app_pipe sid) by assumption.
  rewrite py_split_no_pipe by apply no_pipe_uint. reflexivity.
Qed.

Lemma section_vars_in cc ss : forall n v,
  In v (section_vars cc ss n) -> exists s j, In s ss /\ v = var_name cc (section_id s) j.
Proof.
  induction ss as [|s r IH]; cbn [section_vars In]; intros n v Hv; [contradiction|].
  destruct Hv as [<-|Hv].
  - exists s, n. split; [left|]; reflexivity.
  - destruct (IH (S n) v Hv) as [s' [j [Hs' ->]]]. exists s', j. split; [right|]; auto.
Qed.

Lemma index_to_var_of_in courses v :
  In v (index_to_var_of courses) ->
  exists c s j, In c courses /\ In s (sections c) /\ v = var_name (course c) (section_id s) j.
Proof.
  unfold index_to_var_of. intros H. apply in_concat in H as [l [Hl Hv]].
  apply in_map_iff in Hl as [c [<- Hc]]. unfold course_vars in Hv.
  destruct (section_vars_in _ _ _ _ Hv) as [s [j [Hs ->]]]. exists c, s, j. auto.
Qed.

(** X13: [interpret_selection] inverts the variable naming of [build_qubo]: when
    no course code or section id of the catalogue contains ['|'], every 0/1
    bitstring no longer than [index_to_var] is decoded without error; each
    entry [chosen[cc] = sid] names a course [cc] of the catalogue and one of
    its sections [sid], whose variable has bit 1; and every course with a
    variable of bit 1 is a key of [chosen]. *)
Theorem interpret_selection_build_names courses bits :
  (forall c, In c courses ->
     no_pipe (course c) = true /\ forall s, In s (sections c) -> no_pipe (section_id s) = true) ->
  (List.length bits <= List.length (index_to_var_of courses))%nat ->
  Forall (fun b => b = 0%Z \/ b = 1%Z) bits ->
  exists chosen, interpret_selection bits (index_to_var_of courses) = Some chosen /\
    (forall cc sid, dict_get String.eqb chosen cc = Some sid ->
       exists c s i j, In c courses /\ In s (sections c) /\ course c = cc /\ section_id s = sid /\
         nth_error bits i = Some 1%Z /\
         nth_error (index_to_var_of courses) i = Some (var_name cc sid j)) /\
    (forall c s i j, In c courses -> In s (sections c) -> nth_error bits i = Some 1%Z ->
       nth_error (index_to_var_of courses) i = Some (var_name (course c) (section_id s) j) ->
       exists sid', dict_get String.eqb chosen (course c) = Some sid').
Proof.
  intros Hnp Hlen H01.
  assert (Hname : forall name, In name (index_to_var_of courses) ->
            exists c s j, In c courses /\ In s (sections c) /\
              name = var_name (course c) (section_id s) j /\
              py_split "|"%char name = [course c; section_id s; py_str_nat j]).
  { intros name Hin. destruct (index_to_var_of_in _ _ Hin) as [c [s [j [Hc [Hs ->]]]]].
    destruct (Hnp c Hc) as [H1 H2]. exists c, s, j. repeat split; auto.
    apply var_name_split; auto. }
  destruct (interpret_selection_gen (index_to_var_of courses)) with (bits := bits)
    as [chosen [Hch [Hkeys Hlast]]]; [|exact Hlen|exact H01|].
  { intros name Hin. destruct (Hname name Hin) as [c [s [j [_ [_ [_ Hs]]]]]]. eauto. }
  exists chosen. split; [exact Hch|]. split.
  - intros cc sid Hg. apply Hlast in Hg as [i [[Hb [name [rest [Hn Hs]]]] _]].
    destruct (Hname name (nth_error_In _ _ Hn)) as [c [s [j [Hc [Hss [-> Hs']]]]]].
    rewrite Hs' in Hs. injection Hs as <- <- _.
    exists c, s, i, j. auto 7.
  - intros c s i j Hc Hs Hb Hn. apply Hkeys. exists i, (section_id s).
    split; [exact Hb|]. exists (var_name (course c) (section_id s) j), (py_str_nat j).
    split; [exact Hn|]. destruct (Hnp c Hc) as [H1 H2]. apply var_name_split; auto.
Qed.

Lemma interpret_selection_build_names_witness :
  exists chosen, interpret_selection [1; 0; 1]%Z (index_to_var_of demo_catalogue) = Some chosen /\
    (forall cc sid, dict_get String.eqb chosen cc = Some sid ->
       exists c s i j, In c demo_catalogue /\ In s (sections c) /\ course c = cc /\
         section_id s = sid /\ nth_error [1; 0; 1]%Z i = Some 1%Z /\
         nth_error (index_to_var_of demo_catalogue) i = Some (var_name cc sid j)) /\
    (forall c s i j, In c demo_catalogue -> In s (sections c) -> nth_error [1; 0; 1]%Z i = Some 1%Z ->
       nth_error (index_to_var_of demo_catalogue) i = Some (var_name (course c) (section_id s) j) ->
       exists sid', dict_get String.eqb chosen (course c) = Some sid').
Proof.
  apply interpret_selection_build_names.
  - intros c Hc. cbn in Hc.
    destruct Hc as [<-|[<-|[]]]; (split; [reflexivity|]);
      intros s Hs; cbn in Hs; repeat destruct Hs as [<-|Hs]; solve [reflexivity | contradiction].
  - vm_compute. lia.
  - apply Forall_forall. intros b [<-|[<-|[<-|[]]]]; auto.
Defined.

(** ** [evaluate_qubo] on the QUBO of [build_qubo] *)

Lemma eval_linear_long lin itv : forall bits idx e,
  (idx <= List.length itv)%nat -> (List.length itv < idx + List.length bits)%nat ->
  eval_linear lin itv bits idx e = None.
Proof.
  induction bits as [|b r IH]; intros idx e Hi Hl; cbn [List.length] in Hl; [lia|].
  cbn [eval_linear]. destruct (nth_error itv idx) as [v|] eqn:Hv; [|reflexivity].
  cbn [obind].
  assert (Hlt : (idx < List.length itv)%nat) by (apply nth_error_Some; congruence).
  apply IH; lia.
Qed.

(** X16: on a QUBO built by [build_qubo] with pairwise distinct variable
    names, [evaluate_qubo] of a bitstring as long as [index_to_var] is the QUBO
    polynomial [offset + sum linear[v] * bit(v) + sum coeff * bit(a) * bit(b)],
    and a longer bitstring raises ([index_to_var[idx]] is missing). *)
Theorem evaluate_qubo_built courses cp kp lin quad off itv bits :
  build_qubo courses cp kp = Some (lin, quad, off, itv) -> NoDup itv ->
  (List.length bits = List.length itv ->
   exists e, evaluate_qubo bits lin quad off itv = Some e /\
     e == off + wsum (bit_at itv bits) lin + wsum (pair_weight (bit_at itv bits)) quad) /\
  ((List.length itv < List.length bits)%nat -> evaluate_qubo bits lin quad off itv = None).
Proof.
  intros Hb Hnd. split.
  - intros Hlen. destruct (build_qubo_shape _ _ _ _ _ _ _ Hb) as [_ [Hkeys Hq]].
    rewrite initial_linear_keys in Hkeys by exact Hnd.
    exact (evaluate_qubo_energy bits lin quad off itv Hnd Hkeys Hlen (keys_in_spec _ _ Hq)).
  - intros Hl. unfold evaluate_qubo. rewrite (eval_linear_long lin itv bits 0 off) by lia.
    reflexivity.
Qed.

Lemma evaluate_qubo_built_witness :
  exists lin quad off itv, build_qubo demo_catalogue 5 10 = Some (lin, quad, off, itv) /\
  NoDup itv /\
  ((List.length [1; 0; 1]%Z = List.length itv ->
    exists e, evaluate_qubo [1; 0; 1]%Z lin quad off itv = Some e /\
      e == off + wsum (bit_at itv [1; 0; 1]%Z) lin
             + wsum (pair_weight (bit_at itv [1; 0; 1]%Z)) quad) /\
   ((List.length itv < List.length [1; 0; 1]%Z)%nat ->
    evaluate_qubo [1; 0; 1]%Z lin quad off itv = None)).
Proof.
  destruct (build_qubo demo_catalogue 5 10) as [[[[lin quad] off] itv]|] eqn:E;
    [|vm_compute in E; discriminate].
  exists lin, quad, off, itv. split; [reflexivity|].
  assert (Hnd : NoDup itv).
  { destruct (build_qubo_shape _ _ _ _ _ _ _ E) as [-> _].
    vm_compute. repeat constructor; simpl; intuition discriminate. }
  split; [exact Hnd|].
  exact (evaluate_qubo_built demo_catalogue 5 10 lin quad off itv [1; 0; 1]%Z E Hnd).
Defined.

(** ** [ising_to_pennylane_hamiltonian] *)

Lemma hamiltonian_snoc bits cs os c o :
  List.length cs = List.length os ->
  hamiltonian_basis_energy bits ((cs ++ [c])%list, (os ++ [o])%list)
  == hamiltonian_basis_energy bits (cs, os) + c * pauli_eigenvalue bits o.
Proof.
  intros Hl. unfold hamiltonian_basis_energy. cbn [fst snd].
  rewrite combine_app_single by exact Hl. rewrite map_app, qsum_app. cbn. ring.
Qed.

Lemma inject_Z_of_nat_S n : inject_Z (Z.of_nat (S n)) == inject_Z (Z.of_nat n) + 1.
Proof. rewrite Nat2Z.inj_succ. unfold Z.succ. rewrite inject_Z_plus. reflexivity. Qed.

Lemma ham_err_keep A B n : A == B -> Qabs B <= ham_tol * n -> Qabs A <= ham_tol * (n + 1).
Proof. intros E H. rewrite E. unfold ham_tol in *. lra. Qed.

Lemma ham_err_drop A B t n :
  A == B - t -> Qabs B <= ham_tol * n -> Qabs t <= ham_tol -> Qabs A <= ham_tol * (n + 1).
Proof.
  intros E H1 H2. rewrite E.
  assert (Qabs (B - t) <= Qabs B + Qabs t)
    by (unfold Qminus; rewrite <- (Qabs_opp t); apply Qabs_triangle).
  lra.
Qed.

Section Hamiltonian.
Variable itv : list string.
Variable bits : list Z.
Hypothesis bits01 : Forall (fun b => b = 0%Z \/ b = 1%Z) bits.

Let vti := var_to_index itv.
Let spin := spin_of_bits itv bits.
Let hb := hamiltonian_basis_energy bits.

Lemma nth_bits01 i : nth i bits 0%Z = 0%Z \/ nth i bits 0%Z = 1%Z.
Proof.
  destruct (Nat.lt_ge_cases i (List.length bits)) as [L|L].
  - rewrite Forall_forall in bits01. apply bits01, nth_In, L.
  - left. apply nth_overflow, L.
Qed.

Lemma wire_eigen_bound w : Qabs (1 - 2 * inject_Z (nth w bits 0%Z)) <= 1.
Proof. destruct (nth_bits01 w) as [E|E]; rewrite E; apply Qle_bool_imp_le; reflexivity. Qed.

Lemma spin_bound v : Qabs (spin v) <= 1.
Proof.
  unfold spin, spin_of_bits, bit_at.
  destruct (dict_get String.eqb (var_to_index itv) v) as [i|];
    [apply wire_eigen_bound | apply Qle_bool_imp_le; reflexivity].
Qed.

Lemma dropped_term_bound x s : Qabs x <= ham_tol -> Qabs s <= 1 -> Qabs (x * s) <= ham_tol.
Proof.
  intros H1 H2. rewrite Qabs_Qmult. setoid_replace ham_tol with (ham_tol * 1) by ring.
  apply Qmult_le_compat_nonneg; split; auto using Qabs_nonneg.
Qed.

Lemma spin_wire v i : dict_get String.eqb vti v = Some i ->
  spin v = 1 - 2 * inject_Z (nth i bits 0%Z).
Proof. intros H. unfold spin, spin_of_bits, bit_at. fold vti. rewrite H. reflexivity. Qed.

Lemma ham_linear_loop : forall h cs os res,
  List.length cs = List.length os ->
  foldM (ham_linear_step vti) h (cs, os) = Some res ->
  List.length (fst res) = List.length (snd res) /\
  Qabs (hb res - hb (cs, os) - wsum spin h) <= ham_tol * inject_Z (Z.of_nat (List.length h)).
Proof.
  induction h as [|[v x] h IH]; intros cs os res Hl H.
  - injection H as <-. split; [exact Hl|]. rewrite wsum_nil.
    setoid_replace (hb (cs, os) - hb (cs, os) - 0) with 0 by ring.
    apply Qle_bool_imp_le; reflexivity.
  - cbn [foldM] in H. apply obind_Some in H as [st1 [Hs H]].
    unfold ham_linear_step in Hs. cbn [List.length]. rewrite inject_Z_of_nat_S, wsum_cons.
    destruct (Qlt_le_dec ham_tol (Qabs x)) as [Hk|Hd].
    + apply obind_Some in Hs as [i [Hi Hs]]. injection Hs as <-.
      assert (Hl' : List.length (cs ++ [x])%list = List.length (os ++ [PauliZ i])%list)
        by (rewrite !length_app; cbn; lia).
      destruct (IH _ _ _ Hl' H) as [Hr Hb]. split; [exact Hr|].
      apply (ham_err_keep _ _ _ (Qeq_refl _)) in Hb. eapply Qle_trans; [|exact Hb].
      apply Qle_lteq. right. apply Qabs_wd. unfold hb. rewrite hamiltonian_snoc by exact Hl.
      cbn [pauli_eigenvalue]. rewrite (spin_wire v i Hi). ring.
    + injection Hs as <-. destruct (IH _ _ _ Hl H) as [Hr Hb]. split; [exact Hr|].
      apply (ham_err_drop _ (hb res - hb (cs, os) - wsum spin h) (x * spin v)); [ring|exact Hb|].
      apply dropped_term_bound; [exact Hd | apply spin_bound].
Qed.

Lemma ham_quad_loop : forall J cs os res,
  List.length cs = List.length os ->
  foldM (ham_quad_step vti) J (cs, os) = Some res ->
  List.length (fst res) = List.length (snd res) /\
  Qabs (hb res - hb (cs, os) - wsum (pair_weight spin) J)
    <= ham_tol * inject_Z (Z.of_nat (List.length J)).
Proof.
  induction J as [|[[a b] x] J IH]; intros cs os res Hl H.
  - injection H as <-. split; [exact Hl|]. rewrite wsum_nil.
    setoid_replace (hb (cs, os) - hb (cs, os) - 0) with 0 by ring.
    apply Qle_bool_imp_le; reflexivity.
  - cbn [foldM] in H. apply obind_Some in H as [st1 [Hs H]].
    unfold ham_quad_step in Hs. cbn [List.length]. rewrite inject_Z_of_nat_S, wsum_cons.
    unfold pair_weight at 1. cbn [fst snd].
    destruct (Qlt_le_dec ham_tol (Qabs x)) as [Hk|Hd].
    + apply obind_Some in Hs as [ia [Ha Hs]]. apply obind_Some in Hs as [ib [Hb' Hs]].
      injection Hs as <-.
      assert (Hl' : List.length (cs ++ [x])%list = List.length (os ++ [PauliZZ ia ib])%list)
        by (rewrite !length_app; cbn; lia).
      destruct (IH _ _ _ Hl' H) as [Hr Hb]. split; [exact Hr|].
      apply (ham_err_keep _ _ _ (Qeq_refl _)) in Hb. eapply Qle_trans; [|exact Hb].
      apply Qle_lteq. right. apply Qabs_wd. unfold hb. rewrite hamiltonian_snoc by exact Hl.
      cbn [pauli_eigenvalue]. rewrite (spin_wire a ia Ha), (spin_wire b ib Hb'). ring.
    + injection Hs as <-. destruct (IH _ _ _ Hl H) as [Hr Hb]. split; [exact Hr|].
      apply (ham_err_drop _ (hb res - hb (cs, os) - wsum (pair_weight spin) J)
               (x * (spin a * spin b))); [ring|exact Hb|].
      apply dropped_term_bound; [exact Hd|]. rewrite Qabs_Qmult.
      setoid_replace 1 with (1 * 1) by ring.
      apply Qmult_le_compat_nonneg; split; auto using Qabs_nonneg, spin_bound.
Qed.

End Hamiltonian.

Lemma hamiltonian_energy_bound h J c itv bits H :
  Forall (fun b => b = 0%Z \/ b = 1%Z) bits ->
  ising_to_pennylane_hamiltonian h J c itv = Some H ->
  Qabs (hamiltonian_basis_energy bits H - ising_energy (spin_of_bits itv bits) (h, J, c))
    <= ham_tol * inject_Z (Z.of_nat (List.length h + List.length J + 1)).
Proof.
  intros H01 HH. unfold ising_to_pennylane_hamiltonian in HH.
  apply obind_Some in HH as [[cs1 os1] [H1 HH]]. apply obind_Some in HH as [[cs os] [H2 HH]].
  destruct (ham_linear_loop itv bits H01 h [] [] _ eq_refl H1) as [Hl1 Hb1].
  destruct (ham_quad_loop itv bits H01 J cs1 os1 _ Hl1 H2) as [Hl2 Hb2].
  cbn [fst snd] in Hl2.
  rewrite !Nat2Z.inj_add, !inject_Z_plus. cbn [ising_energy].
  set (hb := hamiltonian_basis_energy bits) in *.
  set (sp := spin_of_bits itv bits) in *.
  assert (H0 : hb ([], []) == 0) by reflexivity.
  assert (Tri : forall a b t, Qabs (a + b + t) <= Qabs a + Qabs b + Qabs t).
  { intros a b t. eapply Qle_trans; [apply Qabs_triangle|].
    pose proof (Qabs_triangle a b). lra. }
  destruct (Qlt_le_dec ham_tol (Qabs c)) as [Hk|Hd]; injection HH as <-.
  - assert (E : hb ((cs ++ [c])%list, (os ++ [Identity 0])%list) - (c + wsum sp h + wsum (pair_weight sp) J)
                == (hb (cs1, os1) - hb ([], []) - wsum sp h)
                   + (hb (cs, os) - hb (cs1, os1) - wsum (pair_weight sp) J) + 0).
    { unfold hb. rewrite hamiltonian_snoc by exact Hl2. fold hb. rewrite H0. cbn. ring. }
    rewrite E. eapply Qle_trans; [apply Tri|]. cbn [Qabs Z.abs]. change (inject_Z (Z.of_nat 1)) with 1.
    unfold ham_tol in *. lra.
  - assert (E : hb (cs, os) - (c + wsum sp h + wsum (pair_weight sp) J)
                == (hb (cs1, os1) - hb ([], []) - wsum sp h)
                   + (hb (cs, os) - hb (cs1, os1) - wsum (pair_weight sp) J) + - c).
    { rewrite H0. ring. }
    rewrite E. eapply Qle_trans; [apply Tri|]. rewrite Qabs_opp. change (inject_Z (Z.of_nat 1)) with 1.
    unfold ham_tol in *. lra.
Qed.

(** X17: [ising_to_pennylane_hamiltonian] drops the terms whose coefficient is
    at most [1e-9] in absolute value: on every computational basis state of
    a 0/1 bitstring, the energy of the Hamiltonian it returns differs from
    the energy of the Ising model [(h, J, constant)] at the spins
    [1 - 2 * bit] by at most [1e-9] per term of [h], [J] and the constant. *)
Theorem ising_hamiltonian_energy h J c itv bits H :
  Forall (fun b => b = 0%Z \/ b = 1%Z) bits ->
  ising_to_pennylane_hamiltonian h J c itv = Some H ->
  Qabs (hamiltonian_basis_energy bits H - ising_energy (spin_of_bits itv bits) (h, J, c))
    <= ham_tol * inject_Z (Z.of_nat (List.length h + List.length J + 1)).
Proof.
  exact (hamiltonian_energy_bound h J c itv bits H).
Qed.

Lemma ising_hamiltonian_energy_witness :
  Forall (fun b => b = 0%Z \/ b = 1%Z) [1; 0]%Z /\
  exists H, ising_to_pennylane_hamiltonian [("a", 1); ("b", 0)] [(("a", "b"), 2)] 0 ["a"; "b"]
              = Some H /\
    Qabs (hamiltonian_basis_energy [1; 0]%Z H
          - ising_energy (spin_of_bits ["a"; "b"] [1; 0]%Z) ([("a", 1); ("b", 0)], [(("a", "b"), 2)], 0))
      <= ham_tol * inject_Z (Z.of_nat (List.length [("a", 1); ("b", 0)]
                                       + List.length [(("a", "b"), 2)] + 1)).
Proof.
  assert (H01 : Forall (fun b => b = 0%Z \/ b = 1%Z) [1; 0]%Z) by (repeat constructor; auto).
  split; [exact H01|].
  destruct (ising_to_pennylane_hamiltonian [("a", 1); ("b", 0)] [(("a", "b"), 2)] 0 ["a"; "b"])
    as [H|] eqn:E; [|vm_compute in E; discriminate].
  exists H. split; [reflexivity|].
  exact (ising_hamiltonian_energy _ _ _ _ _ H H01 E).
Defined.

(** ** The pipeline of [main]: [build_qubo], [qubo_to_ising],
    [ising_to_pennylane_hamiltonian] *)

Lemma dict_set_in_keys {K V} (keqb : K -> K -> bool) (d : list (K * V)) key v k :
  In k (map fst (dict_set keqb d key v)) -> In k (map fst d) \/ k = key.
Proof.
  induction d as [|[k' v'] r IH]; cbn [dict_set map fst In].
  - intros [<-|[]]. right. reflexivity.
  - destruct (keqb key k'); cbn [map fst In]; [tauto|].
    intros [E|H]; [left; left; exact E|]. destruct (IH H) as [H'|H']; [left; right|right]; assumption.
Qed.

Lemma qubo_to_ising_h_keys lin quad off h J c v :
  qubo_to_ising lin quad off = Some (h, J, c) -> In v (map fst h) -> In v (map fst lin).
Proof.
  unfold qubo_to_ising. intros H Hv.
  set (h0 := fold_left (fun h '(var, _) => dict_set String.eqb h var 0) lin []) in H.
  apply obind_Some in H as [[h1 c1] [H1 H]].
  assert (Hk : map fst h = map fst h1).
  { change (map fst (fst (fst (h, J, c))) = map fst h1).
    eapply (foldM_invariant (fun st => map fst (fst (fst st)) = map fst h1)); [| | exact H];
      [|reflexivity].
    intros [[hx Jx] cx] kc [[hy Jy] cy] _ Hx Hs. cbn [fst] in *.
    rewrite (ising_quad_step_keys _ _ _ _ _ _ _ Hs). exact Hx. }
  rewrite Hk, (ising_linear_loop_keys _ _ _ _ _ H1) in Hv. apply h0_keys, Hv.
Qed.

Lemma qubo_to_ising_J_keys lin quad off h J c k :
  qubo_to_ising lin quad off = Some (h, J, c) -> In k (map fst J) ->
  exists a b x, In ((a, b), x) quad /\ k = sort_pair a b.
Proof.
  unfold qubo_to_ising. intros H Hk.
  apply obind_Some in H as [[h1 c1] [_ H]].
  set (P := fun st : Linear * Quadratic * Q => forall k, In k (map fst (snd (fst st))) ->
              exists a b x, In ((a, b), x) quad /\ k = sort_pair a b).
  revert k Hk. change (P (h, J, c)).
  eapply (foldM_invariant P); [| | exact H].
  - intros [[hx Jx] cx] [[a b] x] [[hy Jy] cy] Hin Hx Hs k' Hk'. cbn [fst snd] in Hk'.
    unfold ising_quad_step in Hs. apply obind_Some in Hs as [h2 [_ Hs]].
    apply obind_Some in Hs as [h3 [_ Hs]]. injection Hs as E1 <- E3.
    unfold quad_accum in Hk'. apply dict_set_in_keys in Hk' as [Hk' | ->].
    + exact (Hx k' Hk').
    + exists a, b, x. auto.
  - intros k' [].
Qed.

Lemma var_to_index_present itv v :
  NoDup itv -> In v itv -> exists i, dict_get String.eqb (var_to_index itv) v = Some i.
Proof.
  intros Hnd Hv. apply In_nth_error in Hv as [i Hi].
  exists i. exact (var_to_index_go_nth itv 0 [] i v Hnd Hi).
Qed.

Lemma ham_linear_loop_some vti : forall h st,
  (forall v, In v (map fst h) -> dict_get String.eqb vti v <> None) ->
  exists st', foldM (ham_linear_step vti) h st = Some st'.
Proof.
  induction h as [|[v x] h IH]; intros [cs os] Hk; [eexists; reflexivity|].
  cbn [foldM]. unfold ham_linear_step at 1.
  assert (Hr : forall v, In v (map fst h) -> dict_get String.eqb vti v <> None)
    by (intros w Hw; apply Hk; right; exact Hw).
  destruct (Qlt_le_dec ham_tol (Qabs x)); [|exact (IH _ Hr)].
  destruct (dict_get String.eqb vti v) as [i|] eqn:G; [exact (IH _ Hr)|].
  exfalso. apply (Hk v); [left; reflexivity | exact G].
Qed.

Lemma ham_quad_loop_some vti : forall J st,
  (forall a b, In (a, b) (map fst J) ->
     dict_get String.eqb vti a <> None /\ dict_get String.eqb vti b <> None) ->
  exists st', foldM (ham_quad_step vti) J st = Some st'.
Proof.
  induction J as [|[[a b] x] J IH]; intros [cs os] Hk; [eexists; reflexivity|].
  cbn [foldM]. unfold ham_quad_step at 1.
  assert (Hr : forall a b, In (a, b) (map fst J) ->
                 dict_get String.eqb vti a <> None /\ dict_get String.eqb vti b <> None)
    by (intros a' b' Hw; apply Hk; right; exact Hw).
  destruct (Qlt_le_dec ham_tol (Qabs x)); [|exact (IH _ Hr)].
  destruct (Hk a b (or_introl eq_refl)) as [Ha Hb].
  destruct (dict_get String.eqb vti a) as [ia|]; [|congruence].
  destruct (dict_get String.eqb vti b) as [ib|]; [|congruence].
  exact (IH _ Hr).
Qed.

(** X18: the Hamiltonian that [main] hands to QAOA implements the QUBO: for a
    QUBO built by [build_qubo] with pairwise distinct variable names,
    [qubo_to_ising] and [ising_to_pennylane_hamiltonian] raise no error, and
    on the basis state of every 0/1 bitstring as long as [index_to_var] the
    Hamiltonian's energy is within [1e-9] per Ising term of the energy that
    [evaluate_qubo] gives the bitstring. *)
Theorem main_hamiltonian_energy courses cp kp lin quad off itv bits :
  build_qubo courses cp kp = Some (lin, quad, off, itv) -> NoDup itv ->
  List.length bits = List.length itv -> Forall (fun b => b = 0%Z \/ b = 1%Z) bits ->
  exists e h J c H, evaluate_qubo bits lin quad off itv = Some e /\
    qubo_to_ising lin quad off = Some (h, J, c) /\
    ising_to_pennylane_hamiltonian h J c itv = Some H /\
    Qabs (hamiltonian_basis_energy bits H - e)
      <= ham_tol * inject_Z (Z.of_nat (List.length h + List.length J + 1)).
Proof.
  intros Hb Hnd Hlen H01.
  destruct (build_qubo_shape _ _ _ _ _ _ _ Hb) as [_ [Hkeys Hq]].
  rewrite initial_linear_keys in Hkeys by exact Hnd.
  pose proof (keys_in_spec _ _ Hq) as Hq'.
  destruct (evaluate_qubo_energy bits lin quad off itv Hnd Hkeys Hlen Hq') as [e [He Hee]].
  assert (Hql : forall a b x, In ((a, b), x) quad -> In a (map fst lin) /\ In b (map fst lin))
    by (rewrite Hkeys; exact Hq').
  destruct (qubo_to_ising_energy (bit_at itv bits) lin quad off Hql) as [[[h J] c] [Hm Hme]].
  assert (Hpres : forall v, In v itv -> dict_get String.eqb (var_to_index itv) v <> None).
  { intros v Hv. destruct (var_to_index_present itv v Hnd Hv) as [i Hi]. congruence. }
  assert (HH : exists H, ising_to_pennylane_hamiltonian h J c itv = Some H).
  { unfold ising_to_pennylane_hamiltonian.
    destruct (ham_linear_loop_some (var_to_index itv) h ([], [])) as [st1 H1].
    { intros v Hv. apply Hpres. rewrite <- Hkeys. exact (qubo_to_ising_h_keys _ _ _ _ _ _ v Hm Hv). }
    rewrite H1. cbn [obind].
    destruct (ham_quad_loop_some (var_to_index itv) J st1) as [[cs os] H2].
    { intros a b Hab. destruct (qubo_to_ising_J_keys _ _ _ _ _ _ _ Hm Hab)
        as [a0 [b0 [x [Hin E]]]].
      destruct (Hq' a0 b0 x Hin) as [Ha Hb'].
      destruct (sort_pair_in (fun v => In v itv) a0 b0 Ha Hb') as [Ha' Hb''].
      rewrite <- E in Ha', Hb''. cbn [fst snd] in Ha', Hb''. split; apply Hpres; assumption. }
    rewrite H2. cbn [obind].
    destruct (Qlt_le_dec ham_tol (Qabs c)); eexists; reflexivity. }
  destruct HH as [H HH].
  exists e, h, J, c, H. split; [exact He|]. split; [exact Hm|]. split; [exact HH|].
  assert (Eq : ising_energy (spin_of_bits itv bits) (h, J, c) == e)
    by (rewrite Hee; exact Hme).
  rewrite <- Eq. exact (hamiltonian_energy_bound h J c itv bits H H01 HH).
Qed.

Lemma main_hamiltonian_energy_witness :
  exists lin quad off itv, build_qubo demo_catalogue 5 10 = Some (lin, quad, off, itv) /\
  NoDup itv /\ List.length [1; 0; 1]%Z = List.length itv /\
  Forall (fun b => b = 0%Z \/ b = 1%Z) [1; 0; 1]%Z /\
  exists e h J c H, evaluate_qubo [1; 0; 1]%Z lin quad off itv = Some e /\
    qubo_to_ising lin quad off = Some (h, J, c) /\
    ising_to_pennylane_hamiltonian h J c itv = Some H /\
    Qabs (hamiltonian_basis_energy [1; 0; 1]%Z H - e)
      <= ham_tol * inject_Z (Z.of_nat (List.length h + List.length J + 1)).
Proof.
  destruct (build_qubo demo_catalogue 5 10) as [[[[lin quad] off] itv]|] eqn:E;
    [|vm_compute in E; discriminate].
  exists lin, quad, off, itv. split; [reflexivity|].
  destruct (build_qubo_shape _ _ _ _ _ _ _ E) as [Hitv _].
  assert (Hnd : NoDup itv)
    by (rewrite Hitv; vm_compute; repeat constructor; simpl; intuition discriminate).
  assert (Hlen : List.length [1; 0; 1]%Z = List.length itv) by (rewrite Hitv; reflexivity).
  assert (H01 : Forall (fun b => b = 0%Z \/ b = 1%Z) [1; 0; 1]%Z) by (repeat constructor; auto).
  split; [exact Hnd|]. split; [exact Hlen|]. split; [exact H01|].
  exact (main_hamiltonian_energy demo_catalogue 5 10 lin quad off itv _ E Hnd Hlen H01).
Defined.
